(** * A shallow embedding of the dungeon generator (Dungeon.ts, Tile.ts)

    JavaScript numbers are modelled as [Z]: every option and stage dimension
    is taken to be an integer in the safe range, where [parseInt(String(n))]
    is [n] and arithmetic is exact.  Tile objects live in the tile matrix and
    never move, so a reference to a tile (a neighbour link, a bucket entry) is
    modelled as the matrix position of that tile.  The methods of [Dungeon]
    read and write [this]; they are modelled in a state-and-exception monad
    over the record [Dungeon].

    Of the repository only Dungeon.ts and Tile.ts are at hand.  What the
    pipeline takes from Coordinates.ts, Room.ts and Query.ts is a parameter of
    the model (the class [Collaborators]) where the specification does not fix
    it, and is modelled from the specification where it does (the cardinal
    offsets, the region ids, the neighbour queries at level 1).  The seeded
    generator of the package [chance] is a stream of raw draws. *)

From Stdlib Require Import ZArith Lia Bool Ascii.
From stdpp Require Import base option list sets numbers strings pretty.

#[local] Set Warnings "-clear-no-such-hyp".

Local Open Scope Z_scope.

(** ** Tile.ts *)

Inductive TileType := door | floor | shaft | stairs | wall.
Inductive RegionType := corridor | room.

Global Instance TileType_eq_dec : EqDecision TileType.
Proof. solve_decision. Defined.
Global Instance RegionType_eq_dec : EqDecision RegionType.
Proof. solve_decision. Defined.

(** A reference to a tile object: the indices [(i, j)] with which the tile is
    stored as [tiles[i][j]]. *)
Abbreviation Ref := (Z * Z)%type (only parsing).

(** [Neighbors] (Dungeon.ts): a partial mapping from the eight compass
    directions to tiles; projections are prefixed with [nb_]. *)
Record Neighbors := mkNeighbors {
  nb_n : option Ref; nb_ne : option Ref; nb_e : option Ref; nb_se : option Ref;
  nb_s : option Ref; nb_sw : option Ref; nb_w : option Ref; nb_nw : option Ref
}.

Definition noNeighbors : Neighbors :=
  mkNeighbors None None None None None None None None.

Module Tile.

(** [TileState]. *)
Record t := mk {
  type : TileType;
  neighbors : Neighbors;
  x : Z;
  y : Z;
  region : Z;
  regionType : option RegionType
}.

(** [constructor(type, x, y, region = -1)]. *)
Definition new (ty : TileType) (x0 y0 : Z) : t :=
  mk ty noNeighbors x0 y0 (-1) None.

Definition set_type (ty : TileType) (a : t) : t :=
  mk ty (neighbors a) (x a) (y a) (region a) (regionType a).
Definition set_region (r : Z) (a : t) : t :=
  mk (type a) (neighbors a) (x a) (y a) r (regionType a).
Definition set_regionType (r : option RegionType) (a : t) : t :=
  mk (type a) (neighbors a) (x a) (y a) (region a) r.
Definition setNeighbors (nb : Neighbors) (a : t) : t :=
  mk (type a) nb (x a) (y a) (region a) (regionType a).

Definition isFloor (a : t) : bool := bool_decide (type a = floor).
Definition isDoor (a : t) : bool := bool_decide (type a = door).
Definition isWall (a : t) : bool := bool_decide (type a = wall).

End Tile.

Abbreviation TileMatrix := (list (list Tile.t)) (only parsing).

(** [tiles[i] && tiles[i][j]]: absent for negative or too large indices. *)
Definition tileAt (m : TileMatrix) (i j : Z) : option Tile.t :=
  if (0 <=? i) && (0 <=? j)
  then col ← m !! Z.to_nat i; col !! Z.to_nat j
  else None.

(** Following a link. *)
Definition deref (m : TileMatrix) (r : option Ref) : option Tile.t :=
  p ← r; tileAt m p.1 p.2.

(** In-place mutation of the tile object stored at [tiles[i][j]]. *)
Definition updTile (f : Tile.t → Tile.t) (i j : Z) (m : TileMatrix) : TileMatrix :=
  if (0 <=? i) && (0 <=? j)
  then alter (alter f (Z.to_nat j)) (Z.to_nat i) m
  else m.

(** [nb?.isFloor()] in a condition: false when the link is absent. *)
Definition floorAt (m : TileMatrix) (r : option Ref) : bool :=
  match deref m r with
  | Some a => Tile.isFloor a
  | None => false
  end.

Definition b2z (b : bool) : Z := if b then 1 else 0.

(** [Tile.isCorner]: the four [if (...) corners++] in source order. *)
Definition isCorner (m : TileMatrix) (a : Tile.t) : bool :=
  let nb := Tile.neighbors a in
  let corners := 0 in
  let corners := corners + b2z (floorAt m (nb_n nb) && floorAt m (nb_e nb)) in
  let corners := corners + b2z (floorAt m (nb_n nb) && floorAt m (nb_w nb)) in
  let corners := corners + b2z (floorAt m (nb_s nb) && floorAt m (nb_e nb)) in
  let corners := corners + b2z (floorAt m (nb_s nb) && floorAt m (nb_w nb)) in
  corners =? 1.

(** The property of [isCorner] in the words of the specification: a
    quadrant holds when both of its cardinal neighbours are present and of
    type floor, and exactly one of the four quadrants holds. *)
Definition presentFloor (m : TileMatrix) (r : option Ref) : Prop :=
  ∃ b, deref m r = Some b ∧ Tile.type b = floor.

Definition quadrant (m : TileMatrix) (a : Tile.t)
    (d1 d2 : Neighbors → option Ref) : Prop :=
  presentFloor m (d1 (Tile.neighbors a)) ∧ presentFloor m (d2 (Tile.neighbors a)).

Definition exactlyOneQuadrant (m : TileMatrix) (a : Tile.t) : Prop :=
  let ne := quadrant m a nb_n nb_e in
  let nw := quadrant m a nb_n nb_w in
  let se := quadrant m a nb_s nb_e in
  let sw := quadrant m a nb_s nb_w in
  (ne ∧ ¬ nw ∧ ¬ se ∧ ¬ sw) ∨ (¬ ne ∧ nw ∧ ¬ se ∧ ¬ sw) ∨
  (¬ ne ∧ ¬ nw ∧ se ∧ ¬ sw) ∨ (¬ ne ∧ ¬ nw ∧ ¬ se ∧ sw).

(** ** The seeded generator (package [chance], outside the repository)

    [new Chance(seed)] is a deterministic stream of raw values selected by the
    seed; [integer({min, max})] maps the next raw value into [min..max] and
    throws when [min > max].  [calls] logs the requested ranges in order. *)

Inductive Seed := SeedAbsent | SeedNumber (z : Z) | SeedString (s : string).

(** Truthiness of [stage.seed] in [stage.seed || ...]. *)
Definition truthy (sd : Seed) : bool :=
  match sd with
  | SeedAbsent => false
  | SeedNumber z => negb (z =? 0)
  | SeedString s => negb (String.eqb s "")
  end.

Record Chance := mkChance {
  stream : nat → Z;
  cursor : nat;
  calls : list (Z * Z)
}.

Inductive Error :=
| RangeError (msg : string)
| TypeError (msg : string).

(** Outcome of running a method: a value, a thrown exception, or the loop
    budget of the model used up (the source would still be running). *)
Inductive Res (A : Type) :=
| Ok (a : A)
| Throw (e : Error)
| Timeout.
Arguments Ok {A} a.
Arguments Throw {A} e.
Arguments Timeout {A}.

Definition Chance_integer (lo hi : Z) (c : Chance) : Res (Z * Chance) :=
  if hi <? lo
  then Throw (RangeError "Chance: Min cannot be greater than Max.")
  else Ok (lo + stream c (cursor c) `mod` (hi - lo + 1),
           mkChance (stream c) (S (cursor c)) (calls c ++ [(lo, hi)])).

(** ** Room.ts and Region.ts (not among the sources) *)

Record Room := mkRoom {
  room_x : Z; room_y : Z; room_width : Z; room_height : Z
}.

Record Region := mkRegion {
  region_id : Z;
  region_type : RegionType
}.

(** ** Dungeon.ts *)

(** [DungeonOptions] as the caller passes them: every key optional. *)
Record DungeonOptionsInput := mkOptionsInput {
  in_doorChance : option Z;
  in_maxDoors : option Z;
  in_roomTries : option Z;
  in_roomExtraSize : option Z;
  in_windingPercent : option Z;
  in_multiplier : option Z;
  in_removeDeadEnds : option bool
}.

(** [this.options] after the constructor. *)
Record DungeonOptions := mkOptions {
  doorChance : Z;
  maxDoors : Z;
  roomTries : Z;
  roomExtraSize : Z;
  windingPercent : Z;
  multiplier : Z;
  removeDeadEndsOpt : bool
}.

(** [build]'s argument: every key optional. *)
Record StageInput := mkStageInput {
  in_width : option Z;
  in_height : option Z;
  in_seed : Seed
}.

Record StageOptions := mkStage {
  width : Z;
  height : Z;
  stage_seed : Seed
}.

(** The fields of a [Dungeon] instance, the region counter of the registry
    and the messages sent to [$out.error]. *)
Record Dungeon := mkDungeon {
  options : DungeonOptions;
  stage : option StageOptions;
  rng : option Chance;
  rooms : list Room;
  region : option Region;
  tiles : TileMatrix;
  seed : Seed;
  nextRegionId : Z;
  errorLog : list string
}.

Definition set_stage (v : option StageOptions) (d : Dungeon) : Dungeon :=
  mkDungeon (options d) v (rng d) (rooms d) (region d) (tiles d) (seed d)
            (nextRegionId d) (errorLog d).
Definition set_rng (v : option Chance) (d : Dungeon) : Dungeon :=
  mkDungeon (options d) (stage d) v (rooms d) (region d) (tiles d) (seed d)
            (nextRegionId d) (errorLog d).
Definition set_rooms (v : list Room) (d : Dungeon) : Dungeon :=
  mkDungeon (options d) (stage d) (rng d) v (region d) (tiles d) (seed d)
            (nextRegionId d) (errorLog d).
Definition set_region (v : option Region) (d : Dungeon) : Dungeon :=
  mkDungeon (options d) (stage d) (rng d) (rooms d) v (tiles d) (seed d)
            (nextRegionId d) (errorLog d).
Definition set_tiles (v : TileMatrix) (d : Dungeon) : Dungeon :=
  mkDungeon (options d) (stage d) (rng d) (rooms d) (region d) v (seed d)
            (nextRegionId d) (errorLog d).
Definition set_seed (v : Seed) (d : Dungeon) : Dungeon :=
  mkDungeon (options d) (stage d) (rng d) (rooms d) (region d) (tiles d) v
            (nextRegionId d) (errorLog d).
Definition set_nextRegionId (v : Z) (d : Dungeon) : Dungeon :=
  mkDungeon (options d) (stage d) (rng d) (rooms d) (region d) (tiles d) (seed d)
            v (errorLog d).
Definition set_errorLog (v : list string) (d : Dungeon) : Dungeon :=
  mkDungeon (options d) (stage d) (rng d) (rooms d) (region d) (tiles d) (seed d)
            (nextRegionId d) v.

(** *** The monad of methods *)

Definition M (A : Type) : Type := Dungeon → Res (A * Dungeon).

Global Instance M_ret : MRet M := λ A a d, Ok (a, d).
Global Instance M_bind : MBind M := λ A B f c d,
  match c d with
  | Ok (a, d') => f a d'
  | Throw e => Throw e
  | Timeout => Timeout
  end.

Definition get {A} (f : Dungeon → A) : M A := λ d, Ok (f d, d).
Definition modify (f : Dungeon → Dungeon) : M unit := λ d, Ok (tt, f d).
Definition throw {A} (e : Error) : M A := λ _, Throw e.
Definition timeout {A} : M A := λ _, Timeout.

(** Reading a field that is [undefined] and then a property of it throws. *)
Definition getSome {A} (f : Dungeon → option A) (what : string) : M A := λ d,
  match f d with
  | Some a => Ok (a, d)
  | None => Throw (TypeError what)
  end.

(** [for (const v of l) body(v)]. *)
Fixpoint forEach {A} (l : list A) (body : A → M unit) : M unit :=
  match l with
  | [] => mret tt
  | v :: l' => body v;; forEach l' body
  end.

(** The values [lo, lo + step, ...] below [hi], for counting loops. *)
Definition range (lo hi : Z) : list Z :=
  (λ k : nat, lo + Z.of_nat k) <$> seq 0 (Z.to_nat (hi - lo)).
Definition oddRange (hi : Z) : list Z :=
  (λ k : nat, 1 + 2 * Z.of_nat k) <$> seq 0 (Z.to_nat (hi `div` 2)).

(** The constructor: defaults, then the caller's options, then the coercion
    of [multiplier]: [multiplier > 0 ? parseInt(String(multiplier || 1)) || 1 : 1],
    which is [multiplier] itself for a positive integer. *)
Definition Dungeon_new (o : DungeonOptionsInput) : Dungeon :=
  let m := match in_multiplier o with
           | Some v => if 0 <? v then v else 1
           | None => 1
           end in
  mkDungeon
    (mkOptions (default 50 (in_doorChance o)) (default 5 (in_maxDoors o))
               (default 50 (in_roomTries o)) (default 0 (in_roomExtraSize o))
               (default 50 (in_windingPercent o)) m
               (default false (in_removeDeadEnds o)))
    None None [] None [] SeedAbsent 0 [].

(** [randBetween(min, max)]. *)
Definition randBetween (lo hi : Z) : M Z := λ d,
  match rng d with
  | None => Throw (TypeError "this.rng is undefined")
  | Some c =>
      match Chance_integer lo hi c with
      | Ok (v, c') => Ok (v, set_rng (Some c') d)
      | Throw e => Throw e
      | Timeout => Timeout
      end
  end.

(** [oneIn(num)]. *)
Definition oneIn (num : Z) : M bool :=
  v ← randBetween 1 num; mret (v =? 1).

(** [getTile(x, y)]. *)
Definition getTile (x y : Z) : M Tile.t := λ d,
  match tileAt (tiles d) x y with
  | Some a => Ok (a, d)
  | None => Throw (RangeError "tile is unreachable")
  end.

(** Modelled from the spec: Region.ts is missing; [new Region(type)] takes
    the next id of the registry: "Ids are assigned sequentially starting at 0;
    a new id is minted whenever the pipeline begins a new room or corridor",
    from a counter that "a generator instance owns".  The constructor is
    passed the type only, so the counter is state of Region.ts; the model
    threads it through the instance, and what is proved about two runs of
    [build] lets it start at any two values. *)
Definition Region_new (ty : RegionType) : M Region := λ d,
  Ok (mkRegion (nextRegionId d) ty, set_nextRegionId (nextRegionId d + 1) d).

(** [startRegion(type)]. *)
Definition startRegion (ty : RegionType) : M Region :=
  r ← Region_new ty;
  modify (set_region (Some r));;
  mret r.

(** [get currentRegion()]. *)
Definition currentRegion : M Z :=
  r ← getSome region "this.region is undefined";
  mret (region_id r).

(** The three assignments of [setTile] to the tile; an omitted type is
    ['floor']. *)
Definition assigned (r : Region) (ty : option TileType) (a : Tile.t) : Tile.t :=
  Tile.set_regionType (Some (region_type r))
    (Tile.set_region (region_id r) (Tile.set_type (default floor ty) a)).

(** [setTile(x, y, type)]. *)
Definition setTile (x y : Z) (ty : option TileType) : M Tile.t :=
  a ← getTile x y;
  r ← getSome region "this.region is undefined";
  modify (λ d, set_tiles (updTile (assigned r ty) x y (tiles d)) d);;
  mret (assigned r ty a).

(** The three assignments of [resetTile] to the tile. *)
Definition cleared (a : Tile.t) : Tile.t :=
  Tile.set_regionType None (Tile.set_region (-1) (Tile.set_type wall a)).

(** [resetTile(x, y)]. *)
Definition resetTile (x y : Z) : M Tile.t :=
  a ← getTile x y;
  modify (λ d, set_tiles (updTile cleared x y (tiles d)) d);;
  mret (cleared a).

(** [for (...) { acc = body(acc, v) }]. *)
Fixpoint foldM {A B} (body : B → A → M B) (b : B) (l : list A) : M B :=
  match l with
  | [] => mret b
  | v :: l' => b' ← body b v; foldM body b' l'
  end.

(** *** Coordinates.ts (not among the sources) *)

(** [Point]: an object [{x, y}]; [PointArray]: an array [[x, y]]. *)
Record Point := mkPoint { pt_x : Z; pt_y : Z }.
Abbreviation PointArray := (Z * Z)%type (only parsing).

Global Instance Point_eq_dec : EqDecision Point.
Proof. solve_decision. Defined.

(** Modelled from the spec: Coordinates.ts is missing; "the four cardinal unit
    offsets (0,-1),(1,0),(0,1),(-1,0) in that fixed order". *)
Definition cardinalDirections : list PointArray :=
  [(0, -1); (1, 0); (0, 1); (-1, 0)].

(** Modelled from the spec: Coordinates.ts is missing; "point parsing" of an
    offset pair into a point. *)
Definition parsePoint (a : PointArray) : Point := mkPoint a.1 a.2.

(** *** Neighbour queries (NeighborQuery.ts, not among the sources) *)

(** Modelled from the spec: NeighborQuery.ts is missing; [find()] with the
    default "cardinal" directions and "BFS radius" 1 visits the tiles linked
    as n, e, s, w; the "result excludes the start tile itself". *)
Definition cardinal (m : TileMatrix) (a : Tile.t) : list Tile.t :=
  let nb := Tile.neighbors a in
  omap (deref m) [nb_n nb; nb_e nb; nb_s nb; nb_w nb].

(** Modelled from the spec: [type(t)] / [notType(t)] "keep only tiles whose
    type matches / differs". *)
Definition ofType (ty : TileType) (l : list Tile.t) : list Tile.t :=
  filter (λ b, Tile.type b = ty) l.
Definition notType (ty : TileType) (l : list Tile.t) : list Tile.t :=
  filter (λ b, Tile.type b ≠ ty) l.

(** [Tile.floors], [Tile.doors], [Tile.nearDoors], [Tile.isAtEnd] at the
    default level 1. *)
Definition floors (m : TileMatrix) (a : Tile.t) : list Tile.t :=
  ofType floor (cardinal m a).
Definition doors (m : TileMatrix) (a : Tile.t) : list Tile.t :=
  ofType door (cardinal m a).
Definition nearDoors (m : TileMatrix) (a : Tile.t) : bool :=
  0 <? Z.of_nat (length (doors m a)).
Definition isAtEnd (m : TileMatrix) (a : Tile.t) : bool :=
  Z.of_nat (length (floors m a)) =? 1.

(** The tiles in the order of [for (const row of tiles) for (const tile of row)],
    as references. *)
Definition allRefs (m : TileMatrix) : list Ref :=
  mjoin (imap (λ i col, imap (λ j _, (Z.of_nat i, Z.of_nat j)) col) m).

(** [Results]: the view [(rooms, tiles, seed)] that [build] returns. *)
Record Results := mkResults {
  res_rooms : list Room;
  res_tiles : TileMatrix;
  res_seed : Seed
}.

(** *** fill *)

(** [this.tiles.push([])]. *)
Definition pushColumn (m : TileMatrix) : TileMatrix := m ++ [[]].

(** [this.tiles[x].push(tile)]; column [x] exists whenever [fill] gets here,
    since the [x]-th round has just pushed the [x+1]-th column or more. *)
Definition pushTile (x : Z) (a : Tile.t) (m : TileMatrix) : TileMatrix :=
  alter (λ col, col ++ [a]) (Z.to_nat x) m.

(** The first pair of loops of [fill]. *)
Definition fill_allocate (ty : TileType) (w h : Z) (m : TileMatrix) : TileMatrix :=
  foldl (λ m x,
           foldl (λ m y, pushTile x (Tile.new ty x y) m) (pushColumn m) (range 0 h))
        m (range 0 w).

(** [if (tiles[i] && tiles[i][j]) neighbors.dir = tiles[i][j]]. *)
Definition link (m : TileMatrix) (i j : Z) : option Ref :=
  if tileAt m i j is Some _ then Some (i, j) else None.

Definition neighborsAt (m : TileMatrix) (x y : Z) : Neighbors :=
  mkNeighbors (link m x (y - 1)) (link m (x + 1) (y - 1))
              (link m (x + 1) y) (link m (x + 1) (y + 1))
              (link m x (y + 1)) (link m (x - 1) (y + 1))
              (link m (x - 1) y) (link m (x - 1) (y - 1)).

(** The second pair of loops of [fill]. *)
Definition fill_wire (w h : Z) (m : TileMatrix) : TileMatrix :=
  foldl (λ m x,
           foldl (λ m y, updTile (Tile.setNeighbors (neighborsAt m x y)) x y m)
                 m (range 0 h))
        m (range 0 w).

(** [fill(type)]. *)
Definition fill (ty : TileType) : M unit :=
  st ← getSome stage "this.stage is undefined";
  modify (λ d, set_tiles
                 (fill_wire (width st) (height st)
                    (fill_allocate ty (width st) (height st) (tiles d))) d).

(** [carveArea(x, y, width, height)]. *)
Definition carveArea (x y w h : Z) : M unit :=
  forEach (range x (x + w)) (λ i,
    forEach (range y (y + h)) (λ j,
      setTile i j (Some floor);; mret tt)).

(** [canCarve(cell, offset)]. *)
Definition canCarve (cell : Point) (offset : PointArray) : M bool :=
  let parsed := parsePoint offset in
  let end_x := pt_x cell + pt_x parsed * 3 in
  let end_y := pt_y cell + pt_y parsed * 3 in
  m ← get tiles;
  if tileAt m end_x end_y is None then mret false else
  e ← getTile end_x end_y;
  if bool_decide (Tile.type e ≠ wall) then mret false else
  let dest_x := pt_x cell + pt_x parsed * 2 in
  let dest_y := pt_y cell + pt_y parsed * 2 in
  dst ← getTile dest_x dest_y;
  mret (bool_decide (Tile.type dst ≠ floor)).

(** *** What the pipeline takes from the modules that are not among the
    sources *)

Class Collaborators := {
  (** [new Chance(seed)]: the raw stream selected by a seed. *)
  Chance_stream : Seed → nat → Z;
  (** [toString()] of a [Point] and of a [PointArray] (Coordinates.ts). *)
  Point_toString : Point → string;
  PointArray_toString : PointArray → string;
  (** [room.touches(other)] and [room.containsTile(x, y)] (Room.ts). *)
  touches : Room → Room → bool;
  containsTile : Room → Z → Z → bool;
  (** The regions that the query chain of [connectRegions] returns for a
      tile: [find().start(tile).unique('region').cardinal().levels()
      .notRegion(-1).get().map(neighbor => neighbor.region)] (Query.ts). *)
  tileRegions : TileMatrix → Tile.t → list Z
}.

Section Pipeline.
Context `{Collaborators}.

(** *** validate *)

Definition validate (slug : string) (st : StageOptions) : M unit :=
  if width st <? 5 then
    throw (RangeError "DungeonError: options.width must not be less than 5")
  else if height st <? 5 then
    throw (RangeError "DungeonError: options.height must not be less than 5")
  else
    o ← get options;
    let w := if Z.rem (width st) 2 =? 0 then width st + 1 else width st in
    let h := if Z.rem (height st) 2 =? 0 then height st + 1 else height st in
    let w := w * multiplier o in
    let h := h * multiplier o in
    (* [slug] is what [$chance.generateSlug()] returns if it is called *)
    let sd := if truthy (stage_seed st) then stage_seed st else SeedString slug in
    modify (λ d, set_stage (Some (mkStage w h (stage_seed st)))
                   (set_seed sd
                      (set_rng (Some (mkChance (Chance_stream sd) 0 [])) d))).

(** *** growMaze *)

(** Lines 287-288, the [else] arm of the choice: a uniform pick among
    [unmadeCells]. *)
Definition uniformPick (unmadeCells : list PointArray) : M Point :=
  rand ← randBetween 0 (Z.of_nat (length unmadeCells) - 1);
  match unmadeCells !! Z.to_nat rand with
  | Some v => mret (parsePoint v)
  | None => throw (TypeError "unmadeCells[rand] is undefined")
  end.

(** Lines 282-289: the choice of the direction among [unmadeCells]; the
    condition of the [if] evaluates its three conjuncts from left to right
    and stops at the first that is false. *)
Definition chooseDirection (unmadeCells : list PointArray)
    (lastDirection : option Point) : M Point :=
  let cellIds := PointArray_toString <$> unmadeCells in
  o ← get options;
  prefer ←
    match lastDirection with
    | Some ld =>
        if bool_decide (Point_toString ld ∈ cellIds)
        then v ← randBetween 1 100; mret (windingPercent o <? v)
        else mret false
    | None => mret false
    end;
  match prefer, lastDirection with
  | true, Some ld => mret ld
  | _, _ => uniformPick unmadeCells
  end.

(** Lines 273-277. *)
Definition unmade (cell : Point) : M (list PointArray) :=
  foldM (λ acc direction,
           ok ← canCarve cell direction;
           mret (if ok : bool then acc ++ [direction] else acc))
        [] cardinalDirections.

(** One round of the [while] loop of [growMaze], on the stack [cells]
    (top at the end) and [lastDirection]. *)
Definition growStep (cells : list Point) (lastDirection : option Point)
    : M (list Point * option Point) :=
  match last cells with
  | None => mret (cells, lastDirection)
  | Some cell =>
      unmadeCells ← unmade cell;
      if bool_decide (unmadeCells ≠ []) then
        direction ← chooseDirection unmadeCells lastDirection;
        setTile (pt_x cell + pt_x direction) (pt_y cell + pt_y direction)
                (Some floor);;
        let newCell := mkPoint (pt_x cell + pt_x direction * 2)
                               (pt_y cell + pt_y direction * 2) in
        setTile (pt_x newCell) (pt_y newCell) (Some floor);;
        mret (cells ++ [newCell], Some direction)
      else
        mret (removelast cells, None)
  end.

(** [while (cells.length && count < 500)], with [remaining = 500 - count]. *)
Fixpoint growLoop (remaining : nat) (cells : list Point)
    (lastDirection : option Point) : M unit :=
  match remaining with
  | O => mret tt
  | S k =>
      if bool_decide (cells = []) then mret tt
      else
        '(cells', last') ← growStep cells lastDirection;
        growLoop k cells' last'
  end.

(** [objectFilter(object, test)] of the package @snickbit/utilities, which is
    outside the repository: the entries of [object] that pass [test], as an
    object with the keys of these entries.  Here the object is a [Neighbors]
    and the test looks at the tile behind the link. *)
Definition objectFilter (m : TileMatrix) (test : Tile.t → bool)
    (nb : Neighbors) : Neighbors :=
  let keep (r : option Ref) : option Ref :=
    p ← r; a ← tileAt m p.1 p.2; if test a then Some p else None in
  mkNeighbors (keep (nb_n nb)) (keep (nb_ne nb)) (keep (nb_e nb)) (keep (nb_se nb))
              (keep (nb_s nb)) (keep (nb_sw nb)) (keep (nb_w nb)) (keep (nb_nw nb)).

(** [object.length] of a [Neighbors]: its keys are among n, ne, e, se, s, sw,
    w and nw, so that reading [length] gives [undefined]. *)
Definition Neighbors_length (nb : Neighbors) : option Z := None.

(** [v > 0] for a value that may be [undefined]: [undefined > 0] is false. *)
Definition positive (v : option Z) : bool :=
  if v is Some n then 0 <? n else false.

(** Line 251, the test before the early return of [growMaze]:
    [objectFilter(tile.neighbors, (key, tile) => tile.type === 'floor').length > 0].
    The filtered object has no [length], so that the test is false whatever
    the neighbours are. *)
Definition earlyOut (m : TileMatrix) (a : Tile.t) : bool :=
  positive (Neighbors_length (objectFilter m Tile.isFloor (Tile.neighbors a))).

(** [growMaze(startX, startY)]. *)
Definition growMaze (startX startY : Z) : M unit :=
  m ← get tiles;
  match tileAt m startX startY with
  | None => throw (TypeError "this.tiles[startX][startY] is undefined")
  | Some a =>
      if earlyOut m a then mret tt
      else
        startRegion corridor;;
        setTile startX startY (Some floor);;
        growLoop 500 [mkPoint startX startY] None
  end.

(** *** addRooms *)

(** Lines 318-330: the limit on one dimension of a room. *)
Definition outerLimit (dim mult : Z) : Z :=
  let limit := dim - 4 * mult in
  if (10 <? dim) && (dim <? 2 * limit) then (dim + 1) `div` 2 else limit.

(** Lines 337-364: the candidate room of one attempt. *)
Definition candidate : M Room :=
  o ← get options;
  st ← getSome stage "this.stage is undefined";
  let outer_width_limit := outerLimit (width st) (multiplier o) in
  let outer_height_limit := outerLimit (height st) (multiplier o) in
  v ← randBetween 1 (3 + roomExtraSize o);
  let size := v * 2 + 1 in
  v ← randBetween 0 (1 + size `div` 2);
  let rectangularity := v * 2 in
  b ← oneIn 2;
  let w := if b : bool then size + rectangularity else size in
  let h := if b : bool then size else size + rectangularity in
  let w := Z.min w outer_width_limit in
  let h := Z.min h outer_height_limit in
  v ← randBetween 0 ((width st - w) `div` 2);
  let x := v * 2 + 1 in
  v ← randBetween 0 ((height st - h) `div` 2);
  let y := v * 2 + 1 in
  let x := if width st <=? x + w then Z.max 1 (width st - w - 1) else x in
  let y := if height st <=? y + h then Z.max 1 (height st - h - 1) else y in
  mret (mkRoom x y w h).

(** The body of the [for] loop of [addRooms]: one attempt. *)
Definition addRoomAttempt : M unit :=
  r ← candidate;
  rs ← get rooms;
  let overlaps := existsb (touches r) rs in
  if overlaps then mret tt
  else
    modify (λ d, set_rooms (rooms d ++ [r]) d);;
    startRegion room;;
    carveArea (room_x r) (room_y r) (room_width r) (room_height r).

(** [addRooms()]; the limits of lines 318-330 are computed before the loop
    from [this.stage] and [this.options], which the loop does not write, and
    [candidate] computes them again where it uses them. *)
Definition addRooms : M unit :=
  o ← get options;
  getSome stage "this.stage is undefined";;
  forEach (range 0 (roomTries o)) (λ _, addRoomAttempt).

(** *** connectRegions *)

(** [tileRegions.join('-')]. *)
Definition regionKey (regs : list Z) : string :=
  String.concat "-" (pretty <$> regs).

(** [if (!regionConnections[key]) regionConnections[key] = [];
     regionConnections[key].push(tile)], on the entries in insertion order. *)
Fixpoint addConnection (key : string) (r : Ref)
    (acc : list (string * list Ref)) : list (string * list Ref) :=
  match acc with
  | [] => [(key, [r])]
  | (k, v) :: acc' =>
      if String.eqb k key then (k, v ++ [r]) :: acc'
      else (k, v) :: addConnection key r acc'
  end.

(** Lines 393-410: the buckets of connector tiles. *)
Definition regionConnections (m : TileMatrix) : list (string * list Ref) :=
  foldl (λ acc r,
           match tileAt m r.1 r.2 with
           | None => acc
           | Some a =>
               if bool_decide (Tile.type a ≠ wall) || bool_decide (Tile.region a ≠ -1)
               then acc
               else
                 let regs := tileRegions m a in
                 if Z.of_nat (length regs) <=? 1 then acc
                 else addConnection (regionKey regs) r acc
           end)
        [] (allRefs m).

(** [door.type = 'door'] on the tile behind a reference. *)
Definition markDoor (r : Ref) : M unit :=
  modify (λ d, set_tiles (updTile (Tile.set_type door) r.1 r.2 (tiles d)) d).

(** The tile object behind a reference held in a bucket. *)
Definition tileOf (r : Ref) : M Tile.t := λ d,
  match tileAt (tiles d) r.1 r.2 with
  | Some a => Ok (a, d)
  | None => Throw (TypeError "door is undefined")
  end.

(** [l[rand]], where the tile is first used. *)
Definition pick (l : list Ref) (rand : Z) : M Ref :=
  match l !! Z.to_nat rand with
  | Some r => mret r
  | None => throw (TypeError "door is undefined")
  end.

(** Lines 420-438: [while (added_connections < doorCount && i < doorChance)];
    [budget] rounds are enough when it is at least [doorChance - i]. *)
Fixpoint doorLoop (budget : nat) (connections : list Ref) (doorCount : Z)
    (added_connections i : Z) (failedByChance : list Ref)
    : M (Z * list Ref) :=
  o ← get options;
  if (added_connections <? doorCount) && (i <? doorChance o) then
    match budget with
    | O => timeout
    | S k =>
        let i := i + 1 in
        rand ← randBetween 0 (Z.of_nat (length connections) - 1);
        byChance ← oneIn (doorChance o);
        r ← pick connections rand;
        m ← get tiles;
        a ← tileOf r;
        if negb (isCorner m a) && negb (nearDoors m a) && negb (isAtEnd m a) then
          if byChance : bool then
            markDoor r;;
            doorLoop k connections doorCount (added_connections + 1) i failedByChance
          else
            doorLoop k connections doorCount added_connections i (failedByChance ++ [r])
        else
          doorLoop k connections doorCount added_connections i failedByChance
    end
  else mret (added_connections, failedByChance).

(** Lines 415-452: the body of the loop over the buckets; returns the final
    [added_connections]. *)
Definition connectBucket (connections : list Ref) : M Z :=
  o ← get options;
  let added_connections := 0 in
  doorCount ← randBetween 1 (maxDoors o);
  '(added_connections, failedByChance) ←
     doorLoop (Z.to_nat (doorChance o)) connections doorCount added_connections 0 [];
  added_connections ←
    (if added_connections =? 0 then
       let doors := if bool_decide (failedByChance ≠ []) then failedByChance
                    else connections in
       rand ← randBetween 0 (Z.of_nat (length doors) - 1);
       r ← pick doors rand;
       tileOf r;; (* the debug message reads [door.x] and [door.y] *)
       markDoor r;;
       mret (added_connections + 1)
     else mret added_connections);
  (if added_connections =? 0 then
     modify (λ d, set_errorLog (errorLog d ++ ["Failed to add doors to region"]) d)
   else mret tt);;
  mret added_connections.

(** [connectRegions()]. *)
Definition connectRegions : M unit :=
  m ← get tiles;
  forEach (snd <$> regionConnections m) (λ connections,
    connectBucket connections;; mret tt).

(** *** removeDeadEnds *)

(** Lines 467-479: the body of the inner loop of [cycle] on the tile behind
    [r], with the flag [done]. *)
Definition cycleTile (done : bool) (r : Ref) : M bool :=
  a ← tileOf r;
  if bool_decide (Tile.type a = wall) then mret done
  else
    m ← get tiles;
    rs ← get rooms;
    if (Z.of_nat (length (notType wall (cardinal m a))) <=? 1)
       && negb (existsb (λ rm, containsTile rm (Tile.x a) (Tile.y a)) rs)
    then resetTile (Tile.x a) (Tile.y a);; mret false
    else mret done.

(** [cycle()]. *)
Definition cycle : M bool :=
  m ← get tiles;
  foldM cycleTile true (allRefs m).

(** [while (!done) { done = true; done = cycle() }]; the loop has no bound of
    its own, so the model carries a budget of passes. *)
Fixpoint removeDeadEndsLoop (budget : nat) : M unit :=
  match budget with
  | O => timeout
  | S k =>
      done ← cycle;
      if done : bool then mret tt else removeDeadEndsLoop k
  end.

Definition removeDeadEnds (budget : nat) : M unit :=
  removeDeadEndsLoop budget.

(** *** build *)

(** Lines 217-226 of [build]: "Fill in all the empty space with mazes". *)
Definition fillMazes : M unit :=
  st ← getSome stage "this.stage is undefined";
  forEach (oddRange (height st)) (λ y,
    forEach (oddRange (width st)) (λ x,
      a ← getTile x y;
      if bool_decide (Tile.type a = floor) then mret tt
      else growMaze x y)).

(** [build(stage)]; [slug] is the value that [$chance.generateSlug()] has in
    store, [budget] the pass budget of [removeDeadEnds]. *)
Definition build (slug : string) (budget : nat) (s : StageInput) : M Results :=
  let st := mkStage (default 5 (in_width s)) (default 5 (in_height s)) (in_seed s) in
  validate slug st;;
  fill wall;;
  addRooms;;
  fillMazes;;
  connectRegions;;
  o ← get options;
  (if removeDeadEndsOpt o then removeDeadEnds budget else mret tt);;
  d ← get id;
  mret (mkResults (rooms d) (tiles d) (seed d)).

End Pipeline.

(** ** Instances of the missing modules, for running the pipeline *)

(** [Array.prototype.toString] of [[x, y]] and [Object.prototype.toString]
    of a plain object, the renderings that ECMAScript gives to values without
    a [toString] of their own. *)
Definition Array_toString (a : PointArray) : string :=
  pretty a.1 +:+ "," +:+ pretty a.2.

Definition Object_toString (p : Point) : string := "[object Object]".

(** A [Point] rendered like the array with the same coordinates. *)
Definition Point_toString_xy (p : Point) : string :=
  Array_toString (pt_x p, pt_y p).

(** Modelled from the spec: Room.ts is missing; "touches(a,b) is true when the
    rectangles inflated by 1 on every side intersect, i.e. there is no 1-wide
    wall between them". *)
Definition Room_touches (a b : Room) : bool :=
  (room_x a - 1 <? room_x b + room_width b) &&
  (room_x b <? room_x a + room_width a + 1) &&
  (room_y a - 1 <? room_y b + room_height b) &&
  (room_y b <? room_y a + room_height a + 1).

(** Modelled from the spec: Room.ts is missing; the "containment test" of an
    axis-aligned rectangle. *)
Definition Room_containsTile (r : Room) (x y : Z) : bool :=
  (room_x r <=? x) && (x <? room_x r + room_width r) &&
  (room_y r <=? y) && (y <? room_y r + room_height r).

(** Modelled from the spec: Query.ts is missing; the "distinct region ids
    (other than -1)" among the "cardinal neighbors at level 1". *)
Definition Query_tileRegions (m : TileMatrix) (a : Tile.t) : list Z :=
  remove_dups (filter (λ r, r ≠ -1) (Tile.region <$> cardinal m a)).

(** The collaborators with a given seeding and given renderings. *)
Definition collaborators (streamOf : Seed → nat → Z)
    (showPoint : Point → string) : Collaborators :=
  {| Chance_stream := streamOf;
     Point_toString := showPoint;
     PointArray_toString := Array_toString;
     touches := Room_touches;
     containsTile := Room_containsTile;
     tileRegions := Query_tileRegions |}.

(** A seeding for examples: the raw values listed for the seed, then zeros. *)
Definition scripted (raw : list Z) : Seed → nat → Z :=
  λ _ k, default 0 (raw !! k).

(** A seeding for examples that depends on the seed: every raw value is the
    length of the seed string, or the seed number. *)
Definition bySeed (sd : Seed) (k : nat) : Z :=
  match sd with
  | SeedAbsent => 0
  | SeedNumber z => z
  | SeedString s => Z.of_nat (String.length s)
  end.

(** The collaborators with the draws scripted and the ECMAScript renderings. *)
Definition example (raw : list Z) : Collaborators :=
  collaborators (scripted raw) Object_toString.

(** ** Vocabulary of the properties *)

(** *** Runs *)

(** The state and the value of a run that returned. *)
Definition stateOf {A} (r : Res (A * Dungeon)) : option Dungeon :=
  match r with Ok (_, d) => Some d | _ => None end.

Definition valueOf {A} (r : Res (A * Dungeon)) : option A :=
  match r with Ok (a, _) => Some a | _ => None end.

(** The state after running [c] from [d] ([d] itself if [c] does not return). *)
Definition after {A} (c : M A) (d : Dungeon) : Dungeon :=
  default d (stateOf (c d)).

(** The stages of [build] that run before [removeDeadEnds]. *)
Definition beforeRemoveDeadEnds `{Collaborators} (slug : string)
    (st : StageOptions) : M unit :=
  validate slug st;; fill wall;; addRooms;; fillMazes;; connectRegions.

(** *** What a method leaves alone *)

(** Every field but [tiles] is the same. *)
Definition tilesOnly (d d' : Dungeon) : Prop :=
  options d' = options d ∧ stage d' = stage d ∧ rng d' = rng d ∧
  rooms d' = rooms d ∧ region d' = region d ∧ seed d' = seed d ∧
  nextRegionId d' = nextRegionId d ∧ errorLog d' = errorLog d.

(** The matrix has the same tile objects at the same places, each related to
    its earlier state by [P]. *)
Definition matrixRel (P : Tile.t → Tile.t → Prop) (m m' : TileMatrix) : Prop :=
  length m' = length m ∧
  ∀ i j, match tileAt m i j with
         | Some a => ∃ a', tileAt m' i j = Some a' ∧ P a a'
         | None => tileAt m' i j = None
         end.

(** The fields of a tile that no stage after [fill] writes. *)
Definition coordsKept (a a' : Tile.t) : Prop :=
  Tile.x a' = Tile.x a ∧ Tile.y a' = Tile.y a ∧
  Tile.neighbors a' = Tile.neighbors a.

(** A step that writes tiles only, and of them neither coordinates nor links. *)
Definition tilesStep (d d' : Dungeon) : Prop :=
  tilesOnly d d' ∧ matrixRel coordsKept (tiles d) (tiles d').

(** What the second pair of loops of [fill] may do to a tile: replace its
    links. *)
Definition linksOnly (a a' : Tile.t) : Prop :=
  Tile.type a' = Tile.type a ∧ Tile.x a' = Tile.x a ∧ Tile.y a' = Tile.y a ∧
  Tile.region a' = Tile.region a ∧ Tile.regionType a' = Tile.regionType a.

(** What every stage of [build] after [fill] keeps: the tile objects with
    their coordinates and links, the rooms found so far, the options and the
    stage. *)
Definition pipelineStep (d d' : Dungeon) : Prop :=
  matrixRel coordsKept (tiles d) (tiles d') ∧
  rooms d `prefix_of` rooms d' ∧
  options d' = options d ∧ stage d' = stage d.

(** One draw more for each entry of [rs], over these ranges in this order. *)
Definition drew (rs : list (Z * Z)) (d d' : Dungeon) : Prop :=
  ∃ c, rng d = Some c ∧
       rng d' = Some (mkChance (stream c) (cursor c + length rs) (calls c ++ rs)).

(** *** validate, addRooms and fill *)

(** "Raise each even input dimension to the next odd number". *)
Definition nextOdd (n : Z) : Z := if Z.even n then n + 1 else n.

(** The ranges of the five draws of one attempt, in order, for a candidate
    of size [size] that came out as [r]. *)
Definition attemptRanges (o : DungeonOptions) (st : StageOptions) (size : Z)
    (r : Room) : list (Z * Z) :=
  [ (1, 3 + roomExtraSize o);                      (* size *)
    (0, 1 + size `div` 2);                         (* rectangularity *)
    (1, 2);                                        (* axis bit *)
    (0, (width st - room_width r) `div` 2);        (* x *)
    (0, (height st - room_height r) `div` 2) ].    (* y *)

(** The tiles that one round of the outer loop of [fill] pushes onto column
    [x]. *)
Definition freshColumn (ty : TileType) (x h : Z) : list Tile.t :=
  (λ y, Tile.new ty x y) <$> range 0 h.

(** The matrix after the first pair of loops of [fill], in closed form: [w]
    empty columns are appended, and each of the columns 0..w-1 of the result
    is extended by its fresh tiles. *)
Definition allocated (ty : TileType) (w : nat) (h : Z) (m : TileMatrix)
    : TileMatrix :=
  imap (λ i col, if (i <? w)%nat then col ++ freshColumn ty (Z.of_nat i) h else col)
       (m ++ replicate w []).

(** *** connectRegions *)

(** What [door.type = 'door'] may do to a tile: nothing but set its type to
    door. *)
Definition typeToDoor (a a' : Tile.t) : Prop :=
  coordsKept a a' ∧ Tile.region a' = Tile.region a ∧
  Tile.regionType a' = Tile.regionType a ∧
  (Tile.type a' = Tile.type a ∨ Tile.type a' = door).

(** The matrix after doors were put on tiles referenced in [refs] only. *)
Definition doorsAdded (refs : list Ref) (m m' : TileMatrix) : Prop :=
  length m' = length m ∧
  ∀ i j, match tileAt m i j with
         | Some a => ∃ a', tileAt m' i j = Some a' ∧ typeToDoor a a' ∧
                           (Tile.type a' = Tile.type a ∨ (i, j) ∈ refs)
         | None => tileAt m' i j = None
         end.

(** Some tile referenced in [refs] is a door. *)
Definition hasDoor (m : TileMatrix) (refs : list Ref) : Prop :=
  ∃ r a, r ∈ refs ∧ tileAt m r.1 r.2 = Some a ∧ Tile.type a = door.

(** A step of [connectRegions]: doors on tiles of [refs], draws, and nothing
    else. *)
Definition doorStep (refs : list Ref) (d d' : Dungeon) : Prop :=
  doorsAdded refs (tiles d) (tiles d') ∧
  options d' = options d ∧ stage d' = stage d ∧ rooms d' = rooms d ∧
  region d' = region d ∧ seed d' = seed d ∧
  nextRegionId d' = nextRegionId d ∧ errorLog d' = errorLog d ∧
  (is_Some (rng d) → is_Some (rng d')).

(** All the tiles held in the buckets. *)
Definition connectors (buckets : list (string * list Ref)) : list Ref :=
  mjoin (snd <$> buckets).

(** The tiles referenced in [refs] exist. *)
Definition validRefs (m : TileMatrix) (refs : list Ref) : Prop :=
  ∀ r, r ∈ refs → is_Some (tileAt m r.1 r.2).

(** *** removeDeadEnds *)

(** "There is one canonical tile per coordinate": the tile stored as
    [tiles[i][j]] has [x = i] and [y = j], as after [fill] on a new instance. *)
Definition coordsMatch (m : TileMatrix) : Prop :=
  ∀ i j a, tileAt m i j = Some a → Tile.x a = i ∧ Tile.y a = j.

(** A checker for [coordsMatch]. *)
Definition coordsMatchb (m : TileMatrix) : bool :=
  forallb (λ r : Ref,
             match tileAt m r.1 r.2 with
             | Some a => (Tile.x a =? r.1) && (Tile.y a =? r.2)
             | None => true
             end)
          (allRefs m).

(** The number of tiles that satisfy [p]. *)
Definition countTiles (p : Tile.t → bool) (m : TileMatrix) : nat :=
  sum_list_with (sum_list_with (λ a, if p a then 1%nat else 0%nat)) m.

Definition wallCount (m : TileMatrix) : nat := countTiles Tile.isWall m.

Definition tileCount (m : TileMatrix) : nat := countTiles (λ _, true) m.

(** The condition of lines 471-474 on a tile: at most one cardinal neighbour
    that is not a wall, and no room that contains the tile. *)
Definition deadEnd `{Collaborators} (d : Dungeon) (a : Tile.t) : bool :=
  (Z.of_nat (length (notType wall (cardinal (tiles d) a))) <=? 1)
  && negb (existsb (λ rm, containsTile rm (Tile.x a) (Tile.y a)) (rooms d)).

(** ** Instances and stages for the examples *)

Definition defaultOptions : DungeonOptionsInput :=
  mkOptionsInput None None None None None None None.

Definition withMultiplier (v : Z) : DungeonOptionsInput :=
  mkOptionsInput None None None None None (Some v) None.

(** No room attempts, and [windingPercent = v]. *)
Definition withWinding (v : Z) : DungeonOptionsInput :=
  mkOptionsInput None None (Some 0) None (Some v) None None.

Definition withRoomTries (v : Z) : DungeonOptionsInput :=
  mkOptionsInput None None (Some v) None None None None.

(** Two room attempts, and [removeDeadEnds] set. *)
Definition pruning : DungeonOptionsInput :=
  mkOptionsInput None None (Some 2) None None None (Some true).

(** A new instance with its stage validated and filled with walls. *)
Definition filled (env : Collaborators) (w h : Z) (o : DungeonOptionsInput)
    : Dungeon :=
  after (validate (H := env) "slug" (mkStage w h (SeedString "s1"));; fill wall)
        (Dungeon_new o).

(** A stage carved up to the point where [connectRegions] starts. *)
Definition carved (env : Collaborators) (w h : Z) (o : DungeonOptionsInput)
    : Dungeon :=
  after (addRooms (H := env);; fillMazes (H := env)) (filled env w h o).

(** Two rounds of [growMaze]'s loop on a 7 by 7 stage of walls, started at
    (1,3) with [windingPercent = wp]: the first round carves east to (3,3);
    from there north, east and south can be carved; the second round goes
    [second]. *)
Definition twoRounds (showPoint : Point → string) (wp : Z) (raw : list Z)
    (second : Point) : Prop :=
  let env := collaborators (scripted raw) showPoint in
  let east := mkPoint 1 0 in
  let d0 := filled env 7 7 (withWinding wp) in
  let d1 := after (startRegion corridor;; setTile 1 3 (Some floor)) d0 in
  let d2 := after (growStep (H := env) [mkPoint 1 3] None) d1 in
  valueOf (growStep (H := env) [mkPoint 1 3] None d1)
    = Some ([mkPoint 1 3; mkPoint 3 3], Some east) ∧
  valueOf (unmade (mkPoint 3 3) d2) = Some [(0, -1); (1, 0); (0, 1)] ∧
  valueOf (growStep (H := env) [mkPoint 1 3; mkPoint 3 3] (Some east) d2)
    = Some ([mkPoint 1 3; mkPoint 3 3;
             mkPoint (3 + pt_x second * 2) (3 + pt_y second * 2)], Some second).

(** Draws that give a 9 by 9 stage two rooms and a maze with dead ends, and
    that stage after [connectRegions]. *)
Definition mazeDraws : list Z :=
  [0; 0; 0; 0; 0; 0; 0; 0; 3; 3; 2; 1; 0; 2; 1; 0; 1; 1; 2; 0; 1; 2; 0; 1; 1;
   0; 2; 1; 2; 2; 0; 1].

Definition connected : Dungeon :=
  after (connectRegions (H := example mazeDraws))
        (carved (example mazeDraws) 9 9 (withRoomTries 2)).

(** An instance after one and after two calls of [build] for a 5 by 5 stage. *)
Definition stage5 : StageInput := mkStageInput (Some 5) (Some 5) (SeedString "s1").

Definition builtOnce : Dungeon :=
  after (build (H := example []) "slug" 0 stage5) (Dungeon_new defaultOptions).

Definition builtTwice : Dungeon :=
  after (build (H := example []) "slug" 0 stage5) builtOnce.

Definition resultTwice : Results :=
  mkResults (rooms builtTwice) (tiles builtTwice) (seed builtTwice).

(** A used instance: after one [build] for a 9 by 9 stage with the options
    [pruning]; and the states of a second [build] on it when [removeDeadEnds]
    starts and after each of its first passes. *)
Definition stage9 : StageInput := mkStageInput (Some 9) (Some 9) (SeedString "s3").

Definition usedInstance : Dungeon :=
  after (build (H := example mazeDraws) "slug" 60 stage9) (Dungeon_new pruning).

Definition secondRun (passes : nat) : Dungeon :=
  Nat.iter passes (after (cycle (H := example mazeDraws)))
    (after (beforeRemoveDeadEnds (H := example mazeDraws) "slug"
              (mkStage 9 9 (SeedString "s3"))) usedInstance).

(** *** Painting tiles *)

(** The positions that [carveArea(x, y, width, height)] visits, in the order
    of its two loops. *)
Definition rect (x y w h : Z) : list Ref :=
  i ← range x (x + w); (λ j, (i, j)) <$> range y (y + h).

(** The matrix after [setTile(i, j, ty)] on each position of [ps] in turn,
    the current region being [r]. *)
Definition paint (r : Region) (ty : option TileType) (ps : list Ref)
    (m : TileMatrix) : TileMatrix :=
  foldl (λ m p, updTile (assigned r ty) p.1 p.2 m) m ps.

(** A used instance for the examples: a 5 by 5 stage of walls with a region
    started. *)
Definition walled : Dungeon :=
  after (startRegion room) (filled (example []) 5 5 defaultOptions).

(** *** The grid of a stage *)

(** The positions of a stage of [w] by [h] tiles. *)
Definition inGrid (w h i j : Z) : bool :=
  (0 <=? i) && (i <? w) && (0 <=? j) && (j <? h).

(** The link to position [(i, j)], present when the position is on the
    stage. *)
Definition gridLink (w h i j : Z) : option Ref :=
  if inGrid w h i j then Some (i, j) else None.

(** The links of the tile at [(x, y)] to the positions around it that are on
    the stage: north is [y - 1], east is [x + 1]. *)
Definition gridNeighbors (w h x y : Z) : Neighbors :=
  mkNeighbors (gridLink w h x (y - 1)) (gridLink w h (x + 1) (y - 1))
              (gridLink w h (x + 1) y) (gridLink w h (x + 1) (y + 1))
              (gridLink w h x (y + 1)) (gridLink w h (x - 1) (y + 1))
              (gridLink w h (x - 1) y) (gridLink w h (x - 1) (y - 1)).

(** The tile that [fill(ty)] leaves at [(x, y)] of a new instance. *)
Definition gridTile (ty : TileType) (w h x y : Z) : Tile.t :=
  Tile.mk ty (gridNeighbors w h x y) x y (-1) None.

(** The matrix holds a tile exactly at the positions of the stage. *)
Definition isGrid (w h : Z) (m : TileMatrix) : Prop :=
  ∀ i j, is_Some (tileAt m i j) ↔ inGrid w h i j = true.

(** A new instance with the stage [st] validated, before [fill]. *)
Definition validated (st : StageOptions) (o : DungeonOptionsInput) : Dungeon :=
  after (validate (H := example []) "slug" st) (Dungeon_new o).

(** *** Rooms *)

(** A room of positive size that leaves at least one tile of the stage free
    on each of its four sides. *)
Definition insideStage (st : StageOptions) (r : Room) : Prop :=
  1 ≤ room_x r ∧ 1 ≤ room_y r ∧
  1 ≤ room_width r ∧ 1 ≤ room_height r ∧
  room_x r + room_width r < width st ∧
  room_y r + room_height r < height st.

(** A floor tile that belongs to a room. *)
Definition roomFloor (a : Tile.t) : Prop :=
  Tile.type a = floor ∧ Tile.regionType a = Some room.

(** Every position of the room holds a floor of a room. *)
Definition roomCarved (m : TileMatrix) (r : Room) : Prop :=
  ∀ i j, room_x r ≤ i < room_x r + room_width r →
         room_y r ≤ j < room_y r + room_height r →
         ∃ a, tileAt m i j = Some a ∧ roomFloor a.

(** A new instance with a 9 by 9 stage of walls, before the two attempts of
    [addRooms] that the draws [mazeDraws] make succeed. *)
Definition beforeRooms : Dungeon := filled (example mazeDraws) 9 9 (withRoomTries 2).

(** *** What removeDeadEnds may do to a tile *)

(** What a step that only resets tiles keeps: each tile is as before or
    reset, and a tile is reset only where no room contains its position. *)
Definition prunes `{Collaborators} (d d' : Dungeon) : Prop :=
  tilesStep d d' ∧
  (coordsMatch (tiles d) →
   ∀ i j a, tileAt (tiles d) i j = Some a →
     tileAt (tiles d') i j = Some a ∨
     (tileAt (tiles d') i j = Some (cleared a) ∧ Tile.type a ≠ wall ∧
      existsb (λ rm, containsTile rm i j) (rooms d) = false)).

(** *** Connectors *)

(** A checker for a matrix without connectors: no wall of region -1 for which
    the region query returns two regions or more. *)
Definition noConnectorsb `{Collaborators} (m : TileMatrix) : bool :=
  forallb (λ r : Ref,
             match tileAt m r.1 r.2 with
             | Some a =>
                 negb (Tile.isWall a) || negb (Tile.region a =? -1)
                 || (length (tileRegions m a) <=? 1)%nat
             | None => true
             end)
          (allRefs m).

(** *** What carving may do to a tile *)

(** The tile is as before, or it is now a floor of some region, with its
    coordinates and links as before. *)
Definition floored (a a' : Tile.t) : Prop :=
  a' = a ∨
  (Tile.type a' = floor ∧ is_Some (Tile.regionType a') ∧ coordsKept a a').

(** What [addRooms] and the maze stage keep: the seed, the error log, and
    every tile up to [floored]. *)
Definition carves (d d' : Dungeon) : Prop :=
  seed d' = seed d ∧ errorLog d' = errorLog d ∧
  matrixRel floored (tiles d) (tiles d').

(** The kinds of tile that [build] makes: a wall or a door of region -1 and
    no region type, or a floor with a region type. *)
Definition wellKinded (a : Tile.t) : Prop :=
  match Tile.type a with
  | wall | door => Tile.region a = -1 ∧ Tile.regionType a = None
  | floor => is_Some (Tile.regionType a)
  | shaft | stairs => False
  end.

(** *** When build returns *)

(** The renderings of a direction as a [Point] and as a [PointArray] agree:
    among cardinal directions, a point whose rendering is that of some array
    of the list has the coordinates of an array of the list. *)
Definition renderingsAgree `{Collaborators} : Prop :=
  ∀ (p : Point) (l : list PointArray),
    l ⊆ cardinalDirections →
    Point_toString p ∈ PointArray_toString <$> l → (pt_x p, pt_y p) ∈ l.

(** The options with which no draw of [build] has an empty range. *)
Definition drawable (o : DungeonOptions) : Prop :=
  1 ≤ maxDoors o ∧ -2 ≤ roomExtraSize o ∧ 1 ≤ multiplier o.

(** A stage being carved: a generator, and a tile at each position of the
    [w] by [h] grid and nowhere else. *)
Definition carving (w h : Z) (d : Dungeon) : Prop :=
  is_Some (rng d) ∧ isGrid w h (tiles d).

(** *** The buckets of connectRegions *)

(** A connector: a wall of region -1 at [r] for which the region query
    returns two regions or more; its key is the regions joined. *)
Definition connector `{Collaborators} (m : TileMatrix) (r : Ref) (key : string)
    : Prop :=
  ∃ a, tileAt m r.1 r.2 = Some a ∧ Tile.type a = wall ∧ Tile.region a = -1 ∧
       (2 ≤ length (tileRegions m a))%nat ∧ key = regionKey (tileRegions m a).

(** The buckets built so far: distinct keys, and in each bucket, which is not
    empty, connectors with the key of the bucket. *)
Definition keyed `{Collaborators} (m : TileMatrix)
    (acc : list (string * list Ref)) : Prop :=
  NoDup (fst <$> acc) ∧
  ∀ k l, (k, l) ∈ acc → l ≠ [] ∧ ∀ r, r ∈ l → connector m r k.

(** One round of the loop of lines 393-410 of [connectRegions], as in
    [regionConnections]. *)
Definition visit `{Collaborators} (m : TileMatrix)
    (acc : list (string * list Ref)) (r : Ref) : list (string * list Ref) :=
  match tileAt m r.1 r.2 with
  | None => acc
  | Some a =>
      if bool_decide (Tile.type a ≠ wall) || bool_decide (Tile.region a ≠ -1)
      then acc
      else
        let regs := tileRegions m a in
        if Z.of_nat (length regs) <=? 1 then acc
        else addConnection (regionKey regs) r acc
  end.

(** *** The ring of a stage *)

(** The positions at least [k] tiles away from every side of the stage. *)
Definition inZone (k w h i j : Z) : bool :=
  (k <=? i) && (i <? w - k) && (k <=? j) && (j <? h - k).

(** No tile at a position less than [k] tiles away from a side has changed. *)
Definition keepsOutside (k w h : Z) (d d' : Dungeon) : Prop :=
  ∀ i j, inZone k w h i j = false → tileAt (tiles d') i j = tileAt (tiles d) i j.

(** What the query chain of [connectRegions] returns, as far as its names
    tell: distinct ids other than -1, each the region of a cardinal neighbour
    of the tile. *)
Definition regionsOfNeighbours `{Collaborators} : Prop :=
  ∀ m a, NoDup (tileRegions m a) ∧
         ∀ id, id ∈ tileRegions m a →
               id ≠ -1 ∧ ∃ b, b ∈ cardinal m a ∧ Tile.region b = id.

(** *** Tile.toString *)

(** [Tile.toString()]: the coordinates in decimal, with a comma between
    them. *)
Definition Tile_toString (a : Tile.t) : string :=
  pretty (Tile.x a) +:+ "," +:+ pretty (Tile.y a).

(** The string holds a comma. *)
Fixpoint hasComma (s : string) : bool :=
  match s with
  | EmptyString => false
  | String c s' => bool_decide (c = ","%char) || hasComma s'
  end.

(** *** Renumbering the regions *)

(** The id of a region when the counter of the registry starts [k] higher:
    the ids from 0 on move up by [k]; -1, which stands for no region, and
    every other negative number stay. *)
Definition shiftId (k r : Z) : Z := if r <? 0 then r else r + k.

Definition shiftTile (k : Z) (a : Tile.t) : Tile.t :=
  Tile.set_region (shiftId k (Tile.region a)) a.

Definition shiftRegion (k : Z) (r : Region) : Region :=
  mkRegion (shiftId k (region_id r)) (region_type r).

Definition shiftMatrix (k : Z) (m : TileMatrix) : TileMatrix :=
  (λ col : list Tile.t, shiftTile k <$> col) <$> m.

Definition shiftResults (k : Z) (r : Results) : Results :=
  mkResults (res_rooms r) (shiftMatrix k (res_tiles r)) (res_seed r).

(** The instance with its regions renumbered: the tiles, the current region
    and the counter. *)
Definition shiftDungeon (k : Z) (d : Dungeon) : Dungeon :=
  mkDungeon (options d) (stage d) (rng d) (rooms d) (shiftRegion k <$> region d)
            (shiftMatrix k (tiles d)) (seed d) (nextRegionId d + k) (errorLog d).

(** [d2] is in the state of [d1] with the regions renumbered, but for the
    fields that [validate] overwrites ([stage], [rng], [seed]). *)
Definition renumbered (k : Z) (d1 d2 : Dungeon) : Prop :=
  options d2 = options d1 ∧ rooms d2 = rooms d1 ∧
  region d2 = shiftRegion k <$> region d1 ∧
  tiles d2 = shiftMatrix k (tiles d1) ∧
  nextRegionId d2 = nextRegionId d1 + k ∧
  errorLog d2 = errorLog d1.

(** The outcome of a run with the regions renumbered in the value and in the
    state; exceptions and the exhausted budget are as they were. *)
Definition relabelled {A} (f : A → A) (k : Z) (r : Res (A * Dungeon))
    : Res (A * Dungeon) :=
  match r with
  | Ok (a, d) => Ok (f a, shiftDungeon k d)
  | Throw e => Throw e
  | Timeout => Timeout
  end.

(** The region query looks at the ids only to compare them with each other
    and with -1: on a renumbered matrix it returns the renumbered ids. *)
Definition queryRenumbers `{Collaborators} : Prop :=
  ∀ k m a, 0 ≤ k →
    tileRegions (shiftMatrix k m) (shiftTile k a) = shiftId k <$> tileRegions m a.

(** Running [c2] on the renumbered instance gives the renumbered outcome of
    [c1], for an instance whose counter is not negative, and [c1] keeps the
    counter so. *)
Definition agrees {A} (k : Z) (f : A → A) (c1 c2 : M A) (d : Dungeon) : Prop :=
  0 ≤ nextRegionId d →
  c2 (shiftDungeon k d) = relabelled f k (c1 d) ∧
  ∀ a d', c1 d = Ok (a, d') → 0 ≤ nextRegionId d'.

(** The buckets of the run on the renumbered matrix: the same tiles in the
    same order, each bucket under the key of the renumbered ids. *)
Definition sameBuckets (k : Z) (acc1 acc2 : list (string * list Ref)) : Prop :=
  Forall2 (λ e1 e2 : string * list Ref,
             e2.2 = e1.2 ∧
             ∃ regs, e1.1 = regionKey regs ∧ e2.1 = regionKey (shiftId k <$> regs))
          acc1 acc2.

(** A new instance whose registry has handed out [n] ids before. *)
Definition Dungeon_from (n : Z) (o : DungeonOptionsInput) : Dungeon :=
  set_nextRegionId n (Dungeon_new o).

(** The string holds a minus sign. *)
Fixpoint hasDash (s : string) : bool :=
  match s with
  | EmptyString => false
  | String c s' => bool_decide (c = "-"%char) || hasDash s'
  end.

(** * Properties *)

(** ** Reasoning in the monad *)

Lemma bind_Ok {A B} (c : M A) (f : A → M B) d b d'' :
  (c ≫= f) d = Ok (b, d'') ↔ ∃ a d', c d = Ok (a, d') ∧ f a d' = Ok (b, d'').
Proof.
  unfold mbind, M_bind. split.
  - destruct (c d) as [[a d']| |]; [eauto|done..].
  - intros (a & d' & -> & ?). done.
Qed.

Lemma bind_run {A B} (c : M A) (f : A → M B) d :
  (c ≫= f) d = match c d with
               | Ok (a, d') => f a d'
               | Throw e => Throw e
               | Timeout => Timeout
               end.
Proof. done. Qed.

Lemma ret_Ok {A} (a b : A) d d' : (mret a : M A) d = Ok (b, d') ↔ a = b ∧ d = d'.
Proof. unfold mret, M_ret. naive_solver. Qed.

Lemma get_Ok {A} (f : Dungeon → A) d a d' : get f d = Ok (a, d') ↔ a = f d ∧ d' = d.
Proof. unfold get. naive_solver. Qed.

Lemma modify_Ok f d u d' : modify f d = Ok (u, d') ↔ d' = f d.
Proof. unfold modify. destruct u. naive_solver. Qed.

Lemma getSome_Ok {A} (f : Dungeon → option A) what d a d' :
  getSome f what d = Ok (a, d') ↔ f d = Some a ∧ d' = d.
Proof. unfold getSome. destruct (f d); naive_solver. Qed.

(** ** Basic methods *)

Lemma randBetween_Ok lo hi d v d' :
  randBetween lo hi d = Ok (v, d') ↔
  ∃ c, rng d = Some c ∧ lo ≤ hi ∧
       v = lo + stream c (cursor c) `mod` (hi - lo + 1) ∧
       d' = set_rng (Some (mkChance (stream c) (S (cursor c))
                                    (calls c ++ [(lo, hi)]))) d.
Proof.
  unfold randBetween, Chance_integer. destruct (rng d) as [c|].
  - destruct (hi <? lo) eqn:E.
    + apply Z.ltb_lt in E. split; [done|]. intros (? & ? & ? & _). lia.
    + apply Z.ltb_ge in E. split.
      * intros [= <- <-]. eauto.
      * intros (c' & [= <-] & _ & -> & ->). done.
  - split; [done|]. intros (? & ? & _). done.
Qed.

Lemma randBetween_range lo hi d v d' :
  randBetween lo hi d = Ok (v, d') → lo ≤ v ≤ hi.
Proof.
  intros (c & _ & Hle & -> & _)%randBetween_Ok.
  pose proof (Z.mod_pos_bound (stream c (cursor c)) (hi - lo + 1)). lia.
Qed.

Lemma randBetween_drew lo hi d v d' :
  randBetween lo hi d = Ok (v, d') →
  drew [(lo, hi)] d d' ∧ set_rng (rng d) d' = d.
Proof.
  intros (c & Hc & _ & _ & ->)%randBetween_Ok. split.
  - exists c. split; [done|]. simpl. do 2 f_equal. lia.
  - destruct d; simpl in *. by subst.
Qed.

Lemma drew_app rs1 rs2 d1 d2 d3 :
  drew rs1 d1 d2 → drew rs2 d2 d3 → drew (rs1 ++ rs2) d1 d3.
Proof.
  intros (c & Hc & H2) (c' & Hc' & H3). exists c. split; [done|].
  rewrite H2 in Hc'. injection Hc' as <-. rewrite H3. simpl.
  rewrite length_app, <- app_assoc. do 2 f_equal. lia.
Qed.

Lemma oneIn_Ok num d b d' :
  oneIn num d = Ok (b, d') → ∃ v, randBetween 1 num d = Ok (v, d') ∧ b = (v =? 1).
Proof.
  unfold oneIn. intros (v & d1 & Hv & Hr)%bind_Ok.
  apply ret_Ok in Hr as [<- <-]. eauto.
Qed.

Lemma getTile_Ok x y d a d' :
  getTile x y d = Ok (a, d') ↔ tileAt (tiles d) x y = Some a ∧ d' = d.
Proof. unfold getTile. destruct (tileAt _ _ _); naive_solver. Qed.

Lemma tileOf_Ok r d a d' :
  tileOf r d = Ok (a, d') ↔ tileAt (tiles d) r.1 r.2 = Some a ∧ d' = d.
Proof. unfold tileOf. destruct (tileAt _ _ _); naive_solver. Qed.

Lemma startRegion_Ok ty d r d' :
  startRegion ty d = Ok (r, d') ↔
  r = mkRegion (nextRegionId d) ty ∧
  d' = set_region (Some r) (set_nextRegionId (nextRegionId d + 1) d).
Proof.
  unfold startRegion, Region_new, mbind, M_bind, modify, mret, M_ret. simpl.
  naive_solver.
Qed.

(** Splits a successful run of a sequence of steps into its steps. *)
Ltac run_inv :=
  repeat match goal with
  | H : (_ ≫= _) _ = Ok _ |- _ =>
      apply bind_Ok in H; destruct H as (? & ? & ? & H)
  | H : @mret M _ _ _ _ = Ok _ |- _ => apply ret_Ok in H; destruct H; simplify_eq
  | H : get _ _ = Ok _ |- _ => apply get_Ok in H; destruct H; subst
  | H : modify _ _ = Ok _ |- _ => apply modify_Ok in H; subst
  | H : getSome _ _ _ = Ok _ |- _ => apply getSome_Ok in H; destruct H; subst
  | H : getTile _ _ _ = Ok _ |- _ => apply getTile_Ok in H; destruct H; subst
  | H : tileOf _ _ = Ok _ |- _ => apply tileOf_Ok in H; destruct H; subst
  | H : startRegion _ _ = Ok _ |- _ => apply startRegion_Ok in H; destruct H; subst
  | H : throw _ _ = Ok _ |- _ => discriminate H
  | H : timeout _ = Ok _ |- _ => discriminate H
  end.

(** ** Tile.isCorner *)

Lemma floorAt_presentFloor m r : floorAt m r = true ↔ presentFloor m r.
Proof.
  unfold floorAt, presentFloor, Tile.isFloor. destruct (deref m r) as [b|].
  - rewrite bool_decide_eq_true. naive_solver.
  - naive_solver.
Qed.

(** C8: [isCorner()] is true if and only if exactly one of the four quadrant
    pairs (n,e), (n,w), (s,e), (s,w) has both members present and of type
    floor. *)
Theorem isCorner_iff_exactly_one_quadrant (m : TileMatrix) (a : Tile.t) :
  isCorner m a = true ↔ exactlyOneQuadrant m a.
Proof.
  unfold exactlyOneQuadrant, quadrant, isCorner.
  rewrite <- !floorAt_presentFloor.
  destruct (floorAt m (nb_n _)), (floorAt m (nb_e _)),
           (floorAt m (nb_s _)), (floorAt m (nb_w _)); cbn; split;
    try discriminate; try tauto; intros _; intuition congruence.
Qed.

(** ** The tile matrix *)

Lemma tileAt_Some m i j a :
  tileAt m i j = Some a ↔
  0 ≤ i ∧ 0 ≤ j ∧ ∃ col, m !! Z.to_nat i = Some col ∧ col !! Z.to_nat j = Some a.
Proof.
  unfold tileAt. destruct (0 <=? i) eqn:Hi, (0 <=? j) eqn:Hj; simpl;
    try (split; [done | lia]).
  apply Z.leb_le in Hi, Hj. rewrite bind_Some. naive_solver.
Qed.

Lemma tileAt_neg m i j : ¬ (0 ≤ i ∧ 0 ≤ j) → tileAt m i j = None.
Proof.
  intros Hn. destruct (tileAt m i j) eqn:E; [|done].
  apply tileAt_Some in E. tauto.
Qed.

Lemma tileAt_nat m i j :
  0 ≤ i → 0 ≤ j → tileAt m i j = m !! Z.to_nat i ≫= (.!! Z.to_nat j).
Proof.
  intros Hi Hj. unfold tileAt.
  apply Z.leb_le in Hi, Hj. by rewrite Hi, Hj.
Qed.

Lemma tileAt_updTile f i j m i' j' :
  tileAt (updTile f i j m) i' j' =
  if decide (i = i' ∧ j = j') then f <$> tileAt m i j else tileAt m i' j'.
Proof.
  destruct (decide (0 ≤ i ∧ 0 ≤ j)) as [[Hi Hj]|Hn].
  - unfold updTile. apply Z.leb_le in Hi as Hi', Hj as Hj'.
    rewrite Hi', Hj'. simpl.
    destruct (decide (0 ≤ i' ∧ 0 ≤ j')) as [[Hi2 Hj2]|Hn2].
    + rewrite !tileAt_nat by done. rewrite list_lookup_alter.
      destruct (decide (Z.to_nat i = Z.to_nat i')) as [e|ne].
      * assert (i = i') by lia. subst i'.
        destruct (m !! Z.to_nat i) as [col|]; simpl.
        -- rewrite list_lookup_alter.
           destruct (decide (Z.to_nat j = Z.to_nat j')) as [e'|ne'].
           ++ assert (j = j') by lia. subst. by rewrite decide_True.
           ++ rewrite decide_False; [done|]. intros [_ ->]. done.
        -- by case_decide.
      * rewrite decide_False; [done|]. intros [-> _]. done.
    + rewrite decide_False by (intros [-> ->]; tauto).
      by rewrite !tileAt_neg.
  - assert (updTile f i j m = m) as ->.
    { unfold updTile. destruct (0 <=? i) eqn:Hi, (0 <=? j) eqn:Hj; simpl; try done.
      apply Z.leb_le in Hi, Hj. tauto. }
    case_decide as Hd; [|done]. destruct Hd; subst.
    by rewrite tileAt_neg.
Qed.

Lemma length_updTile f i j m : length (updTile f i j m) = length m.
Proof. unfold updTile. case_match; [apply length_alter|done]. Qed.

(** ** validate *)

Lemma rem2_even n : (Z.rem n 2 =? 0) = Z.even n.
Proof.
  destruct (Z.even n) eqn:E.
  - apply Z.eqb_eq. apply Z.even_spec in E as [k ->].
    rewrite Z.mul_comm. apply Z.rem_mul. lia.
  - apply Z.eqb_neq. intros Hr.
    assert (Z.even n = true); [|congruence].
    apply Z.even_spec. exists (Z.quot n 2).
    pose proof (Z.quot_rem' n 2). lia.
Qed.

Lemma Dungeon_new_multiplier o : 1 ≤ multiplier (options (Dungeon_new o)).
Proof.
  unfold Dungeon_new; simpl. destruct (in_multiplier o) as [v|]; [|lia].
  destruct (0 <? v) eqn:E; [apply Z.ltb_lt in E|]; lia.
Qed.

Section Validate.
Context `{Collaborators}.

Lemma validate_Ok slug st d u d' :
  validate slug st d = Ok (u, d') →
  5 ≤ width st ∧ 5 ≤ height st ∧
  stage d' = Some (mkStage (nextOdd (width st) * multiplier (options d))
                           (nextOdd (height st) * multiplier (options d))
                           (stage_seed st)) ∧
  options d' = options d ∧ tiles d' = tiles d ∧ rooms d' = rooms d ∧
  nextRegionId d' = nextRegionId d ∧ region d' = region d ∧
  errorLog d' = errorLog d.
Proof.
  unfold validate, nextOdd.
  destruct (width st <? 5) eqn:Hw; [done|].
  destruct (height st <? 5) eqn:Hh; [done|].
  apply Z.ltb_ge in Hw, Hh. intros Hv. run_inv.
  rewrite !rem2_even. simpl. done.
Qed.

(** C2, as the code has it: for every stage that passes validation and every
    multiplier option, the effective dimensions are the odd-raised inputs
    times the coerced multiplier; they are at least 5, and they are odd
    exactly when the multiplier is odd. *)
Theorem validate_effective_dimensions (o : DungeonOptionsInput) (slug : string)
    (st : StageOptions) (d' : Dungeon) :
  validate slug st (Dungeon_new o) = Ok (tt, d') →
  ∃ st', stage d' = Some st' ∧
    let mult := multiplier (options (Dungeon_new o)) in
    1 ≤ mult ∧
    width st' = nextOdd (width st) * mult ∧
    height st' = nextOdd (height st) * mult ∧
    5 ≤ width st' ∧ 5 ≤ height st' ∧
    Z.odd (width st') = Z.odd mult ∧ Z.odd (height st') = Z.odd mult.
Proof.
  intros Hv. apply validate_Ok in Hv as (Hw & Hh & Hst & _).
  eexists. split; [exact Hst|]. cbv zeta. cbn [width height].
  pose proof (Dungeon_new_multiplier o) as Hm.
  assert (Hodd : ∀ n, Z.odd (nextOdd n) = true).
  { intros n. unfold nextOdd. destruct (Z.even n) eqn:E.
    - rewrite Z.odd_add. rewrite <- Z.negb_even, E. done.
    - rewrite <- Z.negb_even, E. done. }
  assert (Hge : ∀ n, n ≤ nextOdd n).
  { intros n. unfold nextOdd. destruct (Z.even n); lia. }
  pose proof (Hge (width st)). pose proof (Hge (height st)).
  repeat split; try done; try nia.
  - by rewrite Z.odd_mul, Hodd.
  - by rewrite Z.odd_mul, Hodd.
Qed.

End Validate.

Lemma validate_effective_dimensions_witness :
  ∃ st', stage (set_stage (Some (mkStage 7 5 (SeedString "s1")))
                 (set_seed (SeedString "s1")
                   (set_rng (Some (mkChance (scripted [] (SeedString "s1")) 0 []))
                      (Dungeon_new defaultOptions)))) = Some st' ∧
    1 ≤ 1 ∧ width st' = nextOdd 6 * 1 ∧ height st' = nextOdd 5 * 1 ∧
    5 ≤ width st' ∧ 5 ≤ height st' ∧
    Z.odd (width st') = Z.odd 1 ∧ Z.odd (height st') = Z.odd 1.
Proof.
  apply (validate_effective_dimensions
           (H := collaborators (scripted []) Object_toString)
           defaultOptions "slug" (mkStage 6 5 (SeedString "s1"))).
  reflexivity.
Defined.

(** C2 as stated fails: with [multiplier = 2] a valid 5 by 5 stage becomes
    10 by 10. *)
Lemma validate_even_dimensions_counterexample :
  stateOf (validate (H := collaborators (scripted []) Object_toString) "slug"
             (mkStage 5 5 (SeedString "s1")) (Dungeon_new (withMultiplier 2)))
    ≫= stage
  = Some (mkStage 10 10 (SeedString "s1")) ∧
  Z.odd 10 = false.
Proof. split; reflexivity. Qed.

(** ** What the methods leave alone *)

Global Instance tilesOnly_refl : Reflexive tilesOnly.
Proof. by intros d. Qed.
Global Instance tilesOnly_trans : Transitive tilesOnly.
Proof. unfold tilesOnly. intros d1 d2 d3 ??. naive_solver congruence. Qed.

Global Instance matrixRel_refl P : Reflexive P → Reflexive (matrixRel P).
Proof. intros HP m. split; [done|]. intros i j. destruct (tileAt m i j); eauto. Qed.
Global Instance matrixRel_trans P : Transitive P → Transitive (matrixRel P).
Proof.
  intros HP m1 m2 m3 [Hl1 H1] [Hl2 H2]. split; [congruence|]. intros i j.
  specialize (H1 i j). specialize (H2 i j). destruct (tileAt m1 i j) as [a|].
  - destruct H1 as (a' & Ha' & HPa). rewrite Ha' in H2.
    destruct H2 as (a'' & Ha'' & HPa'). eauto.
  - by rewrite H1 in H2.
Qed.

Global Instance coordsKept_refl : Reflexive coordsKept.
Proof. by intros a. Qed.
Global Instance coordsKept_trans : Transitive coordsKept.
Proof. unfold coordsKept. intros a1 a2 a3 ??. naive_solver congruence. Qed.

Lemma matrixRel_updTile (P : Tile.t → Tile.t → Prop) f i j m :
  Reflexive P → (∀ a, tileAt m i j = Some a → P a (f a)) →
  matrixRel P m (updTile f i j m).
Proof.
  intros HP Hf. split; [apply length_updTile|]. intros i' j'.
  rewrite tileAt_updTile. case_decide as Hd.
  - destruct Hd; subst. destruct (tileAt m i' j') eqn:E; simpl; eauto.
  - destruct (tileAt m i' j'); eauto.
Qed.

Lemma matrixRel_mono (P Q : Tile.t → Tile.t → Prop) m m' :
  (∀ a a', P a a' → Q a a') → matrixRel P m m' → matrixRel Q m m'.
Proof.
  intros HPQ [Hl Hm]. split; [done|]. intros i j. specialize (Hm i j).
  destruct (tileAt m i j); naive_solver.
Qed.

(** A loop keeps what each round keeps. *)
Lemma forEach_rel {A} (R : Dungeon → Dungeon → Prop) (l : list A) body :
  Reflexive R → Transitive R →
  (∀ v d u d', v ∈ l → body v d = Ok (u, d') → R d d') →
  ∀ d u d', forEach l body d = Ok (u, d') → R d d'.
Proof.
  intros HR HT. induction l as [|v l IH]; simpl; intros Hb d u d' Hrun.
  - run_inv. done.
  - run_inv. etrans.
    + eapply Hb; [|done]. left.
    + eapply IH; [|done]. intros. eapply Hb; [|done]. by right.
Qed.

Lemma foldM_rel {A B} (R : Dungeon → Dungeon → Prop) (l : list A)
    (body : B → A → M B) :
  Reflexive R → Transitive R →
  (∀ b v d b' d', v ∈ l → body b v d = Ok (b', d') → R d d') →
  ∀ b d b' d', foldM body b l d = Ok (b', d') → R d d'.
Proof.
  intros HR HT. induction l as [|v l IH]; simpl; intros Hb b d b' d' Hrun.
  - run_inv. done.
  - run_inv. etrans.
    + eapply Hb; [|done]. left.
    + eapply IH; [|done]. intros. eapply Hb; [|done]. by right.
Qed.

Lemma setTile_Ok x y ty d a' d' :
  setTile x y ty d = Ok (a', d') →
  ∃ a r, tileAt (tiles d) x y = Some a ∧ region d = Some r ∧
    a' = assigned r ty a ∧
    d' = set_tiles (updTile (assigned r ty) x y (tiles d)) d.
Proof. unfold setTile. intros. run_inv. eauto 10. Qed.

Lemma resetTile_Ok x y d a' d' :
  resetTile x y d = Ok (a', d') →
  ∃ a, tileAt (tiles d) x y = Some a ∧
    a' = cleared a ∧ d' = set_tiles (updTile cleared x y (tiles d)) d.
Proof. unfold resetTile. intros. run_inv. eauto 10. Qed.

Lemma setTile_tilesOnly x y ty d a d' :
  setTile x y ty d = Ok (a, d') →
  tilesOnly d d' ∧ matrixRel coordsKept (tiles d) (tiles d').
Proof.
  intros (a0 & r & Ha & Hr & -> & ->)%setTile_Ok. split; [done|].
  simpl. apply matrixRel_updTile; [apply _|]. intros. done.
Qed.

Global Instance tilesStep_refl : Reflexive tilesStep.
Proof. intros d. split; reflexivity. Qed.
Global Instance tilesStep_trans : Transitive tilesStep.
Proof. intros d1 d2 d3 [??] [??]. split; etrans; done. Qed.

Lemma carveArea_tilesStep x y w h d u d' :
  carveArea x y w h d = Ok (u, d') → tilesStep d d'.
Proof.
  unfold carveArea. apply forEach_rel; [apply _..|].
  intros i d1 u1 d1' _. apply forEach_rel; [apply _..|].
  intros j d2 u2 d2' _ Hs. run_inv. by eapply setTile_tilesOnly.
Qed.

(** ** addRooms *)

Section AddRooms.
Context `{Collaborators}.

Lemma candidate_Ok d r d' :
  candidate d = Ok (r, d') →
  ∃ st size,
    stage d = Some st ∧ Z.odd size = true ∧ 3 ≤ size ∧
    drew (attemptRanges (options d) st size r) d d' ∧
    set_rng (rng d) d' = d.
Proof.
  unfold candidate. intros Hc. run_inv.
  repeat match goal with
  | H : oneIn _ _ = Ok _ |- _ => apply oneIn_Ok in H as (? & H & ->)
  end.
  repeat match goal with
  | H : randBetween _ _ _ = Ok _ |- _ =>
      let Hr := fresh "Hr" in
      pose proof (randBetween_range _ _ _ _ _ H) as Hr;
      apply randBetween_Ok in H as (? & ? & _ & ? & ?)
  end.
  repeat (subst; simpl in *; simplify_eq).
  match goal with H : rng d = Some ?c |- _ => rename c into c0 end.
  eexists _, _. split; [done|]. split; [|split; [|split]]; cycle 2.
  - exists c0. split; [done|]. unfold attemptRanges. simpl.
    rewrite <- !app_assoc. simpl. do 2 f_equal. lia.
  - destruct d; simpl in *. by subst.
  - match goal with |- Z.odd (?v * 2 + 1) = true =>
      replace (v * 2 + 1) with (1 + 2 * v) by lia
    end.
    by rewrite Z.odd_add_mul_2.
  - lia.
Qed.

(** C6: an attempt of [addRooms] that returns has made exactly five draws,
    over the ranges of size, rectangularity, axis bit, x and y in that order,
    whether the candidate is accepted or rejected for touching an existing
    room; a rejected attempt leaves the rooms, the tiles, the current region
    and the region counter as they were, so it mints no region id, and an
    accepted one mints exactly one. *)
Theorem addRoomAttempt_draws_and_region (d d' : Dungeon) :
  addRoomAttempt d = Ok (tt, d') →
  ∃ st size r,
    stage d = Some st ∧
    drew (attemptRanges (options d) st size r) d d' ∧
    ((existsb (touches r) (rooms d) = true ∧
      rooms d' = rooms d ∧ tiles d' = tiles d ∧ region d' = region d ∧
      nextRegionId d' = nextRegionId d)
     ∨
     (existsb (touches r) (rooms d) = false ∧
      rooms d' = rooms d ++ [r] ∧
      region d' = Some (mkRegion (nextRegionId d) room) ∧
      nextRegionId d' = nextRegionId d + 1)).
Proof.
  unfold addRoomAttempt. intros Ha. run_inv.
  match goal with Hc : candidate _ = _ |- _ =>
    apply candidate_Ok in Hc as (st & size & Hst & _ & _ & Hdrew & Hsame) end.
  match goal with Hr : context [existsb _ (rooms ?d1)] |- _ =>
    assert (Hd1 : rooms d1 = rooms d ∧ tiles d1 = tiles d ∧
                  region d1 = region d ∧ nextRegionId d1 = nextRegionId d)
      by (rewrite <- Hsame; done);
    destruct Hd1 as (Hrooms & Htiles & Hreg & Hnext);
    rewrite Hrooms in Hr
  end.
  eexists st, size, _. split; [done|].
  destruct (existsb _ (rooms d)) eqn:Ht.
  - run_inv. split; [done|]. by left.
  - run_inv.
    match goal with Hc : carveArea _ _ _ _ _ = _ |- _ =>
      apply carveArea_tilesStep in Hc as [(_ & _ & Hrng & Hrs & Hrg & _ & Hn & _) _]
    end.
    simpl in *. split.
    + destruct Hdrew as (c & Hc & Hc'). exists c. split; [done|].
      by rewrite Hrng.
    + right. split; [done|]. rewrite Hrs, Hrg, Hn, Hrooms, Hnext. done.
Qed.

(** The whole loop: five draws for each of the [roomTries] attempts. *)
Lemma addRoomAttempt_cursor d d' c :
  rng d = Some c → addRoomAttempt d = Ok (tt, d') →
  ∃ c', rng d' = Some c' ∧ stream c' = stream c ∧
        cursor c' = (cursor c + 5)%nat ∧ options d' = options d.
Proof.
  unfold addRoomAttempt. intros Hc Ha.
  apply bind_Ok in Ha as (r & d1 & H1 & Ha).
  apply candidate_Ok in H1 as (st & size & _ & _ & _ & (c0 & Hc0 & Hc1) & Hsame).
  rewrite Hc in Hc0. injection Hc0 as <-.
  assert (Ho : options d1 = options d) by (rewrite <- Hsame; done).
  apply bind_Ok in Ha as (rs & ? & [-> ->]%get_Ok & Ha).
  destruct (existsb _ _).
  - run_inv. eauto.
  - apply bind_Ok in Ha as (u1 & d2 & ->%modify_Ok & Ha).
    apply bind_Ok in Ha as (rg & d3 & [-> ->]%startRegion_Ok & Ha).
    apply carveArea_tilesStep in Ha as [(Ho' & _ & Hrng & _) _].
    simpl in *. rewrite Hrng, Ho'. eauto.
Qed.

(** X25: [addRooms] makes exactly five draws for each of its [roomTries]
    attempts, whatever rooms come out and whether they are kept: the cursor
    of the generator advances by [5 * roomTries], and not at all when
    [roomTries] is not positive. *)
Lemma addRooms_draws d d' c :
  rng d = Some c → addRooms d = Ok (tt, d') →
  ∃ c', rng d' = Some c' ∧ stream c' = stream c ∧
        cursor c' = (cursor c + 5 * Z.to_nat (roomTries (options d)))%nat.
Proof.
  unfold addRooms. intros Hc Ha.
  apply bind_Ok in Ha as (o & ? & [-> ->]%get_Ok & Ha).
  apply bind_Ok in Ha as (st & ? & [_ ->]%getSome_Ok & Ha).
  replace (Z.to_nat (roomTries (options d)))
    with (length (range 0 (roomTries (options d))))
    by (unfold range; by rewrite length_fmap, length_seq, Z.sub_0_r).
  generalize (range 0 (roomTries (options d))) Ha. clear Ha.
  generalize dependent c. generalize dependent d.
  intros d c Hc l. revert d c Hc.
  induction l as [|i l IH]; intros d c Hc Ha; simpl in Ha.
  - run_inv. exists c. split; [done|]. split; [done|]. simpl. lia.
  - apply bind_Ok in Ha as ([] & d1 & H1 & Ha).
    destruct (addRoomAttempt_cursor _ _ _ Hc H1) as (c1 & Hc1 & Hs1 & Hk1 & _).
    destruct (IH _ _ Hc1 Ha) as (c' & Hc' & Hs' & Hk').
    exists c'. split; [done|]. split; [congruence|]. simpl. lia.
Qed.

End AddRooms.

Lemma addRooms_draws_witness :
  let env := example mazeDraws in
  let d := filled env 9 9 (withRoomTries 2) in
  let c := mkChance (scripted mazeDraws (SeedString "s1")) 0 [] in
  ∃ c', rng (after (addRooms (H := env)) d) = Some c' ∧ stream c' = stream c ∧
        cursor c' = (cursor c + 5 * Z.to_nat (roomTries (options d)))%nat.
Proof.
  intros env d c.
  apply (addRooms_draws (H := env) d (after (addRooms (H := env)) d) c).
  - reflexivity.
  - vm_compute. reflexivity.
Defined.

Lemma addRoomAttempt_draws_and_region_witness :
  let env := example [] in
  let d0 := filled env 5 5 defaultOptions in
  let d1 := after (addRoomAttempt (H := env)) d0 in
  let d2 := after (addRoomAttempt (H := env)) d1 in
  (∃ st size r,
    stage d0 = Some st ∧
    drew (attemptRanges (options d0) st size r) d0 d1 ∧
    ((existsb (touches r) (rooms d0) = true ∧
      rooms d1 = rooms d0 ∧ tiles d1 = tiles d0 ∧ region d1 = region d0 ∧
      nextRegionId d1 = nextRegionId d0)
     ∨
     (existsb (touches r) (rooms d0) = false ∧
      rooms d1 = rooms d0 ++ [r] ∧
      region d1 = Some (mkRegion (nextRegionId d0) room) ∧
      nextRegionId d1 = nextRegionId d0 + 1))) ∧
  (∃ st size r,
    stage d1 = Some st ∧
    drew (attemptRanges (options d1) st size r) d1 d2 ∧
    ((existsb (touches r) (rooms d1) = true ∧
      rooms d2 = rooms d1 ∧ tiles d2 = tiles d1 ∧ region d2 = region d1 ∧
      nextRegionId d2 = nextRegionId d1)
     ∨
     (existsb (touches r) (rooms d1) = false ∧
      rooms d2 = rooms d1 ++ [r] ∧
      region d2 = Some (mkRegion (nextRegionId d1) room) ∧
      nextRegionId d2 = nextRegionId d1 + 1))).
Proof.
  intros env d0 d1 d2. split.
  - apply (addRoomAttempt_draws_and_region (H := env) d0 d1).
    vm_compute. reflexivity.
  - apply (addRoomAttempt_draws_and_region (H := env) d1 d2).
    vm_compute. reflexivity.
Defined.

(** The second attempt of the witness is a rejected one. *)
Example second_attempt_rejected :
  let env := example [] in
  let d1 := after (addRoomAttempt (H := env)) (filled env 5 5 defaultOptions) in
  rooms (after (addRoomAttempt (H := env)) d1) = rooms d1 ∧
  rooms d1 = [mkRoom 1 1 1 1].
Proof. vm_compute. done. Qed.

(** C3 fails on the code (rooms are not always odd-sized or on odd origins):
    on an 11 by 11 stage with the default options the limit on a room's side
    is [ceil(11 * 0.5) = 6], so a candidate of size 7 is cut to 6 by 6, and its
    origin drawn as 5 is moved to [11 - 6 - 1 = 4]. *)
Theorem addRooms_even_room_on_11x11 :
  res_rooms <$>
    valueOf (build (H := example [2; 1; 0; 2; 2]) "slug" 0
               (mkStageInput (Some 11) (Some 11) (SeedString "s3"))
               (Dungeon_new defaultOptions))
  = Some [mkRoom 4 4 6 6] ∧
  Z.even 6 = true ∧ Z.even 4 = true.
Proof. vm_compute. done. Qed.

(** ** The part of the room constraints that addRooms does keep *)

Lemma outerLimit_bounds dim mult :
  1 ≤ mult → 5 * mult ≤ dim → 1 ≤ outerLimit dim mult ≤ dim - 4.
Proof.
  intros Hm Hd. unfold outerLimit.
  destruct (_ && _) eqn:E; [|lia].
  apply andb_true_iff in E as [H1%Z.ltb_lt H2%Z.ltb_lt].
  Z.div_mod_to_equations. lia.
Qed.

Lemma candidate_within_stage `{Collaborators} d r d' st :
  candidate d = Ok (r, d') → stage d = Some st →
  1 ≤ multiplier (options d) →
  5 * multiplier (options d) ≤ width st →
  5 * multiplier (options d) ≤ height st →
  1 ≤ room_x r ∧ 1 ≤ room_y r ∧
  1 ≤ room_width r ∧ 1 ≤ room_height r ∧
  room_x r + room_width r < width st ∧
  room_y r + room_height r < height st.
Proof.
  unfold candidate. intros Hc Hst Hm Hw Hh. run_inv.
  repeat match goal with
  | H : oneIn _ _ = Ok _ |- _ => apply oneIn_Ok in H as (? & H & ->)
  end.
  repeat match goal with
  | H : randBetween _ _ ?a = Ok (_, ?b) |- _ =>
      let Hr := fresh "Hr" in
      pose proof (randBetween_range _ _ _ _ _ H) as Hr;
      let Hs := fresh "Hs" in
      assert (Hs : options b = options a ∧ stage b = stage a)
        by (apply randBetween_Ok in H as (? & _ & _ & _ & ->); done);
      destruct Hs; clear H
  end.
  repeat match goal with
  | E : options _ = options _ |- _ => rewrite E in *; clear E
  | E : stage _ = stage _ |- _ => rewrite E in *; clear E
  end.
  simplify_eq. simpl.
  match goal with Hs : stage d = Some ?s |- _ =>
    pose proof (outerLimit_bounds (width s) _ Hm Hw);
    pose proof (outerLimit_bounds (height s) _ Hm Hh);
    generalize dependent (outerLimit (width s) (multiplier (options d)));
    generalize dependent (outerLimit (height s) (multiplier (options d)))
  end.
  intros lh ? ? lw ? ?.
  destruct (_ =? 1);
    repeat match goal with
    | |- context [?a <=? ?b] => destruct (Z.leb_spec a b)
    end; Z.div_mod_to_equations; lia.
Qed.

(** ** growMaze *)

Section GrowMaze.
Context `{Collaborators}.

Lemma randBetween_cases lo hi d :
  (∃ v d', randBetween lo hi d = Ok (v, d') ∧ lo ≤ v ≤ hi ∧ options d' = options d)
  ∨ (∃ e, randBetween lo hi d = Throw e).
Proof.
  destruct (randBetween lo hi d) as [[v d']|e|] eqn:E.
  - left. exists v, d'. split; [done|]. split; [by eapply randBetween_range|].
    apply randBetween_Ok in E as (c & _ & _ & _ & ->). done.
  - right. eauto.
  - unfold randBetween, Chance_integer in E.
    destruct (rng d); [destruct (hi <? lo)|]; done.
Qed.

(** C1, as the code has it.  With [windingPercent = 100] the roll
    [randBetween(1, 100) > 100] never passes, so the previous direction is
    never preferred: the direction is always the uniform pick among the
    candidates, made right away or after the roll has used one draw.  With
    [windingPercent = 0] the roll always passes, so the previous direction is
    reused, after that one draw, whenever the test
    [cellIds.indexOf(lastDirection.toString()) > -1] finds it. *)
Theorem chooseDirection_winding_extremes (unmadeCells : list PointArray)
    (lastDirection : option Point) (d : Dungeon) :
  (windingPercent (options d) = 100 →
     chooseDirection unmadeCells lastDirection d = uniformPick unmadeCells d ∨
     chooseDirection unmadeCells lastDirection d
       = (randBetween 1 100;; uniformPick unmadeCells) d) ∧
  (windingPercent (options d) = 0 →
     ∀ ld, lastDirection = Some ld →
       Point_toString ld ∈ PointArray_toString <$> unmadeCells →
       chooseDirection unmadeCells lastDirection d
         = (randBetween 1 100;; mret ld) d).
Proof.
  split.
  - intros Hwp. unfold chooseDirection.
    destruct lastDirection as [ld|]; [|by left].
    destruct (bool_decide _); [|by left]. right.
    unfold mbind, M_bind, get, mret, M_ret. simpl.
    destruct (randBetween_cases 1 100 d) as [(v & d' & -> & Hv & Ho)|[e ->]];
      [|done].
    rewrite Hwp. replace (100 <? v) with false by (symmetry; apply Z.ltb_ge; lia).
    done.
  - intros Hwp ld -> Hin. unfold chooseDirection.
    rewrite bool_decide_eq_true_2 by done.
    unfold mbind, M_bind, get, mret, M_ret. simpl.
    destruct (randBetween_cases 1 100 d) as [(v & d' & -> & Hv & Ho)|[e ->]];
      [|done].
    rewrite Hwp. replace (0 <? v) with true by (symmetry; apply Z.ltb_lt; lia).
    done.
Qed.

End GrowMaze.

Lemma chooseDirection_winding_extremes_witness :
  let env := collaborators (scripted [7; 2]) Point_toString_xy in
  let candidates := [(0, -1); (1, 0); (0, 1)] in
  let east := mkPoint 1 0 in
  let d100 := filled env 7 7 (withWinding 100) in
  let d0 := filled env 7 7 (withWinding 0) in
  (chooseDirection (H := env) candidates (Some east) d100
     = uniformPick candidates d100 ∨
   chooseDirection (H := env) candidates (Some east) d100
     = (randBetween 1 100;; uniformPick candidates) d100) ∧
  chooseDirection (H := env) candidates (Some east) d0
    = (randBetween 1 100;; mret east) d0.
Proof.
  intros env candidates east d100 d0. split.
  - apply (chooseDirection_winding_extremes (H := env) candidates (Some east) d100).
    reflexivity.
  - apply (chooseDirection_winding_extremes (H := env) candidates (Some east) d0).
    + reflexivity.
    + reflexivity.
    + apply (bool_decide_unpack _). vm_compute. reflexivity.
Defined.

(** C1 as stated fails in both halves.  With [windingPercent = 100] the
    second round turns north although the previous direction, east, can
    still be carved, whichever way the points are rendered; with
    [windingPercent = 0] it goes east again although north and south can be
    carved. *)
Lemma winding_extremes_counterexample :
  twoRounds Object_toString 100 [1; 0; 0] (mkPoint 0 (-1)) ∧
  twoRounds Point_toString_xy 100 [1; 0; 0] (mkPoint 0 (-1)) ∧
  twoRounds Point_toString_xy 0 [1; 0; 0] (mkPoint 1 0) ∧
  twoRounds Object_toString 0 [1; 1; 0] (mkPoint 1 0).
Proof. vm_compute. done. Qed.

(** ** The choice of direction under the default renderings *)

Lemma unmade_cardinal `{Collaborators} cell d l d' :
  unmade cell d = Ok (l, d') → l ⊆ cardinalDirections.
Proof.
  unfold unmade, cardinalDirections. simpl. intros Hrun. run_inv.
  repeat match goal with
  | H : canCarve _ _ _ = Ok (?b, _) |- _ => clear H; destruct b
  end; set_solver.
Qed.

(** If [Point] and [PointArray] have no [toString] of their own, so that a
    point renders as a plain object and an offset as an array, the test
    [cellIds.indexOf(lastDirection.toString()) > -1] never succeeds on offsets
    taken from [cardinalDirections], and the direction is the uniform pick
    whatever [windingPercent] is. *)
Remark chooseDirection_default_renderings (streamOf : Seed → nat → Z)
    (l : list PointArray) (lastDirection : option Point) (d : Dungeon) :
  l ⊆ cardinalDirections →
  chooseDirection (H := collaborators streamOf Object_toString) l lastDirection d
  = uniformPick l d.
Proof.
  intros Hl. unfold chooseDirection. destruct lastDirection as [ld|]; [|done].
  rewrite bool_decide_eq_false_2; [done|].
  intros (a & Heq & Ha%Hl)%list_elem_of_fmap. simpl in *.
  unfold cardinalDirections in Ha.
  repeat (apply elem_of_cons in Ha as [->|Ha]; [by vm_compute in Heq|]).
  by apply elem_of_nil in Ha.
Qed.

(** ** connectRegions *)

Global Instance typeToDoor_refl : Reflexive typeToDoor.
Proof. intros a. repeat split. by left. Qed.
Global Instance typeToDoor_trans : Transitive typeToDoor.
Proof.
  intros a1 a2 a3 (C1 & R1 & T1 & K1) (C2 & R2 & T2 & K2).
  split; [by etrans|]. split; [congruence|]. split; [congruence|].
  destruct K2 as [K2|K2]; [|by right]. rewrite K2. done.
Qed.

Global Instance doorsAdded_refl refs : Reflexive (doorsAdded refs).
Proof.
  intros m. split; [done|]. intros i j. destruct (tileAt m i j) as [a|]; [|done].
  exists a. split; [done|]. split; [done|]. by left.
Qed.
Global Instance doorsAdded_trans refs : Transitive (doorsAdded refs).
Proof.
  intros m1 m2 m3 [L1 H1] [L2 H2]. split; [congruence|]. intros i j.
  specialize (H1 i j). specialize (H2 i j). destruct (tileAt m1 i j) as [a|].
  - destruct H1 as (a' & Ha' & T1 & K1). rewrite Ha' in H2.
    destruct H2 as (a'' & Ha'' & T2 & K2). exists a''.
    split; [done|]. split; [by etrans|].
    destruct K1 as [K1|K1]; [|by right].
    destruct K2 as [K2|K2]; [|by right]. left. congruence.
  - by rewrite H1 in H2.
Qed.

Lemma doorsAdded_mono refs refs' m m' :
  refs ⊆ refs' → doorsAdded refs m m' → doorsAdded refs' m m'.
Proof.
  intros Hs [L Hm]. split; [done|]. intros i j. specialize (Hm i j).
  destruct (tileAt m i j); [|done].
  destruct Hm as (a' & ? & ? & [?|?]); exists a'; eauto.
Qed.

Global Instance doorStep_refl refs : Reflexive (doorStep refs).
Proof. intros d. split; [reflexivity|]. done. Qed.
Global Instance doorStep_trans refs : Transitive (doorStep refs).
Proof.
  intros d1 d2 d3 (M1 & ? & ? & ? & ? & ? & ? & ? & ?)
                  (M2 & ? & ? & ? & ? & ? & ? & ? & ?).
  split; [by etrans|]. repeat split; try congruence. auto.
Qed.

Lemma doorStep_mono refs refs' d d' :
  refs ⊆ refs' → doorStep refs d d' → doorStep refs' d d'.
Proof. intros Hs [Hm ?]. split; [by eapply doorsAdded_mono|done]. Qed.

Lemma hasDoor_doorsAdded refs refs' m m' :
  doorsAdded refs' m m' → hasDoor m refs → hasDoor m' refs.
Proof.
  intros [_ Hm] (r & a & Hr & Ha & Hd). specialize (Hm r.1 r.2).
  rewrite Ha in Hm. destruct Hm as (a' & Ha' & (_ & _ & _ & K) & _).
  exists r, a'. split; [done|]. split; [done|]. destruct K; congruence.
Qed.

Lemma markDoor_Ok r d u d' :
  markDoor r d = Ok (u, d') ↔
  d' = set_tiles (updTile (Tile.set_type door) r.1 r.2 (tiles d)) d.
Proof. unfold markDoor. destruct u. unfold modify. naive_solver. Qed.

Lemma markDoor_doorStep refs r d u d' :
  r ∈ refs → markDoor r d = Ok (u, d') → doorStep refs d d'.
Proof.
  intros Hr ->%markDoor_Ok. split; [|done]. simpl.
  split; [apply length_updTile|]. intros i j. rewrite tileAt_updTile.
  destruct r as [ri rj]; simpl in *. case_decide as Hd.
  - destruct Hd; subst. destruct (tileAt (tiles d) i j) as [a|]; simpl; [|done].
    eexists. split; [done|]. split; [|by right]. repeat split. by right.
  - destruct (tileAt (tiles d) i j) as [a|]; [|done].
    exists a. split; [done|]. split; [done|]. by left.
Qed.

Lemma markDoor_hasDoor refs r a d u d' :
  r ∈ refs → tileAt (tiles d) r.1 r.2 = Some a →
  markDoor r d = Ok (u, d') → hasDoor (tiles d') refs.
Proof.
  intros Hr Ha ->%markDoor_Ok. exists r, (Tile.set_type door a).
  split; [done|]. simpl. rewrite tileAt_updTile, decide_True by done.
  by rewrite Ha.
Qed.

Lemma randBetween_doorStep refs lo hi d v d' :
  randBetween lo hi d = Ok (v, d') → doorStep refs d d'.
Proof.
  intros (c & Hc & _ & _ & ->)%randBetween_Ok. split; [reflexivity|].
  simpl. repeat split; eauto.
Qed.

Lemma pick_Ok (l : list Ref) rand d r d' :
  pick l rand d = Ok (r, d') → r ∈ l ∧ d' = d.
Proof.
  unfold pick. destruct (l !! Z.to_nat rand) as [r0|] eqn:E; [|done].
  intros [<- <-]%ret_Ok. split; [|done]. by eapply list_elem_of_lookup_2.
Qed.

Lemma oneIn_doorStep refs num d b d' :
  oneIn num d = Ok (b, d') → doorStep refs d d'.
Proof. intros (v & Hv & _)%oneIn_Ok. by eapply randBetween_doorStep. Qed.

Lemma doorLoop_Ok budget connections doorCount :
  ∀ added i failed d added' failed' d',
  doorLoop budget connections doorCount added i failed d
    = Ok ((added', failed'), d') →
  failed ⊆ connections → 0 ≤ added →
  (0 < added → hasDoor (tiles d) connections) →
  doorStep connections d d' ∧ failed' ⊆ connections ∧ 0 ≤ added' ∧
  (0 < added' → hasDoor (tiles d') connections).
Proof.
  induction budget as [|k IH]; intros added i failed d added' failed' d' Hrun Hf Ha Hd.
  - simpl in Hrun. run_inv.
    destruct (_ && _); [done|]. run_inv. split; [reflexivity|done].
  - simpl in Hrun.
    apply bind_Ok in Hrun as (o & ? & [-> ->]%get_Ok & Hrun).
    destruct (_ && _); [|run_inv; split; [reflexivity|done]].
    apply bind_Ok in Hrun as (rand & d1 & H1 & Hrun).
    apply bind_Ok in Hrun as (byChance & d3 & H3 & Hrun).
    apply bind_Ok in Hrun as (r & d2 & H2 & Hrun).
    apply bind_Ok in Hrun as (m & ? & [-> ->]%get_Ok & Hrun).
    apply bind_Ok in Hrun as (a & ? & [Hta ->]%tileOf_Ok & Hrun).
    apply (randBetween_doorStep connections) in H1.
    apply pick_Ok in H2 as [Hr ->].
    apply (oneIn_doorStep connections) in H3.
    assert (S13 : doorStep connections d d3) by (by etrans).
    assert (Hd3 : 0 < added → hasDoor (tiles d3) connections).
    { intros. eapply hasDoor_doorsAdded; [apply S13|auto]. }
    destruct (_ && _).
    + destruct byChance.
      * apply bind_Ok in Hrun as (u & d4 & H4 & Hrun).
        pose proof (markDoor_doorStep connections _ _ _ _ Hr H4) as Sm.
        eapply (markDoor_hasDoor connections) in H4 as Hh; [|done..].
        eapply IH in Hrun as (S' & ? & ? & ?); [|done|lia|done].
        split; [|done]. etrans; [exact S13|]. etrans; done.
      * eapply IH in Hrun as (S' & ? & ? & ?); [|set_solver|lia|done].
        split; [|done]. etrans; done.
    + eapply IH in Hrun as (S' & ? & ? & ?); [|done|lia|done].
      split; [|done]. etrans; done.
Qed.

Section ConnectRegions.
Context `{Collaborators}.

Lemma connectBucket_Ok (connections : list Ref) (d d' : Dungeon) (n : Z) :
  connectBucket connections d = Ok (n, d') →
  doorStep connections d d' ∧ hasDoor (tiles d') connections ∧ 1 ≤ n.
Proof.
  unfold connectBucket. intros Hrun.
  apply bind_Ok in Hrun as (o & ? & [-> ->]%get_Ok & Hrun).
  apply bind_Ok in Hrun as (doorCount & d1 & H1 & Hrun).
  apply bind_Ok in Hrun as ([added failed] & d2 & H2 & Hrun).
  apply bind_Ok in Hrun as (n' & d3 & H3 & Hrun).
  apply (randBetween_doorStep connections) in H1.
  apply doorLoop_Ok in H2 as (S12 & Hf & Ha & Hd); [|set_solver|lia|lia].
  assert (Hn : doorStep connections d2 d3 ∧ 1 ≤ n' ∧ hasDoor (tiles d3) connections).
  { destruct (added =? 0) eqn:E.
    - apply Z.eqb_eq in E as ->.
      apply bind_Ok in H3 as (rand & d4 & H4 & H3).
      apply bind_Ok in H3 as (r & d5 & H5 & H3).
      apply bind_Ok in H3 as (a & ? & [Hta ->]%tileOf_Ok & H3).
      apply bind_Ok in H3 as (u & d6 & H6 & H3).
      apply ret_Ok in H3 as [<- <-].
      apply (randBetween_doorStep connections) in H4.
      apply pick_Ok in H5 as [Hr ->].
      assert (Hrc : r ∈ connections).
      { case_bool_decide; [set_solver|done]. }
      split; [|split; [lia|]].
      + etrans; [exact H4|]. by eapply markDoor_doorStep.
      + by eapply markDoor_hasDoor.
    - apply Z.eqb_neq in E. apply ret_Ok in H3 as [<- <-].
      split; [reflexivity|]. split; [lia|]. apply Hd. lia. }
  destruct Hn as (S23 & Hn & Hdoor).
  replace (n' =? 0) with false in Hrun by (symmetry; apply Z.eqb_neq; lia).
  run_inv. split; [|done]. etrans; [exact H1|by etrans].
Qed.

(** C4: when the body of the loop over the buckets returns for a bucket, some
    tile of that bucket has type door, the final [added_connections] is at
    least 1, and nothing was sent to [$out.error]: the branch after the
    fallback is not taken. *)
Theorem connectBucket_adds_door (connections : list Ref) (d d' : Dungeon) (n : Z) :
  connectBucket connections d = Ok (n, d') →
  hasDoor (tiles d') connections ∧ 1 ≤ n ∧ errorLog d' = errorLog d.
Proof.
  intros (S & Hd & Hn)%connectBucket_Ok. split; [done|]. split; [done|].
  apply S.
Qed.

End ConnectRegions.

Section ConnectRegionsFrame.
Context `{Collaborators}.

Lemma addConnection_connectors key r acc x :
  x ∈ connectors (addConnection key r acc) → x = r ∨ x ∈ connectors acc.
Proof.
  unfold connectors. induction acc as [|[k v] acc IH]; simpl.
  - set_solver.
  - destruct (String.eqb k key); simpl.
    + set_solver.
    + set_solver.
Qed.

Lemma regionConnections_connectors m r :
  r ∈ connectors (regionConnections m) →
  ∃ a, tileAt m r.1 r.2 = Some a ∧ Tile.type a = wall ∧ Tile.region a = -1.
Proof.
  unfold regionConnections.
  set (P := λ r : Ref, ∃ a, tileAt m r.1 r.2 = Some a ∧ Tile.type a = wall ∧
                            Tile.region a = -1).
  assert (Hgen : ∀ l acc, (∀ x, x ∈ connectors acc → P x) →
            ∀ x, x ∈ connectors (foldl (λ acc r,
               match tileAt m r.1 r.2 with
               | None => acc
               | Some a =>
                   if bool_decide (Tile.type a ≠ wall) || bool_decide (Tile.region a ≠ -1)
                   then acc
                   else
                     let regs := tileRegions m a in
                     if Z.of_nat (length regs) <=? 1 then acc
                     else addConnection (regionKey regs) r acc
               end) acc l) → P x).
  { induction l as [|r0 l IH]; simpl; intros acc Hacc; [done|].
    apply IH. destruct (tileAt m r0.1 r0.2) as [a|] eqn:Ea; [|done].
    destruct (bool_decide (Tile.type a ≠ wall)) eqn:E1; [done|].
    destruct (bool_decide (Tile.region a ≠ -1)) eqn:E2; [done|]. simpl.
    destruct (_ <=? 1); [done|].
    intros x [->|Hx]%addConnection_connectors; [|auto].
    exists a. split; [done|].
    apply bool_decide_eq_false in E1, E2.
    split; [by destruct (decide (Tile.type a = wall))|].
    by destruct (decide (Tile.region a = -1)). }
  apply Hgen. unfold connectors. simpl. set_solver.
Qed.

Lemma connectRegions_doorStep d u d' :
  connectRegions d = Ok (u, d') →
  doorStep (connectors (regionConnections (tiles d))) d d'.
Proof.
  unfold connectRegions. intros Hrun.
  apply bind_Ok in Hrun as (m & ? & [-> ->]%get_Ok & Hrun).
  revert Hrun. apply forEach_rel; [apply _..|].
  intros l d1 u1 d1' Hl Hb.
  apply bind_Ok in Hb as (n & d2 & Hb & [_ <-]%ret_Ok).
  apply connectBucket_Ok in Hb as [Hs _].
  eapply doorStep_mono; [|done].
  intros x Hx. unfold connectors. apply list_elem_of_join. eauto.
Qed.

(** C9: when [connectRegions] returns, every tile object is where it was and
    has the same [x], [y], links, [region] and [regionType] as before; if its
    type is not what it was, the tile is now a door, it was a wall, and its
    region is -1.  So marking a connector as a door, by chance or by the
    fallback, writes its type and nothing else. *)
Theorem connectRegions_writes_type_only (d d' : Dungeon) :
  connectRegions d = Ok (tt, d') →
  ∀ i j a, tileAt (tiles d) i j = Some a →
    ∃ a', tileAt (tiles d') i j = Some a' ∧
      Tile.x a' = Tile.x a ∧ Tile.y a' = Tile.y a ∧
      Tile.neighbors a' = Tile.neighbors a ∧
      Tile.region a' = Tile.region a ∧
      Tile.regionType a' = Tile.regionType a ∧
      (Tile.type a' = Tile.type a ∨
       (Tile.type a' = door ∧ Tile.type a = wall ∧ Tile.region a' = -1)).
Proof.
  intros [[_ Hm] _]%connectRegions_doorStep i j a Ha.
  specialize (Hm i j). rewrite Ha in Hm.
  destruct Hm as (a' & Ha' & ((Hx & Hy & Hn) & Hr & Ht & Hk) & Hin).
  exists a'. repeat (split; [done|]).
  destruct (decide (Tile.type a' = Tile.type a)) as [|Hne]; [by left|].
  right. destruct Hk as [|Hk]; [done|]. destruct Hin as [|Hin]; [done|].
  apply regionConnections_connectors in Hin as (a0 & Ha0 & Hw & Hreg).
  simpl in Ha0. rewrite Ha in Ha0. injection Ha0 as <-.
  split; [done|]. split; [done|]. congruence.
Qed.

End ConnectRegionsFrame.

Lemma connectBucket_adds_door_witness :
  let env := example [] in
  let d := carved env 5 5 defaultOptions in
  let d' := after (connectBucket [(1, 2)]) d in
  hasDoor (tiles d') [(1, 2)] ∧ 1 ≤ 1 ∧ errorLog d' = errorLog d.
Proof.
  intros env d d'.
  apply (connectBucket_adds_door [(1, 2)] d d' 1).
  vm_compute. reflexivity.
Defined.

Lemma connectRegions_writes_type_only_witness :
  let env := example [] in
  let d := carved env 5 5 defaultOptions in
  let d' := after (connectRegions (H := env)) d in
  ∃ a', tileAt (tiles d') 1 2 = Some a' ∧
    Tile.x a' = 1 ∧ Tile.y a' = 2 ∧
    Tile.neighbors a' = neighborsAt (tiles d) 1 2 ∧
    Tile.region a' = -1 ∧ Tile.regionType a' = None ∧
    (Tile.type a' = wall ∨
     (Tile.type a' = door ∧ wall = wall ∧ Tile.region a' = -1)).
Proof.
  intros env d d'.
  apply (connectRegions_writes_type_only (H := env) d d'
           ltac:(vm_compute; reflexivity) 1 2
           (Tile.mk wall (neighborsAt (tiles d) 1 2) 1 2 (-1) None)).
  vm_compute. reflexivity.
Defined.

Example buckets_5x5 :
  regionConnections (H := example []) (tiles (carved (example []) 5 5 defaultOptions))
  = [("0-1", [(1, 2)]); ("1-0", [(2, 1)])].
Proof. vm_compute. reflexivity. Qed.

(** ** The loop over a bucket returns *)

Lemma randBetween_returns lo hi d c :
  rng d = Some c → lo ≤ hi →
  ∃ v d', randBetween lo hi d = Ok (v, d') ∧ lo ≤ v ≤ hi ∧
          tiles d' = tiles d ∧ options d' = options d ∧ is_Some (rng d').
Proof.
  intros Hc Hle. unfold randBetween, Chance_integer. rewrite Hc.
  replace (hi <? lo) with false by (symmetry; apply Z.ltb_ge; lia).
  eexists _, _. split; [done|].
  pose proof (Z.mod_pos_bound (stream c (cursor c)) (hi - lo + 1)).
  simpl. split; [lia|]. eauto.
Qed.

Lemma validRefs_updTile f i j m refs :
  validRefs m refs → validRefs (updTile f i j m) refs.
Proof.
  intros Hv r Hr. destruct (Hv r Hr) as [a Ha]. rewrite tileAt_updTile.
  case_decide as Hd; [|eauto]. destruct Hd as [-> ->]. rewrite Ha. eauto.
Qed.

Lemma pick_returns (l : list Ref) rand d :
  0 ≤ rand ≤ Z.of_nat (length l) - 1 →
  ∃ r, pick l rand d = Ok (r, d) ∧ r ∈ l.
Proof.
  intros Hr. unfold pick.
  destruct (lookup_lt_is_Some_2 l (Z.to_nat rand)) as [r Hl]; [lia|].
  rewrite Hl. exists r. split; [done|]. by eapply list_elem_of_lookup_2.
Qed.

Lemma doorLoop_returns budget connections doorCount :
  connections ≠ [] →
  ∀ added i failed d,
    is_Some (rng d) → validRefs (tiles d) connections →
    0 ≤ i → doorChance (options d) - i ≤ Z.of_nat budget →
    ∃ res d', doorLoop budget connections doorCount added i failed d = Ok (res, d') ∧
      is_Some (rng d') ∧ validRefs (tiles d') connections.
Proof.
  intros Hne. assert (Hlen : 1 ≤ Z.of_nat (length connections)).
  { destruct connections; [done|]. simpl. lia. }
  induction budget as [|k IH]; intros added i failed d [c Hc] Hv Hi0 Hb.
  - simpl. unfold mbind, M_bind, get.
    replace (i <? doorChance (options d)) with false
      by (symmetry; apply Z.ltb_ge; lia).
    rewrite andb_false_r. eexists _, _. split; [done|]. eauto.
  - simpl. unfold mbind at 1. unfold M_bind, get.
    destruct (_ && _) eqn:Econd; [|eexists _, _; split; [done|]; eauto].
    apply andb_true_iff in Econd as [_ Hi%Z.ltb_lt].
    destruct (randBetween_returns 0 (Z.of_nat (length connections) - 1) d c)
      as (rand & d1 & H1 & Hr1 & Ht1 & Ho1 & [c1 Hc1]); [done|lia|].
    unfold mbind at 1. unfold M_bind. rewrite H1.
    destruct (randBetween_returns 1 (doorChance (options d)) d1 c1)
      as (v & d2 & H3 & Hr3 & Ht3 & Ho3 & Hrng2); [done|lia|].
    unfold mbind at 1. unfold M_bind. unfold oneIn.
    unfold mbind at 1. unfold M_bind. rewrite H3. simpl.
    destruct (pick_returns connections rand d2 Hr1) as (r & H2 & Hin).
    unfold mbind at 1. unfold M_bind. rewrite H2.
    unfold mbind at 1. unfold M_bind, get. simpl.
    assert (Hv2 : validRefs (tiles d2) connections) by (by rewrite Ht3, Ht1).
    destruct (Hv2 r Hin) as [a Ha].
    unfold mbind at 1. unfold M_bind, tileOf. rewrite Ha.
    assert (Hb2 : doorChance (options d2) - (i + 1) ≤ Z.of_nat k)
      by (rewrite Ho3, Ho1; lia).
    destruct (_ && _); [destruct (v =? 1)|].
    + unfold mbind at 1. unfold M_bind, markDoor, modify.
      apply IH; simpl; [done| |lia|done]. by apply validRefs_updTile.
    + apply IH; [done..|lia|done].
    + apply IH; [done..|lia|done].
Qed.

(** When the generator is set, [maxDoors] is at least 1 and the bucket is not
    empty and holds tiles of the matrix, the body of the loop over the
    buckets returns. *)
Lemma connectBucket_returns connections d :
  is_Some (rng d) → 1 ≤ maxDoors (options d) →
  connections ≠ [] → validRefs (tiles d) connections →
  ∃ n d', connectBucket connections d = Ok (n, d').
Proof.
  intros [c Hc] Hmax Hne Hv. unfold connectBucket.
  destruct (randBetween_returns 1 (maxDoors (options d)) d c)
    as (doorCount & d1 & H1 & _ & Ht1 & Ho1 & Hrng1); [done..|].
  destruct (doorLoop_returns (Z.to_nat (doorChance (options d))) connections
              doorCount Hne 0 0 [] d1)
    as ([added failed] & d2 & H2 & [c2 Hc2] & Hv2);
    [done|by rewrite Ht1|lia|rewrite Ho1; lia|].
  pose proof (doorLoop_Ok _ _ _ _ _ _ _ _ _ _ H2) as (_ & Hfailed & _);
    [set_solver|lia|lia|].
  set (doors := if bool_decide (failed ≠ []) then failed else connections).
  assert (Hdoors : doors ≠ [] ∧ doors ⊆ connections).
  { unfold doors. case_bool_decide as Hf; [done|].
    split; [done|]. set_solver. }
  destruct Hdoors as [Hdne Hdsub].
  assert (Hdlen : 1 ≤ Z.of_nat (length doors)).
  { destruct doors; [done|]. simpl. lia. }
  assert (Hstart : ∀ (k : Z * list Ref → M Z) n d',
    k (added, failed) d2 = Ok (n, d') →
    (o ← get options; doorCount ← randBetween 1 (maxDoors o);
     res ← doorLoop (Z.to_nat (doorChance o)) connections doorCount 0 0 []; k res) d
    = Ok (n, d')).
  { intros k n d' Hk.
    apply bind_Ok. exists (options d), d. split; [done|].
    apply bind_Ok. eexists _, _. split; [exact H1|].
    apply bind_Ok. eexists _, _. split; [exact H2|]. done. }
  destruct (added =? 0) eqn:E.
  - apply Z.eqb_eq in E as ->.
    destruct (randBetween_returns 0 (Z.of_nat (length doors) - 1) d2 c2)
      as (rand & d3 & H3 & Hr3 & Ht3 & _); [done|lia|].
    destruct (pick_returns doors rand d3 Hr3) as (r & H4 & Hin).
    destruct (Hv2 r) as [a Ha]; [set_solver|]. rewrite <- Ht3 in Ha.
    eexists _, _. apply Hstart. cbv beta iota.
    apply bind_Ok. eexists _, _. split.
    + apply bind_Ok. eexists _, _. split; [exact H3|].
      apply bind_Ok. eexists _, _. split; [exact H4|].
      apply bind_Ok. eexists _, _. split; [by apply tileOf_Ok|].
      apply bind_Ok. exists tt. eexists. split; [by apply markDoor_Ok|]. done.
    + simpl. reflexivity.
  - eexists _, _. apply Hstart. cbv beta iota.
    apply bind_Ok. eexists _, _. split; [by rewrite E|].
    rewrite E. reflexivity.
Qed.

(** ** removeDeadEnds *)

Lemma sum_list_with_alter {A} (g : A → nat) (f : A → A) (l : list A) i x :
  l !! i = Some x →
  (sum_list_with g (alter f i l) + g x = sum_list_with g l + g (f x))%nat.
Proof.
  revert i. induction l as [|y l IH]; intros [|i] Hi; simplify_eq/=.
  - lia.
  - specialize (IH _ Hi). lia.
Qed.

Lemma countTiles_updTile p f i j m a :
  tileAt m i j = Some a →
  (countTiles p (updTile f i j m) + (if p a then 1 else 0)
   = countTiles p m + (if p (f a) then 1 else 0))%nat.
Proof.
  intros (Hi & Hj & col & Hcol & Ha)%tileAt_Some.
  unfold countTiles, updTile.
  apply Z.leb_le in Hi, Hj. rewrite Hi, Hj. simpl.
  pose proof (sum_list_with_alter
    (sum_list_with (λ a : Tile.t, if p a then 1%nat else 0%nat))
    (alter f (Z.to_nat j)) m _ _ Hcol) as H1.
  pose proof (sum_list_with_alter
    (λ a : Tile.t, if p a then 1%nat else 0%nat) f col _ _ Ha) as H2.
  simpl in *. lia.
Qed.

Lemma wallCount_le_tileCount m : (wallCount m ≤ tileCount m)%nat.
Proof.
  unfold wallCount, tileCount, countTiles.
  induction m as [|col m IH]; simpl; [lia|].
  assert (sum_list_with (λ a, if Tile.isWall a then 1 else 0) col
          ≤ sum_list_with (λ _ : Tile.t, 1) col)%nat; [|lia].
  clear. induction col as [|a col IH]; simpl; [lia|].
  destruct (Tile.isWall a); lia.
Qed.

Lemma allRefs_elem m i j :
  (i, j) ∈ allRefs m ↔ is_Some (tileAt m i j).
Proof.
  unfold allRefs. rewrite list_elem_of_join. split.
  - intros (l & Hl & (ci & col & -> & Hcol)%elem_of_lookup_imap).
    apply elem_of_lookup_imap in Hl as (cj & a & [= -> ->] & Ha).
    exists a. apply tileAt_Some. split; [lia|]. split; [lia|].
    exists col. by rewrite !Nat2Z.id.
  - intros [a (Hi & Hj & col & Hcol & Ha)%tileAt_Some].
    exists (imap (λ j _, (Z.of_nat (Z.to_nat i), Z.of_nat j)) col). split.
    + replace (i, j) with (Z.of_nat (Z.to_nat i), Z.of_nat (Z.to_nat j))
        by (f_equal; lia).
      by apply (elem_of_lookup_imap_2 (λ j _, (Z.of_nat (Z.to_nat i), Z.of_nat j)) col _ _ Ha).
    + by apply (elem_of_lookup_imap_2
        (λ i col, imap (λ j _, (Z.of_nat i, Z.of_nat j)) col) m _ _ Hcol).
Qed.

Lemma coordsMatch_matrixRel m m' :
  matrixRel coordsKept m m' → coordsMatch m → coordsMatch m'.
Proof.
  intros [_ Hm] Hc i j a' Ha'. specialize (Hm i j).
  destruct (tileAt m i j) as [a|] eqn:Ea; [|congruence].
  destruct Hm as (a'' & Ha'' & Hx & Hy & _). simplify_eq.
  destruct (Hc _ _ _ Ea). split; congruence.
Qed.

Section RemoveDeadEnds.
Context `{Collaborators}.

(** One tile of a pass, on a matrix with canonical tiles. *)
Lemma cycleTile_spec done r d a :
  coordsMatch (tiles d) → tileAt (tiles d) r.1 r.2 = Some a →
  if bool_decide (Tile.type a = wall) || negb (deadEnd d a)
  then cycleTile done r d = Ok (done, d)
  else cycleTile done r d
       = Ok (false, set_tiles (updTile cleared r.1 r.2 (tiles d)) d).
Proof.
  intros Hc Ha.
  destruct (bool_decide (Tile.type a = wall)) eqn:Ew; simpl.
  - unfold cycleTile, mbind, M_bind, tileOf. by rewrite Ha, Ew.
  - destruct (deadEnd d a) eqn:Ed; simpl; unfold deadEnd in Ed;
      unfold cycleTile, mbind, M_bind, tileOf, get; rewrite Ha, Ew; simpl;
      rewrite Ed; [|done].
    destruct (Hc _ _ _ Ha) as [-> ->].
    unfold resetTile, mbind, M_bind, getTile. rewrite Ha. done.
Qed.

Lemma cleared_tilesStep r d a :
  tileAt (tiles d) r.1 r.2 = Some a →
  tilesStep d (set_tiles (updTile cleared r.1 r.2 (tiles d)) d).
Proof.
  intros Ha. split; [done|]. simpl. apply matrixRel_updTile; [apply _|done].
Qed.

(** The pass over the tiles [l], entered with the flag [b]. *)
Lemma cycle_fold l :
  ∀ b d, coordsMatch (tiles d) →
    (∀ r, r ∈ l → is_Some (tileAt (tiles d) r.1 r.2)) →
    ∃ b' d', foldM cycleTile b l d = Ok (b', d') ∧
      tilesStep d d' ∧
      tileCount (tiles d') = tileCount (tiles d) ∧
      (b' = true → b = true ∧ d' = d ∧
         ∀ r a, r ∈ l → tileAt (tiles d) r.1 r.2 = Some a →
                Tile.type a ≠ wall → deadEnd d a = false) ∧
      (b' = false → b = false ∨ (wallCount (tiles d) < wallCount (tiles d'))%nat) ∧
      (wallCount (tiles d) ≤ wallCount (tiles d'))%nat.
Proof.
  induction l as [|r l IH]; intros b d Hc Hl.
  - exists b, d. simpl. split; [done|]. split; [reflexivity|].
    split; [done|]. split; [|split; [|lia]].
    + intros ->. split; [done|]. split; [done|]. intros ?? Hr. inversion Hr.
    + intros ->. by left.
  - destruct (Hl r) as [a Ha]; [left|].
    pose proof (cycleTile_spec b r d a Hc Ha) as Hstep.
    simpl. unfold mbind at 1. unfold M_bind.
    destruct (bool_decide (Tile.type a = wall) || negb (deadEnd d a)) eqn:E.
    + rewrite Hstep.
      destruct (IH b d Hc) as (b' & d' & Hrun & Hs & Hn & Ht & Hf & Hw).
      { intros. apply Hl. by right. }
      exists b', d'. split; [done|]. split; [done|]. split; [done|].
      split; [|done]. intros Hb. destruct (Ht Hb) as (-> & -> & Hall).
      split; [done|]. split; [done|].
      intros r' a' [->|Hr']%elem_of_cons Ha' Hnw; [|by eapply Hall].
      rewrite Ha in Ha'. injection Ha' as <-.
      apply orb_true_iff in E as [E|E].
      * apply bool_decide_eq_true in E. done.
      * by apply negb_true_iff in E.
    + rewrite Hstep. apply orb_false_iff in E as [E1 E2].
      apply bool_decide_eq_false in E1.
      set (d1 := set_tiles (updTile cleared r.1 r.2 (tiles d)) d).
      pose proof (cleared_tilesStep r d a Ha) as S1. fold d1 in S1.
      assert (Hc1 : coordsMatch (tiles d1)).
      { eapply coordsMatch_matrixRel; [apply S1|done]. }
      destruct (IH false d1 Hc1) as (b' & d' & Hrun & Hs & Hn & Ht & Hf & Hw).
      { intros r' Hr'. destruct (Hl r') as [a' Ha']; [by right|].
        destruct S1 as [_ [_ Hm]]. specialize (Hm r'.1 r'.2).
        rewrite Ha' in Hm. destruct Hm as (? & -> & _). done. }
      pose proof (countTiles_updTile Tile.isWall cleared _ _ _ _ Ha) as Hwc.
      pose proof (countTiles_updTile (λ _, true) cleared _ _ _ _ Ha) as Htc.
      assert (Tile.isWall a = false) as Hna.
      { unfold Tile.isWall. by apply bool_decide_eq_false. }
      rewrite Hna in Hwc. simpl in Hwc.
      exists b', d'. split; [done|]. split; [by etrans|].
      split; [unfold tileCount in *; simpl in *; lia|].
      split; [|split].
      * intros Hb. destruct (Ht Hb) as [? _]. done.
      * intros _. right. unfold wallCount in *. simpl in *. lia.
      * unfold wallCount in *. simpl in *. lia.
Qed.

Lemma cycle_spec d :
  coordsMatch (tiles d) →
  ∃ done d', cycle d = Ok (done, d') ∧
    tilesStep d d' ∧ coordsMatch (tiles d') ∧
    tileCount (tiles d') = tileCount (tiles d) ∧
    (if done
     then d' = d ∧
          ∀ i j a, tileAt (tiles d) i j = Some a → Tile.type a ≠ wall →
                   deadEnd d a = false
     else (wallCount (tiles d) < wallCount (tiles d'))%nat).
Proof.
  intros Hc. unfold cycle.
  destruct (cycle_fold (allRefs (tiles d)) true d Hc)
    as (b' & d' & Hrun & Hs & Hn & Ht & Hf & Hw).
  { intros [i j] Hr. by apply allRefs_elem. }
  exists b', d'. unfold mbind, M_bind, get. split; [done|].
  split; [done|]. split; [eapply coordsMatch_matrixRel; [apply Hs|done]|].
  split; [done|]. destruct b'.
  - destruct Ht as (_ & -> & Hall); [done|]. split; [done|].
    intros i j a Ha. apply (Hall (i, j)); [|done].
    apply allRefs_elem. by exists a.
  - destruct Hf as [|]; done.
Qed.

Lemma removeDeadEndsLoop_spec budget :
  ∀ d, coordsMatch (tiles d) →
    (tileCount (tiles d) - wallCount (tiles d) < budget)%nat →
    ∃ d', removeDeadEndsLoop budget d = Ok (tt, d') ∧
      tilesStep d d' ∧
      (wallCount (tiles d) ≤ wallCount (tiles d'))%nat ∧
      ∀ i j a, tileAt (tiles d') i j = Some a → Tile.type a ≠ wall →
               deadEnd d' a = false.
Proof.
  induction budget as [|k IH]; intros d Hc Hb; [lia|].
  destruct (cycle_spec d Hc) as (done & d1 & Hrun & Hs & Hc1 & Hn & Hd).
  simpl. unfold mbind, M_bind. rewrite Hrun. destruct done.
  - destruct Hd as [-> Hall]. exists d. split; [done|].
    split; [reflexivity|]. split; [lia|done].
  - pose proof (wallCount_le_tileCount (tiles d1)).
    destruct (IH d1 Hc1) as (d' & Hrun' & Hs' & Hw' & Hall); [lia|].
    exists d'. split; [done|]. split; [by etrans|]. split; [lia|done].
Qed.

(** C7, as the code has it: on a matrix with canonical tiles (the tile
    stored as [tiles[i][j]] has [x = i] and [y = j], which [resetTile(tile)]
    relies on), a pass that changes something ends
    with strictly more walls, the walls never outnumber the tiles, and
    [removeDeadEnds] returns within any budget of passes above the number
    of tiles that are not walls; then every tile that is not a wall and lies
    in no room has at least two cardinal neighbours that are not walls. *)
Theorem removeDeadEnds_terminates (d : Dungeon) (budget : nat) :
  coordsMatch (tiles d) →
  (tileCount (tiles d) - wallCount (tiles d) < budget)%nat →
  (∀ d1 done d2, coordsMatch (tiles d1) → cycle d1 = Ok (done, d2) →
     if done then d2 = d1
     else (wallCount (tiles d1) < wallCount (tiles d2) ≤ tileCount (tiles d1))%nat) ∧
  ∃ d', removeDeadEnds budget d = Ok (tt, d') ∧
    ∀ i j a, tileAt (tiles d') i j = Some a →
      Tile.type a ≠ wall →
      (∀ rm, rm ∈ rooms d' → containsTile rm (Tile.x a) (Tile.y a) = false) →
      (2 ≤ length (notType wall (cardinal (tiles d') a)))%nat.
Proof.
  intros Hc Hb. split.
  - intros d1 done d2 Hc1 Hrun.
    destruct (cycle_spec d1 Hc1) as (done' & d2' & Hrun' & _ & _ & Hn & Hd).
    rewrite Hrun in Hrun'. injection Hrun' as <- <-.
    destruct done; [by destruct Hd|].
    pose proof (wallCount_le_tileCount (tiles d2)). lia.
  - destruct (removeDeadEndsLoop_spec budget d Hc Hb) as (d' & Hrun & _ & _ & Hall).
    exists d'. split; [done|]. intros i j a Ha Hnw Hrooms.
    specialize (Hall i j a Ha Hnw). unfold deadEnd in Hall.
    apply andb_false_iff in Hall as [Hlen|Hex].
    + apply Z.leb_gt in Hlen. lia.
    + apply negb_false_iff, existsb_exists in Hex as (rm & Hin & Hct).
      rewrite Hrooms in Hct; [done|]. by apply list_elem_of_In.
Qed.

End RemoveDeadEnds.

Lemma coordsMatchb_correct m : coordsMatchb m = true → coordsMatch m.
Proof.
  unfold coordsMatchb. rewrite forallb_forall. intros Hall i j a Ha.
  specialize (Hall (i, j)). simpl in Hall. rewrite Ha in Hall.
  assert (Hin : (i, j) ∈ allRefs m) by (apply allRefs_elem; eauto).
  apply list_elem_of_In, Hall, andb_true_iff in Hin as [Hx Hy]. lia.
Qed.

Lemma removeDeadEnds_terminates_witness :
  let env := example mazeDraws in
  (∀ d1 done d2, coordsMatch (tiles d1) → cycle (H := env) d1 = Ok (done, d2) →
     if done then d2 = d1
     else (wallCount (tiles d1) < wallCount (tiles d2) ≤ tileCount (tiles d1))%nat) ∧
  ∃ d', removeDeadEnds (H := env) 60 connected = Ok (tt, d') ∧
    ∀ i j a, tileAt (tiles d') i j = Some a →
      Tile.type a ≠ wall →
      (∀ rm, rm ∈ rooms d' → containsTile rm (Tile.x a) (Tile.y a) = false) →
      (2 ≤ length (notType wall (cardinal (tiles d') a)))%nat.
Proof.
  intros env.
  apply (removeDeadEnds_terminates (H := env) connected 60).
  - apply coordsMatchb_correct. vm_compute. reflexivity.
  - apply Nat.ltb_lt. vm_compute. reflexivity.
Defined.

(** The stage of the witness has dead ends: the walls go from 45 to 51. *)
Example removeDeadEnds_fills_dead_ends :
  wallCount (tiles connected) = 45%nat ∧
  wallCount (tiles (after (removeDeadEnds (H := example mazeDraws) 60) connected))
  = 51%nat.
Proof. vm_compute. done. Qed.

(** ** fill *)

Lemma range_0_nat (k : nat) : range 0 (Z.of_nat k) = Z.of_nat <$> seq 0 k.
Proof.
  unfold range. rewrite Z.sub_0_r, Nat2Z.id. apply list_fmap_ext.
  intros _ x _. lia.
Qed.

Lemma pushTiles_alter {A} (g : A → Tile.t) (x : Z) (ys : list A) :
  ∀ m, foldl (λ m y, pushTile x (g y) m) m ys
       = alter (λ col, col ++ (g <$> ys)) (Z.to_nat x) m.
Proof.
  induction ys as [|y ys IH]; intros m; simpl.
  - symmetry. apply list_alter_id. intros col. apply app_nil_r.
  - rewrite IH. unfold pushTile. rewrite list_alter_alter_eq.
    apply list_alter_ext; [|done]. intros col _. simpl.
    by rewrite <- app_assoc.
Qed.

Lemma length_allocated ty w h m :
  length (allocated ty w h m) = (length m + w)%nat.
Proof. unfold allocated. by rewrite length_imap, length_app, length_replicate. Qed.

Lemma allocated_lookup ty w h m i :
  allocated ty w h m !! i
  = (λ col, if (i <? w)%nat then col ++ freshColumn ty (Z.of_nat i) h else col)
      <$> (m ++ replicate w []) !! i.
Proof. unfold allocated. by rewrite list_lookup_imap. Qed.

Lemma fill_allocate_nat ty (k : nat) h m :
  fill_allocate ty (Z.of_nat k) h m = allocated ty k h m.
Proof.
  unfold fill_allocate. rewrite range_0_nat.
  induction k as [|k IH].
  - unfold allocated. apply list_eq. intros i. rewrite list_lookup_imap.
    simpl. rewrite app_nil_r. by destruct (m !! i).
  - rewrite seq_S, fmap_app, foldl_app, IH. simpl.
    rewrite (pushTiles_alter (λ y, Tile.new ty (Z.of_nat k) y)), Nat2Z.id.
    fold (freshColumn ty (Z.of_nat k) h).
    unfold pushColumn. apply list_eq. intros i.
    rewrite list_lookup_alter.
    rewrite (allocated_lookup ty (S k)).
    rewrite replicate_S_end, app_assoc.
    set (base := m ++ replicate k []).
    assert (Hlen : length (allocated ty k h m) = length base).
    { rewrite length_allocated. unfold base.
      by rewrite length_app, length_replicate. }
    pose proof (allocated_lookup ty k h m) as Hal. fold base in Hal.
    assert (Hext : ∀ j, (allocated ty k h m ++ [[]]) !! j
              = if decide (j < length base)%nat then allocated ty k h m !! j
                else if decide (j = length base) then Some [] else None).
    { intros j. case_decide.
      - by rewrite lookup_app_l by lia.
      - case_decide.
        + subst. rewrite lookup_app_r by lia. by rewrite Hlen, Nat.sub_diag.
        + apply lookup_ge_None_2. rewrite length_app. simpl. lia. }
    assert (Hbase : ∀ j, (base ++ [[]]) !! j
              = if decide (j < length base)%nat then base !! j
                else if decide (j = length base) then Some [] else None).
    { intros j. case_decide.
      - by rewrite lookup_app_l by lia.
      - case_decide.
        + subst. rewrite lookup_app_r by lia. by rewrite Nat.sub_diag.
        + apply lookup_ge_None_2. rewrite length_app. simpl. lia. }
    assert (Hk : (k ≤ length base)%nat).
    { unfold base. rewrite length_app, length_replicate. lia. }
    rewrite !Hext, Hbase, !Hal.
    destruct (decide (k = i)) as [<-|Hne].
    + replace (k <? S k)%nat with true by (symmetry; apply Nat.ltb_lt; lia).
      rewrite Nat.ltb_irrefl.
      repeat case_decide; try lia; try done.
      by destruct (base !! k).
    + repeat case_decide; try lia; try done.
      * destruct (base !! i); [|done]. simpl. f_equal.
        destruct (i <? k)%nat eqn:E1, (i <? S k)%nat eqn:E2; try done.
        -- apply Nat.ltb_lt in E1. apply Nat.ltb_ge in E2. lia.
        -- apply Nat.ltb_ge in E1. apply Nat.ltb_lt in E2. lia.
      * simpl. replace (i <? S k)%nat with false; [done|].
        symmetry. apply Nat.ltb_ge. lia.
Qed.

Lemma fill_allocate_closed ty w h m :
  fill_allocate ty w h m = allocated ty (Z.to_nat w) h m.
Proof.
  rewrite <- fill_allocate_nat. unfold fill_allocate, range.
  by rewrite !Z.sub_0_r, Nat2Z.id.
Qed.

Lemma foldl_rel {A B} (R : B → B → Prop) (f : B → A → B) (l : list A) :
  Reflexive R → Transitive R → (∀ b x, R b (f b x)) → ∀ b, R b (foldl f b l).
Proof.
  intros HR HT Hf. induction l as [|x l IH]; intros b; simpl; [done|].
  etrans; [apply Hf|apply IH].
Qed.

Global Instance linksOnly_refl : Reflexive linksOnly.
Proof. by intros a. Qed.
Global Instance linksOnly_trans : Transitive linksOnly.
Proof. unfold linksOnly. intros a1 a2 a3 ??. naive_solver congruence. Qed.

Lemma fill_wire_linksOnly w h m : matrixRel linksOnly m (fill_wire w h m).
Proof.
  unfold fill_wire. apply foldl_rel; [apply _..|]. intros m1 x.
  apply foldl_rel; [apply _..|]. intros m2 y.
  apply matrixRel_updTile; [apply _|]. intros a _. done.
Qed.

Lemma tileAt_allocated_old ty w h m i j a :
  tileAt m i j = Some a → tileAt (allocated ty w h m) i j = Some a.
Proof.
  intros (Hi & Hj & col & Hcol & Ha)%tileAt_Some. apply tileAt_Some.
  split; [done|]. split; [done|].
  eexists. rewrite allocated_lookup, (lookup_app_l_Some _ _ _ _ Hcol). simpl.
  split; [done|]. destruct (_ <? _)%nat; [|done].
  by apply lookup_app_l_Some.
Qed.

(** What [fill] does to the matrix. *)
Lemma fill_Ok ty d u d' :
  fill ty d = Ok (u, d') ↔
  ∃ st, stage d = Some st ∧
    d' = set_tiles (fill_wire (width st) (height st)
                      (allocated ty (Z.to_nat (width st)) (height st) (tiles d))) d.
Proof.
  unfold fill. split.
  - intros Hrun. run_inv. eexists. split; [done|]. by rewrite fill_allocate_closed.
  - intros (st & Hst & ->). unfold mbind, M_bind, getSome. rewrite Hst.
    unfold modify. destruct u. by rewrite fill_allocate_closed.
Qed.

(** ** The stages of build *)

Global Instance pipelineStep_refl : Reflexive pipelineStep.
Proof. intros d. split; [reflexivity|]. done. Qed.
Global Instance pipelineStep_trans : Transitive pipelineStep.
Proof.
  intros d1 d2 d3 (M1 & R1 & O1 & S1) (M2 & R2 & O2 & S2).
  split; [by etrans|]. split; [by etrans|]. split; congruence.
Qed.

Lemma tilesStep_pipelineStep d d' : tilesStep d d' → pipelineStep d d'.
Proof.
  intros [(Ho & Hs & _ & Hr & _) Hm]. split; [done|]. by rewrite Hr.
Qed.

Lemma doorStep_pipelineStep refs d d' : doorStep refs d d' → pipelineStep d d'.
Proof.
  intros ([Hl Hm] & Ho & Hs & Hr & _). split; [|by rewrite Hr].
  split; [done|]. intros i j. specialize (Hm i j).
  destruct (tileAt (tiles d) i j); [|done].
  destruct Hm as (a' & Ha' & (Hc & _) & _). eauto.
Qed.

Lemma randBetween_pipelineStep lo hi d v d' :
  randBetween lo hi d = Ok (v, d') → pipelineStep d d'.
Proof. intros Hr. by eapply doorStep_pipelineStep, (randBetween_doorStep []). Qed.

Lemma startRegion_pipelineStep ty d r d' :
  startRegion ty d = Ok (r, d') → pipelineStep d d'.
Proof. intros [-> ->]%startRegion_Ok. split; [reflexivity|]. done. Qed.

Lemma setTile_pipelineStep x y ty d a d' :
  setTile x y ty d = Ok (a, d') → pipelineStep d d'.
Proof. intros Hs. by eapply tilesStep_pipelineStep, setTile_tilesOnly. Qed.

Lemma resetTile_tilesStep x y d a d' :
  resetTile x y d = Ok (a, d') → tilesStep d d'.
Proof.
  intros (a0 & Ha & -> & ->)%resetTile_Ok. split; [done|]. simpl.
  apply matrixRel_updTile; [apply _|done].
Qed.

Lemma canCarve_Ok cell offset d b d' :
  canCarve cell offset d = Ok (b, d') → d' = d.
Proof.
  unfold canCarve. intros Hrun.
  apply bind_Ok in Hrun as (m & ? & [-> ->]%get_Ok & Hrun).
  destruct (tileAt _ _ _); [|by run_inv].
  run_inv. case_bool_decide; by run_inv.
Qed.

Section Stages.
Context `{Collaborators}.

Lemma unmade_Ok cell d l d' : unmade cell d = Ok (l, d') → d' = d.
Proof.
  unfold unmade. intros Hrun. symmetry. revert Hrun.
  apply (foldM_rel eq); [apply _..|].
  intros b v d1 b' d1' _ Hb. run_inv.
  match goal with Hc : canCarve _ _ _ = _ |- _ => by apply canCarve_Ok in Hc end.
Qed.

Lemma uniformPick_pipelineStep l d p d' :
  uniformPick l d = Ok (p, d') → pipelineStep d d'.
Proof.
  unfold uniformPick. intros Hrun.
  apply bind_Ok in Hrun as (rand & d1 & H1 & Hrun).
  apply randBetween_pipelineStep in H1.
  destruct (_ !! _); [|done]. by run_inv.
Qed.

Lemma chooseDirection_pipelineStep l last d p d' :
  chooseDirection l last d = Ok (p, d') → pipelineStep d d'.
Proof.
  unfold chooseDirection. intros Hrun.
  apply bind_Ok in Hrun as (o & ? & [-> ->]%get_Ok & Hrun).
  apply bind_Ok in Hrun as (prefer & d1 & H1 & Hrun).
  assert (S1 : pipelineStep d d1).
  { destruct last; [|by run_inv]. case_bool_decide; [|by run_inv].
    apply bind_Ok in H1 as (v & d2 & H1 & H2). run_inv.
    by eapply randBetween_pipelineStep. }
  etrans; [exact S1|].
  destruct prefer, last; try (by eapply uniformPick_pipelineStep).
  by run_inv.
Qed.

Lemma growStep_pipelineStep cells last d r d' :
  growStep cells last d = Ok (r, d') → pipelineStep d d'.
Proof.
  unfold growStep. intros Hrun. destruct (list.last cells) as [cell|]; [|by run_inv].
  apply bind_Ok in Hrun as (l & d1 & ->%unmade_Ok & Hrun).
  case_bool_decide; [|by run_inv].
  apply bind_Ok in Hrun as (dir & d2 & H2 & Hrun).
  apply bind_Ok in Hrun as (a1 & d3 & H3 & Hrun).
  apply bind_Ok in Hrun as (a2 & d4 & H4 & Hrun).
  run_inv.
  etrans; [by eapply chooseDirection_pipelineStep|].
  etrans; by eapply setTile_pipelineStep.
Qed.

Lemma growLoop_pipelineStep remaining :
  ∀ cells last d u d',
    growLoop remaining cells last d = Ok (u, d') → pipelineStep d d'.
Proof.
  induction remaining as [|k IH]; intros cells last d u d' Hrun; simpl in Hrun.
  - by run_inv.
  - case_bool_decide; [by run_inv|].
    apply bind_Ok in Hrun as ([cells' last'] & d1 & H1 & Hrun).
    etrans; [by eapply growStep_pipelineStep|by eapply IH].
Qed.

Lemma growMaze_pipelineStep x y d u d' :
  growMaze x y d = Ok (u, d') → pipelineStep d d'.
Proof.
  unfold growMaze. intros Hrun.
  apply bind_Ok in Hrun as (m & ? & [-> ->]%get_Ok & Hrun).
  destruct (tileAt _ _ _); [|done].
  destruct (earlyOut _ _); [by run_inv|].
  apply bind_Ok in Hrun as (r & d1 & H1 & Hrun).
  apply bind_Ok in Hrun as (a & d2 & H2 & Hrun).
  etrans; [by eapply startRegion_pipelineStep|].
  etrans; [by eapply setTile_pipelineStep|by eapply growLoop_pipelineStep].
Qed.

Lemma fillMazes_pipelineStep d u d' :
  fillMazes d = Ok (u, d') → pipelineStep d d'.
Proof.
  unfold fillMazes. intros Hrun.
  apply bind_Ok in Hrun as (st & ? & [_ ->]%getSome_Ok & Hrun).
  revert Hrun. apply forEach_rel; [apply _..|]. intros y d1 u1 d1' _.
  apply forEach_rel; [apply _..|]. intros x d2 u2 d2' _ Hb.
  apply bind_Ok in Hb as (a & ? & [_ ->]%getTile_Ok & Hb).
  case_bool_decide; [by run_inv|by eapply growMaze_pipelineStep].
Qed.

Lemma addRoomAttempt_pipelineStep d u d' :
  addRoomAttempt d = Ok (u, d') → pipelineStep d d'.
Proof.
  unfold addRoomAttempt. intros Hrun.
  apply bind_Ok in Hrun as (r & d1 & H1 & Hrun).
  apply candidate_Ok in H1 as (st & size & _ & _ & _ & _ & Hsame).
  assert (S1 : pipelineStep d d1).
  { rewrite <- Hsame. split; [reflexivity|done]. }
  etrans; [exact S1|].
  apply bind_Ok in Hrun as (rs & ? & [-> ->]%get_Ok & Hrun).
  destruct (existsb _ _); [by run_inv|].
  apply bind_Ok in Hrun as (u1 & d2 & ->%modify_Ok & Hrun).
  apply bind_Ok in Hrun as (rg & d3 & H3 & Hrun).
  etrans; [|etrans; [by eapply startRegion_pipelineStep|
                     by eapply tilesStep_pipelineStep, carveArea_tilesStep]].
  split; [reflexivity|]. simpl. split; [by apply prefix_app_r|done].
Qed.

Lemma addRooms_pipelineStep d u d' :
  addRooms d = Ok (u, d') → pipelineStep d d'.
Proof.
  unfold addRooms. intros Hrun.
  apply bind_Ok in Hrun as (o & ? & [-> ->]%get_Ok & Hrun).
  apply bind_Ok in Hrun as (st & ? & [_ ->]%getSome_Ok & Hrun).
  revert Hrun. apply forEach_rel; [apply _..|].
  intros _ d1 u1 d1' _. apply addRoomAttempt_pipelineStep.
Qed.

Lemma connectRegions_pipelineStep d u d' :
  connectRegions d = Ok (u, d') → pipelineStep d d'.
Proof. intros Hrun. by eapply doorStep_pipelineStep, connectRegions_doorStep. Qed.

Lemma cycleTile_tilesStep done r d b d' :
  cycleTile done r d = Ok (b, d') → tilesStep d d'.
Proof.
  unfold cycleTile. intros Hrun.
  apply bind_Ok in Hrun as (a & ? & [_ ->]%tileOf_Ok & Hrun).
  case_bool_decide; [by run_inv|].
  apply bind_Ok in Hrun as (m & ? & [-> ->]%get_Ok & Hrun).
  apply bind_Ok in Hrun as (rs & ? & [-> ->]%get_Ok & Hrun).
  destruct (_ && _); [|by run_inv].
  apply bind_Ok in Hrun as (a' & d1 & H1 & Hrun). run_inv.
  by eapply resetTile_tilesStep.
Qed.

Lemma removeDeadEnds_tilesStep budget :
  ∀ d u d', removeDeadEnds budget d = Ok (u, d') → tilesStep d d'.
Proof.
  unfold removeDeadEnds.
  induction budget as [|k IH]; intros d u d' Hrun; simpl in Hrun; [done|].
  apply bind_Ok in Hrun as (done & d1 & H1 & Hrun).
  assert (S1 : tilesStep d d1).
  { unfold cycle in H1.
    apply bind_Ok in H1 as (m & ? & [-> ->]%get_Ok & H1). revert H1.
    apply foldM_rel; [apply _..|]. intros ????? _. apply cycleTile_tilesStep. }
  destruct done; [by run_inv|]. etrans; [exact S1|by eapply IH].
Qed.

End Stages.

(** ** The matrix of a new instance is canonical when removeDeadEnds starts *)

Lemma freshColumn_lookup ty x h j a :
  freshColumn ty x h !! j = Some a → a = Tile.new ty x (Z.of_nat j).
Proof.
  unfold freshColumn, range. rewrite !list_lookup_fmap.
  destruct (seq _ _ !! j) as [k|] eqn:E; [|done].
  apply lookup_seq in E as [-> _]. simpl. intros [= <-]. f_equal.
Qed.

Lemma allocated_empty_coordsMatch ty w h : coordsMatch (allocated ty w h []).
Proof.
  intros i j a (Hi & Hj & col & Hcol & Ha)%tileAt_Some.
  rewrite allocated_lookup in Hcol. simpl in Hcol.
  destruct (replicate w [] !! Z.to_nat i) as [c|] eqn:E; [|done].
  apply lookup_replicate in E as [-> _]. simpl in Hcol.
  destruct (_ <? _)%nat; simplify_eq/=.
  apply freshColumn_lookup in Ha as ->. simpl. lia.
Qed.

Lemma coordsMatch_linksOnly m m' :
  matrixRel linksOnly m m' → coordsMatch m → coordsMatch m'.
Proof.
  intros [_ Hm] Hc i j a' Ha'. specialize (Hm i j).
  destruct (tileAt m i j) as [a|] eqn:Ea; [|congruence].
  destruct Hm as (a'' & Ha'' & _ & Hx & Hy & _). simplify_eq.
  destruct (Hc _ _ _ Ea). split; congruence.
Qed.

Lemma build_canonical_before_removeDeadEnds `{Collaborators} slug st d u d' :
  tiles d = [] →
  beforeRemoveDeadEnds slug st d = Ok (u, d') →
  coordsMatch (tiles d').
Proof.
  unfold beforeRemoveDeadEnds. intros Hnew Hrun.
  apply bind_Ok in Hrun as ([] & d1 & H1 & Hrun).
  apply bind_Ok in Hrun as ([] & d2 & H2 & Hrun).
  apply bind_Ok in Hrun as (u3 & d3 & H3 & Hrun).
  apply bind_Ok in Hrun as (u4 & d4 & H4 & Hrun).
  apply validate_Ok in H1 as (_ & _ & _ & _ & Ht1 & _).
  apply fill_Ok in H2 as (st' & _ & ->).
  assert (Hp : pipelineStep
                 (set_tiles (fill_wire (width st') (height st')
                    (allocated wall (Z.to_nat (width st')) (height st') (tiles d1)))
                    d1) d').
  { etrans; [by eapply addRooms_pipelineStep|].
    etrans; [by eapply fillMazes_pipelineStep|].
    by eapply connectRegions_pipelineStep. }
  destruct Hp as [Hm _]. eapply coordsMatch_matrixRel; [exact Hm|]. simpl.
  eapply coordsMatch_linksOnly; [apply fill_wire_linksOnly|].
  rewrite Ht1, Hnew. apply allocated_empty_coordsMatch.
Qed.

(** ** build *)

Section Build.
Context `{Collaborators}.

Lemma build_Ok slug budget s d r d' :
  build slug budget s d = Ok (r, d') →
  ∃ st d1 d2,
    validate slug (mkStage (default 5 (in_width s)) (default 5 (in_height s))
                           (in_seed s)) d = Ok (tt, d1) ∧
    stage d1 = Some st ∧
    fill wall d1 = Ok (tt, d2) ∧
    pipelineStep d2 d' ∧
    r = mkResults (rooms d') (tiles d') (seed d').
Proof.
  unfold build. intros Hrun.
  apply bind_Ok in Hrun as ([] & d1 & H1 & Hrun).
  apply bind_Ok in Hrun as ([] & d2 & H2 & Hrun).
  apply bind_Ok in Hrun as (u3 & d3 & H3 & Hrun).
  apply bind_Ok in Hrun as (u4 & d4 & H4 & Hrun).
  apply bind_Ok in Hrun as (u5 & d5 & H5 & Hrun).
  apply bind_Ok in Hrun as (o & ? & [-> ->]%get_Ok & Hrun).
  apply bind_Ok in Hrun as (u6 & d6 & H6 & Hrun).
  apply bind_Ok in Hrun as (dd & ? & [-> ->]%get_Ok & Hrun).
  apply ret_Ok in Hrun as [<- <-].
  pose proof (validate_Ok _ _ _ _ _ H1) as (_ & _ & Hst & _).
  eexists _, d1, d2. split; [done|]. split; [done|]. split; [done|].
  split; [|done].
  etrans; [by eapply addRooms_pipelineStep|].
  etrans; [by eapply fillMazes_pipelineStep|].
  etrans; [by eapply connectRegions_pipelineStep|].
  destruct (removeDeadEndsOpt _); [|by run_inv].
  by eapply tilesStep_pipelineStep, removeDeadEnds_tilesStep.
Qed.

(** C10, as the code has it.  [fill] never clears the matrix: it appends
    [stage.width] empty columns and pushes [stage.height] new tiles onto each
    of the columns 0..[stage.width]-1 of the result, which are the appended
    columns only if the matrix was empty; then it rewrites links only.
    [build] resets neither the matrix nor the rooms: when a call returns,
    the matrix has [stage.width] more columns than it had before the call,
    every tile object that was in it is still at its place with its
    coordinates, and the rooms that were in the list are still its first
    entries. *)
Theorem instance_is_single_use :
  (∀ ty d st, stage d = Some st →
     ∃ m', fill ty d = Ok (tt, set_tiles m' d) ∧
           matrixRel linksOnly
             (allocated ty (Z.to_nat (width st)) (height st) (tiles d)) m') ∧
  (∀ slug budget s d r d',
     build slug budget s d = Ok (r, d') →
     ∃ st, stage d' = Some st ∧
       res_tiles r = tiles d' ∧ res_rooms r = rooms d' ∧
       length (tiles d') = (length (tiles d) + Z.to_nat (width st))%nat ∧
       (∀ i j a, tileAt (tiles d) i j = Some a →
          ∃ a', tileAt (tiles d') i j = Some a' ∧
                Tile.x a' = Tile.x a ∧ Tile.y a' = Tile.y a) ∧
       rooms d `prefix_of` rooms d').
Proof.
  split.
  - intros ty d st Hst. eexists. split.
    + apply fill_Ok. eauto.
    + apply fill_wire_linksOnly.
  - intros slug budget s d r d' Hrun.
    apply build_Ok in Hrun as (st & d1 & d2 & Hv & Hst & Hf & Hp & ->).
    apply validate_Ok in Hv as (_ & _ & _ & _ & Ht1 & Hr1 & _).
    apply fill_Ok in Hf as (st' & Hst' & ->).
    rewrite Hst in Hst'. injection Hst' as <-. rename st into st'.
    destruct Hp as ([Hlen Hm] & Hrooms & _ & Hstage). simpl in *.
    exists st'. split; [congruence|]. split; [done|]. split; [done|].
    pose proof (fill_wire_linksOnly (width st') (height st')
      (allocated wall (Z.to_nat (width st')) (height st') (tiles d1)))
      as [Hlen' Hm'].
    split; [|split].
    + rewrite Hlen, Hlen', length_allocated. by rewrite Ht1.
    + intros i j a Ha. rewrite <- Ht1 in Ha.
      apply (tileAt_allocated_old wall (Z.to_nat (width st')) (height st')) in Ha.
      specialize (Hm' i j). rewrite Ha in Hm'.
      destruct Hm' as (a1 & Ha1 & _ & Hx1 & Hy1 & _).
      specialize (Hm i j). rewrite Ha1 in Hm.
      destruct Hm as (a2 & Ha2 & Hx2 & Hy2 & _).
      exists a2. split; [done|]. split; congruence.
    + by rewrite <- Hr1.
Qed.

End Build.

(** C5 as stated fails: the seed 0 is falsy, so [validate] seeds the generator
    with a generated slug, and two runs with the same options, stage and seed
    place different rooms. *)
Lemma build_falsy_seed_counterexample :
  let env := collaborators bySeed Object_toString in
  let s := mkStageInput (Some 7) (Some 7) (SeedNumber 0) in
  res_rooms <$> valueOf (build (H := env) "ab" 0 s (Dungeon_new defaultOptions))
    = Some [mkRoom 3 3 3 3] ∧
  res_rooms <$> valueOf (build (H := env) "abc" 0 s (Dungeon_new defaultOptions))
    = Some [mkRoom 1 1 3 3].
Proof. vm_compute. done. Qed.

Lemma instance_is_single_use_witness :
  let env := example [] in
  let st := mkStage 5 5 (SeedString "s1") in
  (∃ m', fill wall builtOnce = Ok (tt, set_tiles m' builtOnce) ∧
         matrixRel linksOnly
           (allocated wall (Z.to_nat (width st)) (height st) (tiles builtOnce)) m') ∧
  (∃ st, stage builtTwice = Some st ∧
     res_tiles resultTwice = tiles builtTwice ∧
     res_rooms resultTwice = rooms builtTwice ∧
     length (tiles builtTwice) = (length (tiles builtOnce) + Z.to_nat (width st))%nat ∧
     (∀ i j a, tileAt (tiles builtOnce) i j = Some a →
        ∃ a', tileAt (tiles builtTwice) i j = Some a' ∧
              Tile.x a' = Tile.x a ∧ Tile.y a' = Tile.y a) ∧
     rooms builtOnce `prefix_of` rooms builtTwice).
Proof.
  intros env st. split.
  - refine (proj1 (instance_is_single_use (H := env)) wall builtOnce st _).
    vm_compute. reflexivity.
  - refine (proj2 (instance_is_single_use (H := env)) "slug" 0%nat stage5 builtOnce
              resultTwice builtTwice _).
    vm_compute. reflexivity.
Defined.

(** C10 as stated fails in what it says of [fill]: on the matrix that a first
    [build] for a 5 by 5 stage left, [fill] appends five columns that stay
    empty, and the new tiles make the old columns ten tiles long. *)
Lemma fill_on_used_matrix_counterexample :
  let m := tiles (after (fill wall) builtOnce) in
  length m = 10%nat ∧
  length <$> m = [10; 10; 10; 10; 10; 0; 0; 0; 0; 0]%nat ∧
  (Tile.type <$> tileAt m 1 1) = Some floor ∧
  (rooms builtOnce = [mkRoom 1 1 1 1] ∧ rooms builtTwice = [mkRoom 1 1 1 1]).
Proof. vm_compute. done. Qed.

(** ** A second build on a used instance *)

Section UsedInstance.
Context `{Collaborators}.

Lemma removeDeadEndsLoop_unroll d d' k :
  cycle d = Ok (false, d') →
  removeDeadEndsLoop (S k) d = removeDeadEndsLoop k d'.
Proof. intros Hc. simpl. unfold mbind, M_bind. by rewrite Hc. Qed.

(** A pass that changes nothing and still reports a change repeats for ever. *)
Lemma removeDeadEndsLoop_stuck d :
  cycle d = Ok (false, d) → ∀ budget, removeDeadEndsLoop budget d = Timeout.
Proof.
  intros Hc budget. induction budget as [|k IH]; [done|].
  by rewrite (removeDeadEndsLoop_unroll d d).
Qed.

Lemma build_from_removeDeadEnds slug budget s d d1 :
  beforeRemoveDeadEnds slug
    (mkStage (default 5 (in_width s)) (default 5 (in_height s)) (in_seed s)) d
    = Ok (tt, d1) →
  removeDeadEndsOpt (options d1) = true →
  build slug budget s d
  = (removeDeadEnds budget;; d ← get id;
     mret (mkResults (rooms d) (tiles d) (seed d))) d1.
Proof.
  unfold build, beforeRemoveDeadEnds, mbind, M_bind.
  destruct (validate _ _ _) as [[[] ?]| |]; [|done..].
  destruct (fill _ _) as [[[] ?]| |]; [|done..].
  destruct (addRooms _) as [[[] ?]| |]; [|done..].
  destruct (fillMazes _) as [[[] ?]| |]; [|done..].
  destruct (connectRegions _) as [[[] ?]| |]; [|done..].
  intros [= ->] Ho. unfold get. by rewrite Ho.
Qed.

End UsedInstance.

(** On the used instance the new tiles of the second [fill] are stored below
    the old ones with the coordinates of the old ones and without links; the
    mazes reach them, [removeDeadEnds] takes each for a dead end and resets
    the old tile in its place: after four passes nothing changes any more,
    every pass reports a change, and the loop does not end within any budget
    of passes. *)
Lemma secondRun_loops (budget : nat) :
  removeDeadEndsLoop (H := example mazeDraws) budget (secondRun 0) = Timeout.
Proof.
  destruct budget as [|budget]; [done|].
  rewrite (removeDeadEndsLoop_unroll _ (secondRun 1)) by (vm_compute; reflexivity).
  destruct budget as [|budget]; [done|].
  rewrite (removeDeadEndsLoop_unroll _ (secondRun 2)) by (vm_compute; reflexivity).
  destruct budget as [|budget]; [done|].
  rewrite (removeDeadEndsLoop_unroll _ (secondRun 3)) by (vm_compute; reflexivity).
  destruct budget as [|budget]; [done|].
  rewrite (removeDeadEndsLoop_unroll _ (secondRun 4)) by (vm_compute; reflexivity).
  apply removeDeadEndsLoop_stuck. vm_compute. reflexivity.
Qed.

(** So the second [build] does not return. *)
Example second_build_never_returns (budget : nat) :
  build (H := example mazeDraws) "slug" budget stage9 usedInstance = Timeout.
Proof.
  rewrite (build_from_removeDeadEnds (H := example mazeDraws) _ _ _ _ (secondRun 0));
    [|vm_compute; reflexivity..].
  unfold mbind, M_bind, removeDeadEnds. by rewrite secondRun_loops.
Qed.

(** C7 as stated fails: the loop does not terminate on every grid.  The
    matrix that the second [build] on the used instance hands to
    [removeDeadEnds] holds tiles that are not stored at their own
    coordinates; from the fifth pass on, a pass reports a change and leaves
    the matrix, and with it the number of walls, as it was; the loop does not
    end within any budget of passes. *)
Lemma removeDeadEnds_loops_counterexample :
  let env := example mazeDraws in
  coordsMatchb (tiles (secondRun 0)) = false ∧
  cycle (H := env) (secondRun 4) = Ok (false, secondRun 4) ∧
  wallCount (tiles (after (cycle (H := env)) (secondRun 4)))
    = wallCount (tiles (secondRun 4)) ∧
  ∀ budget, removeDeadEnds (H := env) budget (secondRun 0) = Timeout.
Proof.
  intros env. split; [vm_compute; reflexivity|].
  split; [vm_compute; reflexivity|].
  split; [vm_compute; reflexivity|].
  apply secondRun_loops.
Qed.

(** ** Tile.isCorner, in closed form *)

(** X1: [isCorner()] is true exactly when one of the north and south
    neighbours is a floor and one of the east and west neighbours is a floor:
    the tile has two floor neighbours among the four, on perpendicular
    sides. *)
Theorem isCorner_perpendicular_floors (m : TileMatrix) (a : Tile.t) :
  isCorner m a =
  xorb (floorAt m (nb_n (Tile.neighbors a))) (floorAt m (nb_s (Tile.neighbors a)))
  && xorb (floorAt m (nb_e (Tile.neighbors a))) (floorAt m (nb_w (Tile.neighbors a))).
Proof.
  unfold isCorner.
  by destruct (floorAt m (nb_n _)), (floorAt m (nb_e _)),
              (floorAt m (nb_s _)), (floorAt m (nb_w _)).
Qed.

(** ** getTile, setTile and resetTile *)

Lemma tileAt_None m i j :
  tileAt m i j = None ↔
  i < 0 ∨ j < 0 ∨ Z.of_nat (length m) ≤ i ∨
  ∃ col, m !! Z.to_nat i = Some col ∧ Z.of_nat (length col) ≤ j.
Proof.
  destruct (decide (0 ≤ i ∧ 0 ≤ j)) as [[Hi Hj]|Hn].
  - rewrite tileAt_nat by done. split.
    + intros Hm. destruct (m !! Z.to_nat i) as [col|] eqn:E; simpl in Hm.
      * apply lookup_ge_None in Hm. right; right; right. exists col. split; [done|lia].
      * apply lookup_ge_None in E. lia.
    + intros [?|[?|[Hl|(col & Hc & Hl)]]]; [lia..| |].
      * rewrite (proj2 (lookup_ge_None m (Z.to_nat i))) by lia. done.
      * rewrite Hc. simpl. apply lookup_ge_None. lia.
  - rewrite tileAt_neg by done. split; [|done]. intros _. lia.
Qed.

(** X2: [getTile(x, y)] returns the tile stored as [tiles[x][y]] and leaves
    the instance as it is when [x] is the index of a column and [y] an index
    into that column; for every other pair, a negative one included, it
    throws a [RangeError]. *)
Theorem getTile_in_bounds_or_RangeError (x y : Z) (d : Dungeon) :
  (∀ a d', getTile x y d = Ok (a, d') ↔
     d' = d ∧ 0 ≤ x ∧ 0 ≤ y ∧
     ∃ col, tiles d !! Z.to_nat x = Some col ∧ col !! Z.to_nat y = Some a) ∧
  ((∃ msg, getTile x y d = Throw (RangeError msg)) ↔
     x < 0 ∨ y < 0 ∨ Z.of_nat (length (tiles d)) ≤ x ∨
     ∃ col, tiles d !! Z.to_nat x = Some col ∧ Z.of_nat (length col) ≤ y).
Proof.
  split.
  - intros a d'. rewrite getTile_Ok, tileAt_Some. naive_solver.
  - rewrite <- tileAt_None. unfold getTile.
    destruct (tileAt (tiles d) x y); split; try done; eauto.
    intros [? ?]. done.
Qed.

Lemma set_tiles_same d : set_tiles (tiles d) d = d.
Proof. by destruct d. Qed.

Lemma set_tiles_twice m m' d : set_tiles m (set_tiles m' d) = set_tiles m d.
Proof. done. Qed.

Lemma assigned_idemp r ty a : assigned r ty (assigned r ty a) = assigned r ty a.
Proof. done. Qed.

(** X3: when [setTile(x, y, type)] returns, the tile at [(x, y)] has the type
    asked for (floor when none is given) and the id and type of the current
    region, and keeps its coordinates and links; it is the tile returned; no
    other tile and no other field of the instance has changed. *)
Theorem setTile_writes_one_tile (x y : Z) (ty : option TileType)
    (d d' : Dungeon) (a' : Tile.t) :
  setTile x y ty d = Ok (a', d') →
  ∃ a r, tileAt (tiles d) x y = Some a ∧ region d = Some r ∧
    Tile.type a' = default floor ty ∧
    Tile.region a' = region_id r ∧
    Tile.regionType a' = Some (region_type r) ∧
    coordsKept a a' ∧
    tileAt (tiles d') x y = Some a' ∧
    (∀ i j, (i, j) ≠ (x, y) → tileAt (tiles d') i j = tileAt (tiles d) i j) ∧
    tilesOnly d d'.
Proof.
  intros (a & r & Ha & Hr & -> & ->)%setTile_Ok. exists a, r.
  repeat split; try done; simpl.
  - rewrite tileAt_updTile, decide_True by done. by rewrite Ha.
  - intros i j Hne. rewrite tileAt_updTile, decide_False; [done|].
    intros [-> ->]. done.
Qed.

Lemma setTile_writes_one_tile_witness :
  let d := walled in
  let a' := Tile.mk floor (neighborsAt (tiles d) 1 1) 1 1 0 (Some room) in
  let d' := after (setTile 1 1 None) d in
  ∃ a r, tileAt (tiles d) 1 1 = Some a ∧ region d = Some r ∧
    Tile.type a' = default floor None ∧
    Tile.region a' = region_id r ∧
    Tile.regionType a' = Some (region_type r) ∧
    coordsKept a a' ∧
    tileAt (tiles d') 1 1 = Some a' ∧
    (∀ i j, (i, j) ≠ (1, 1) → tileAt (tiles d') i j = tileAt (tiles d) i j) ∧
    tilesOnly d d'.
Proof.
  intros d a' d'.
  apply (setTile_writes_one_tile 1 1 None d d' a').
  vm_compute. reflexivity.
Defined.

(** X4: [setTile] and [resetTile] fail on a tile that does not exist with the
    [RangeError] of [getTile], whether or not a region was started; on a tile
    that exists [setTile] fails with a [TypeError] while no region was
    started, and [resetTile] always returns. *)
Theorem setTile_resetTile_errors (x y : Z) (ty : option TileType) (d : Dungeon) :
  match tileAt (tiles d) x y with
  | None =>
      (∃ msg, setTile x y ty d = Throw (RangeError msg)) ∧
      (∃ msg, resetTile x y d = Throw (RangeError msg))
  | Some a =>
      match region d with
      | None => ∃ msg, setTile x y ty d = Throw (TypeError msg)
      | Some r => ∃ d', setTile x y ty d = Ok (assigned r ty a, d')
      end ∧
      ∃ d', resetTile x y d = Ok (cleared a, d')
  end.
Proof.
  unfold setTile, resetTile, mbind, M_bind, getTile, getSome, modify, mret, M_ret.
  destruct (tileAt (tiles d) x y) as [a|]; [|by eauto].
  destruct (region d); eauto.
Qed.

(** X5: reading back what was written: [getTile(x, y)] right after
    [setTile(x, y, type)] returns the tile that [setTile] returned and
    changes nothing; if [setTile] throws, so does the sequence, with the same
    exception. *)
Theorem setTile_then_getTile (x y : Z) (ty : option TileType) (d : Dungeon) :
  (setTile x y ty;; getTile x y) d = setTile x y ty d.
Proof.
  destruct (setTile x y ty d) as [[a' d']| |] eqn:E;
    unfold mbind at 1, M_bind at 1; rewrite E; [|done..].
  apply setTile_Ok in E as (a & r & Ha & _ & -> & ->).
  unfold getTile. simpl. rewrite tileAt_updTile, decide_True by done.
  by rewrite Ha.
Qed.

Lemma updTile_fixed f i j m a :
  tileAt m i j = Some a → f a = a → updTile f i j m = m.
Proof.
  intros [Hi [Hj (col & Hc & Ha)]]%tileAt_Some Hf. unfold updTile.
  apply Z.leb_le in Hi, Hj. rewrite Hi, Hj. simpl.
  apply list_eq. intros k. rewrite list_lookup_alter. case_decide; [subst k|done].
  rewrite Hc. simpl. f_equal.
  apply list_eq. intros k. rewrite list_lookup_alter. case_decide; [subst k|done].
  rewrite Ha. simpl. by rewrite Hf.
Qed.

Lemma updTile_updTile f g i j m :
  updTile f i j (updTile g i j m) = updTile (f ∘ g) i j m.
Proof.
  unfold updTile. case_match; [|done].
  rewrite list_alter_alter_eq. apply list_alter_ext; [|done].
  intros col _. simpl. by rewrite list_alter_alter_eq.
Qed.

(** X6: [resetTile] undoes [setTile] on a tile as [fill('wall')] leaves it: on a
    wall with region -1 and no region type, [setTile(x, y, type)] followed by
    [resetTile(x, y)] returns that tile and leaves the instance as it was. *)
Theorem resetTile_undoes_setTile (x y : Z) (ty : option TileType)
    (d : Dungeon) (a : Tile.t) :
  tileAt (tiles d) x y = Some a →
  Tile.type a = wall → Tile.region a = -1 → Tile.regionType a = None →
  is_Some (region d) →
  (setTile x y ty;; resetTile x y) d = Ok (a, d).
Proof.
  intros Ha Hty Hreg Hrt [r Hr].
  assert (cleared (assigned r ty a) = a) as Hfix.
  { destruct a; simpl in *. unfold cleared, assigned; simpl. by subst. }
  unfold setTile, resetTile, mbind, M_bind, getTile, getSome, modify, mret, M_ret.
  rewrite Ha, Hr. simpl. rewrite tileAt_updTile, decide_True by done.
  rewrite Ha. simpl. rewrite Hfix, updTile_updTile.
  unfold set_tiles at 1. simpl.
  rewrite (updTile_fixed _ _ _ _ a) by done. by destruct d.
Qed.

Lemma resetTile_undoes_setTile_witness :
  let a := Tile.mk wall (neighborsAt (tiles walled) 2 3) 2 3 (-1) None in
  (setTile 2 3 (Some door);; resetTile 2 3) walled = Ok (a, walled).
Proof.
  intros a.
  apply (resetTile_undoes_setTile 2 3 (Some door) walled a).
  - vm_compute. reflexivity.
  - reflexivity.
  - reflexivity.
  - reflexivity.
  - vm_compute. eauto.
Defined.

(** ** A new instance *)

Lemma range_cons lo hi : lo < hi → range lo hi = lo :: range (lo + 1) hi.
Proof.
  intros Hlt. unfold range.
  replace (Z.to_nat (hi - lo)) with (S (Z.to_nat (hi - (lo + 1)))) by lia.
  simpl. f_equal; [lia|]. rewrite <- fmap_S_seq, <- list_fmap_compose.
  apply list_fmap_ext. intros _ k _. simpl. lia.
Qed.

Lemma range_nil lo hi : hi ≤ lo → range lo hi = [].
Proof. intros Hle. unfold range. by replace (Z.to_nat (hi - lo)) with 0%nat by lia. Qed.

Lemma elem_of_range v lo hi : v ∈ range lo hi ↔ lo ≤ v < hi.
Proof.
  unfold range. rewrite list_elem_of_fmap. split.
  - intros (k & -> & Hk%elem_of_seq). lia.
  - intros Hv. exists (Z.to_nat (v - lo)). split; [lia|]. apply elem_of_seq. lia.
Qed.

(** X7: before the first [build] an instance has no tile, no stage, no
    generator and no region: [getTile], [setTile] and [resetTile] throw a
    [RangeError] at every position, and so does [carveArea] over an area that
    is not empty; [fill], [randBetween] and [currentRegion] throw a
    [TypeError]. *)
Theorem new_instance_methods_throw (o : DungeonOptionsInput) (x y lo hi w h : Z)
    (ty : option TileType) (fillType : TileType) :
  let d := Dungeon_new o in
  (∃ msg, getTile x y d = Throw (RangeError msg)) ∧
  (∃ msg, setTile x y ty d = Throw (RangeError msg)) ∧
  (∃ msg, resetTile x y d = Throw (RangeError msg)) ∧
  (0 < w → 0 < h → ∃ msg, carveArea x y w h d = Throw (RangeError msg)) ∧
  (∃ msg, fill fillType d = Throw (TypeError msg)) ∧
  (∃ msg, randBetween lo hi d = Throw (TypeError msg)) ∧
  (∃ msg, currentRegion d = Throw (TypeError msg)).
Proof.
  intros d.
  assert (tileAt (tiles d) x y = None) as Hnone.
  { apply tileAt_None. simpl. lia. }
  assert (∀ ty', ∃ msg, setTile x y ty' d = Throw (RangeError msg)) as Hset.
  { intros ty'. unfold setTile. rewrite bind_run. unfold getTile.
    rewrite Hnone. eauto. }
  repeat split; try done; eauto.
  - unfold getTile. rewrite Hnone. eauto.
  - unfold resetTile. rewrite bind_run. unfold getTile. rewrite Hnone. eauto.
  - intros Hw Hh. destruct (Hset (Some floor)) as [msg Hs]. exists msg.
    unfold carveArea. rewrite (range_cons x), (range_cons y) by lia. simpl.
    rewrite !bind_run. by rewrite Hs.
Qed.

(** ** carveArea *)

Lemma elem_of_rect i j x y w h :
  (i, j) ∈ rect x y w h ↔ x ≤ i < x + w ∧ y ≤ j < y + h.
Proof.
  unfold rect. rewrite list_elem_of_bind. split.
  - intros (i' & (j' & [= -> ->] & Hj%elem_of_range)%list_elem_of_fmap
               & Hi%elem_of_range). done.
  - intros [Hi Hj]. exists i. rewrite list_elem_of_fmap, !elem_of_range.
    split; [|done]. exists j. by rewrite elem_of_range.
Qed.

Lemma forEach_ext {A} (l : list A) (body1 body2 : A → M unit) d :
  (∀ v d, body1 v d = body2 v d) → forEach l body1 d = forEach l body2 d.
Proof.
  intros Hb. revert d. induction l as [|v l IH]; intros d; simpl; [done|].
  unfold mbind, M_bind. rewrite Hb. destruct (body2 v d) as [[[] d1]| |]; auto.
Qed.

Lemma forEach_app {A} (l1 l2 : list A) (body : A → M unit) d :
  forEach (l1 ++ l2) body d = (forEach l1 body;; forEach l2 body) d.
Proof.
  revert d. induction l1 as [|v l1 IH]; intros d; simpl; [done|].
  unfold mbind, M_bind. destruct (body v d) as [[[] d1]| |]; [|done..].
  rewrite IH. done.
Qed.

Lemma forEach_fmap {A B} (f : A → B) (l : list A) (body : B → M unit) d :
  forEach (f <$> l) body d = forEach l (λ v, body (f v)) d.
Proof.
  revert d. induction l as [|v l IH]; intros d; simpl; [done|].
  unfold mbind, M_bind. destruct (body (f v) d) as [[[] d1]| |]; auto.
Qed.

Lemma forEach_bind {A B} (g : A → list B) (l : list A) (body : B → M unit) d :
  forEach (l ≫= g) body d = forEach l (λ v, forEach (g v) body) d.
Proof.
  revert d. induction l as [|v l IH]; intros d; simpl; [done|].
  rewrite forEach_app, !bind_run.
  destruct (forEach (g v) body d) as [[[] d1]| |]; auto.
Qed.

(** The two loops of [carveArea] visit the positions of [rect]. *)
Lemma carveArea_rect x y w h d :
  carveArea x y w h d
  = forEach (rect x y w h) (λ p, setTile p.1 p.2 (Some floor);; mret tt) d.
Proof.
  unfold carveArea, rect. rewrite forEach_bind. apply forEach_ext.
  intros i d1. by rewrite forEach_fmap.
Qed.

Lemma tileAt_paint r ty ps :
  ∀ m i j, tileAt (paint r ty ps m) i j
           = if bool_decide ((i, j) ∈ ps) then assigned r ty <$> tileAt m i j
             else tileAt m i j.
Proof.
  induction ps as [|[pi pj] ps IH]; intros m i j.
  - rewrite bool_decide_eq_false_2; [done|]. apply not_elem_of_nil.
  - unfold paint in *. cbn [foldl fst snd]. rewrite IH, !tileAt_updTile.
    destruct (decide ((i, j) = (pi, pj))) as [[= -> ->]|Hne].
    + rewrite decide_True by done.
      rewrite (bool_decide_eq_true_2 ((pi, pj) ∈ (pi, pj) :: ps)) by left.
      case_bool_decide; [|done].
      destruct (tileAt m pi pj); simpl; [|done]. by rewrite assigned_idemp.
    + rewrite decide_False by (intros [-> ->]; done).
      case_bool_decide as E1; case_bool_decide as E2; try done.
      * exfalso. apply E2. by right.
      * exfalso. apply elem_of_cons in E2 as [?|?]; done.
Qed.

Lemma length_paint r ty ps m : length (paint r ty ps m) = length m.
Proof.
  revert m. induction ps as [|p ps IH]; intros m; [done|].
  unfold paint in *. simpl. rewrite IH. apply length_updTile.
Qed.

Lemma forEach_setTile_Ok ty (ps : list Ref) :
  ∀ d u d',
    forEach ps (λ p, setTile p.1 p.2 ty;; mret tt) d = Ok (u, d') →
    (ps ≠ [] → is_Some (region d)) ∧
    (∀ p, p ∈ ps → is_Some (tileAt (tiles d) p.1 p.2)) ∧
    d' = match region d with
         | Some r => set_tiles (paint r ty ps (tiles d)) d
         | None => d
         end.
Proof.
  induction ps as [|p ps IH]; simpl; intros d u d' Hrun.
  - run_inv. split; [done|]. split; [by intros ? ?%elem_of_nil|].
    destruct (region _); [|done]. by rewrite set_tiles_same.
  - run_inv.
    match goal with
    | Hs : setTile _ _ _ _ = Ok _ |- _ =>
        apply setTile_Ok in Hs as (a & r & Ha & Hr & _ & ->)
    end.
    apply IH in Hrun as (_ & Hex & ->). simpl in *. rewrite Hr.
    split; [eauto|]. split; [|done].
    intros p' [->|Hin]%elem_of_cons; [eauto|].
    specialize (Hex p' Hin). destruct p as [pi pj], p' as [i j]. simpl in *.
    rewrite tileAt_updTile in Hex.
    case_decide as Hd; [|done]. destruct Hd as [-> ->]. eauto.
Qed.

Lemma forEach_setTile_returns ty (ps : list Ref) r :
  ∀ d, region d = Some r →
    (∀ p, p ∈ ps → is_Some (tileAt (tiles d) p.1 p.2)) →
    forEach ps (λ p, setTile p.1 p.2 ty;; mret tt) d
    = Ok (tt, set_tiles (paint r ty ps (tiles d)) d).
Proof.
  induction ps as [|p ps IH]; simpl; intros d Hr Hex.
  - by rewrite set_tiles_same.
  - destruct (Hex p) as [a Ha]; [left|].
    unfold mbind at 1 2, M_bind at 1 2, setTile, mbind, M_bind, getTile, getSome,
      modify, mret, M_ret.
    rewrite Ha, Hr. simpl. rewrite IH; [done|done|].
    intros p' Hin. simpl. rewrite tileAt_updTile. case_decide as Hd.
    + rewrite Ha. simpl. eauto.
    + apply Hex. by right.
Qed.

Lemma carveArea_Ok (x y w h : Z) (d d' : Dungeon) :
  carveArea x y w h d = Ok (tt, d') →
  (∀ i j, x ≤ i < x + w → y ≤ j < y + h →
     ∃ a r, region d = Some r ∧ tileAt (tiles d) i j = Some a ∧
            tileAt (tiles d') i j = Some (assigned r (Some floor) a)) ∧
  (∀ i j, ¬ (x ≤ i < x + w ∧ y ≤ j < y + h) →
     tileAt (tiles d') i j = tileAt (tiles d) i j).
Proof.
  rewrite carveArea_rect. intros (Hreg & Hex & ->)%forEach_setTile_Ok.
  split.
  - intros i j Hi Hj. assert ((i, j) ∈ rect x y w h) as Hin by by apply elem_of_rect.
    destruct Hreg as [r Hr]; [by intros E; rewrite E in Hin; apply elem_of_nil in Hin|].
    destruct (Hex _ Hin) as [a Ha]. exists a, r. rewrite Hr. simpl in *.
    rewrite tileAt_paint, bool_decide_eq_true_2, Ha by done. done.
  - intros i j Hout. destruct (region d); [|done]. simpl.
    rewrite tileAt_paint, bool_decide_eq_false_2; [done|]. by rewrite elem_of_rect.
Qed.

(** X8: when [carveArea(x, y, width, height)] returns, each tile of the
    rectangle [x ≤ i < x + width], [y ≤ j < y + height] is a floor with the id
    and type of the current region and is otherwise as before; every tile
    outside the rectangle and every other field of the instance is
    unchanged. *)
Theorem carveArea_paints_rectangle (x y w h : Z) (d d' : Dungeon) :
  carveArea x y w h d = Ok (tt, d') →
  (∀ i j, x ≤ i < x + w → y ≤ j < y + h →
     ∃ a r, region d = Some r ∧ tileAt (tiles d) i j = Some a ∧
            tileAt (tiles d') i j = Some (assigned r (Some floor) a)) ∧
  (∀ i j, ¬ (x ≤ i < x + w ∧ y ≤ j < y + h) →
     tileAt (tiles d') i j = tileAt (tiles d) i j) ∧
  tilesOnly d d'.
Proof.
  intros Hrun. pose proof (carveArea_tilesStep _ _ _ _ _ _ _ Hrun) as [Honly _].
  by apply carveArea_Ok in Hrun as [? ?].
Qed.

Lemma carveArea_paints_rectangle_witness :
  let d := walled in
  let d' := after (carveArea 1 1 3 2) d in
  (∀ i j, 1 ≤ i < 1 + 3 → 1 ≤ j < 1 + 2 →
     ∃ a r, region d = Some r ∧ tileAt (tiles d) i j = Some a ∧
            tileAt (tiles d') i j = Some (assigned r (Some floor) a)) ∧
  (∀ i j, ¬ (1 ≤ i < 1 + 3 ∧ 1 ≤ j < 1 + 2) →
     tileAt (tiles d') i j = tileAt (tiles d) i j) ∧
  tilesOnly d d'.
Proof.
  intros d d'.
  apply (carveArea_paints_rectangle 1 1 3 2 d d').
  vm_compute. reflexivity.
Defined.

(** X9: [carveArea] returns exactly when its area is empty, or a region was
    started and every position of the area holds a tile; with a width or a
    height that is not positive it returns at once and changes nothing. *)
Theorem carveArea_returns_iff (x y w h : Z) (d : Dungeon) :
  ((∃ d', carveArea x y w h d = Ok (tt, d')) ↔
     w ≤ 0 ∨ h ≤ 0 ∨
     (is_Some (region d) ∧
      ∀ i j, x ≤ i < x + w → y ≤ j < y + h → is_Some (tileAt (tiles d) i j))) ∧
  (w ≤ 0 ∨ h ≤ 0 → carveArea x y w h d = Ok (tt, d)).
Proof.
  assert (w ≤ 0 ∨ h ≤ 0 → carveArea x y w h d = Ok (tt, d)) as Hempty.
  { intros Hwh. rewrite carveArea_rect.
    assert (rect x y w h = []) as ->; [|done].
    unfold rect. destruct (decide (w ≤ 0)).
    - by rewrite (range_nil x) by lia.
    - rewrite (range_nil y) by lia.
      induction (range x (x + w)) as [|i l IH]; [done|].
      by rewrite bind_cons, IH. }
  split; [|done]. split.
  - intros [d' Hrun]. destruct (decide (w ≤ 0)); [tauto|].
    destruct (decide (h ≤ 0)); [tauto|]. right; right.
    rewrite carveArea_rect in Hrun.
    apply forEach_setTile_Ok in Hrun as (Hreg & Hex & _). split.
    + apply Hreg. intros E.
      assert ((x, y) ∈ rect x y w h) as Hin by (apply elem_of_rect; lia).
      rewrite E in Hin. by apply elem_of_nil in Hin.
    + intros i j Hi Hj. apply (Hex (i, j)). by apply elem_of_rect.
  - intros [?|[?|[[r Hr] Hex]]].
    { exists d. apply Hempty. by left. }
    { exists d. apply Hempty. by right. }
    eexists. rewrite carveArea_rect. apply forEach_setTile_returns; [exact Hr|].
    intros [i j] [Hi Hj]%elem_of_rect. simpl. by apply Hex.
Qed.

(** ** fill on a new instance *)

Lemma inGrid_true w h i j : inGrid w h i j = true ↔ 0 ≤ i < w ∧ 0 ≤ j < h.
Proof. unfold inGrid. rewrite !andb_true_iff, !Z.leb_le, !Z.ltb_lt. lia. Qed.

Lemma inGrid_false w h i j : inGrid w h i j = false ↔ ¬ (0 ≤ i < w ∧ 0 ≤ j < h).
Proof. rewrite <- inGrid_true. by destruct (inGrid w h i j). Qed.

Lemma range_lookup lo hi (k : nat) :
  range lo hi !! k = if decide (Z.of_nat k < hi - lo) then Some (lo + Z.of_nat k) else None.
Proof.
  unfold range. rewrite list_lookup_fmap. case_decide.
  - rewrite lookup_seq_lt by lia. done.
  - rewrite lookup_seq_ge by lia. done.
Qed.

Lemma tileAt_allocated_new ty w h i j :
  tileAt (allocated ty (Z.to_nat w) h []) i j
  = if inGrid w h i j then Some (Tile.new ty i j) else None.
Proof.
  destruct (inGrid w h i j) eqn:E.
  - apply inGrid_true in E as [Hi Hj]. rewrite tileAt_nat by lia.
    rewrite allocated_lookup. simpl. rewrite lookup_replicate_2 by lia. simpl.
    rewrite (proj2 (Nat.ltb_lt _ _)) by lia. simpl.
    unfold freshColumn. rewrite list_lookup_fmap, range_lookup.
    rewrite decide_True by lia. simpl. do 2 f_equal; lia.
  - apply inGrid_false in E.
    destruct (tileAt _ i j) as [a|] eqn:Ha; [|done]. exfalso. apply E.
    apply tileAt_Some in Ha as (Hi & Hj & col & Hc & Ha).
    rewrite allocated_lookup in Hc. simpl in Hc.
    destruct (replicate (Z.to_nat w) [] !! Z.to_nat i) as [c|] eqn:Hr; [|done].
    apply lookup_replicate in Hr as [-> Hlt]. simpl in Hc.
    rewrite (proj2 (Nat.ltb_lt _ _)) in Hc by lia. injection Hc as <-.
    simpl in Ha. unfold freshColumn in Ha.
    rewrite list_lookup_fmap, range_lookup in Ha. case_decide; [lia|done].
Qed.

Lemma link_updTile f x y m i j : link (updTile f x y m) i j = link m i j.
Proof.
  unfold link. rewrite tileAt_updTile. case_decide as Hd; [|done].
  destruct Hd as [-> ->]. by destruct (tileAt m i j).
Qed.

Lemma neighborsAt_updTile f x y m i j :
  neighborsAt (updTile f x y m) i j = neighborsAt m i j.
Proof. unfold neighborsAt. by rewrite !link_updTile. Qed.

(** The second pair of loops of [fill], as one loop over positions. *)
Lemma tileAt_wire (ps : list Ref) :
  ∀ m i j,
    tileAt (foldl (λ m p, updTile (Tile.setNeighbors (neighborsAt m p.1 p.2))
                            p.1 p.2 m) m ps) i j
    = (λ a, if bool_decide ((i, j) ∈ ps)
            then Tile.setNeighbors (neighborsAt m i j) a else a) <$> tileAt m i j.
Proof.
  induction ps as [|[pi pj] ps IH]; intros m i j.
  - cbn [foldl]. rewrite bool_decide_eq_false_2 by apply not_elem_of_nil.
    by destruct (tileAt m i j).
  - cbn [foldl fst snd]. rewrite IH, neighborsAt_updTile, tileAt_updTile.
    destruct (decide ((i, j) = (pi, pj))) as [[= -> ->]|Hne].
    + rewrite decide_True by done.
      rewrite (bool_decide_eq_true_2 ((pi, pj) ∈ (pi, pj) :: ps)) by left.
      destruct (tileAt m pi pj); simpl; [|done]. by case_bool_decide.
    + rewrite decide_False by (intros [-> ->]; done).
      destruct (tileAt m i j); [|done]. simpl. f_equal.
      case_bool_decide as E1; case_bool_decide as E2; try done.
      * exfalso. apply E2. by right.
      * exfalso. apply elem_of_cons in E2 as [?|?]; done.
Qed.

Lemma foldl_bind {A B C} (f : C → B → C) (g : A → list B) (l : list A) :
  ∀ c, foldl f c (l ≫= g) = foldl (λ c x, foldl f c (g x)) c l.
Proof.
  induction l as [|x l IH]; intros c; [done|].
  rewrite bind_cons, foldl_app, IH. done.
Qed.

Lemma fill_wire_rect w h m :
  fill_wire w h m
  = foldl (λ m p, updTile (Tile.setNeighbors (neighborsAt m p.1 p.2)) p.1 p.2 m)
          m (rect 0 0 w h).
Proof.
  unfold fill_wire, rect. rewrite foldl_bind.
  change (0 + w) with w. change (0 + h) with h.
  revert m. induction (range 0 w) as [|x l IH]; intros m; [done|].
  cbn [foldl]. rewrite foldl_fmap. apply IH.
Qed.

Lemma tileAt_fill_wire w h m i j :
  tileAt (fill_wire w h m) i j
  = (λ a, if inGrid w h i j then Tile.setNeighbors (neighborsAt m i j) a else a)
      <$> tileAt m i j.
Proof.
  rewrite fill_wire_rect, tileAt_wire. destruct (tileAt m i j); [|done].
  simpl. f_equal. destruct (inGrid w h i j) eqn:E.
  - rewrite bool_decide_eq_true_2; [done|]. apply elem_of_rect.
    apply inGrid_true in E. lia.
  - rewrite bool_decide_eq_false_2; [done|]. rewrite elem_of_rect.
    apply inGrid_false in E. lia.
Qed.

Lemma length_fill_wire w h m : length (fill_wire w h m) = length m.
Proof. by destruct (fill_wire_linksOnly w h m). Qed.

Lemma link_allocated_new ty w h i j :
  link (allocated ty (Z.to_nat w) h []) i j = gridLink w h i j.
Proof.
  unfold link, gridLink. rewrite tileAt_allocated_new. by destruct (inGrid w h i j).
Qed.

(** The tiles of a new instance after [fill]. *)
Lemma fill_new_tiles ty d d' st :
  tiles d = [] → stage d = Some st → fill ty d = Ok (tt, d') →
  length (tiles d') = Z.to_nat (width st) ∧
  ∀ i j, tileAt (tiles d') i j
         = if inGrid (width st) (height st) i j
           then Some (gridTile ty (width st) (height st) i j) else None.
Proof.
  intros Hnew Hst (st' & Hst' & ->)%fill_Ok. rewrite Hst in Hst'.
  injection Hst' as <-. simpl. rewrite Hnew. split.
  - rewrite length_fill_wire, length_allocated. done.
  - intros i j. rewrite tileAt_fill_wire, tileAt_allocated_new.
    destruct (inGrid (width st) (height st) i j); [|done]. simpl. f_equal.
    unfold neighborsAt. rewrite !link_allocated_new. done.
Qed.

(** X10: on a new instance [fill(ty)] makes one column for each [x] below
    the stage width; the matrix then holds a tile exactly at the positions of
    the stage, and the tile at [(x, y)] has type [ty], the coordinates
    [(x, y)], region -1, no region type, and a link to each of the eight
    positions around it that is on the stage, none to the others. *)
Theorem fill_new_instance_grid (ty : TileType) (d : Dungeon) (st : StageOptions) :
  tiles d = [] → stage d = Some st →
  ∃ d', fill ty d = Ok (tt, d') ∧ tilesOnly d d' ∧
    length (tiles d') = Z.to_nat (width st) ∧
    ∀ i j, tileAt (tiles d') i j
           = if inGrid (width st) (height st) i j
             then Some (gridTile ty (width st) (height st) i j) else None.
Proof.
  intros Hnew Hst. eexists. split; [|split].
  - apply fill_Ok. eauto.
  - done.
  - eapply fill_new_tiles; [done..|]. apply fill_Ok. eauto.
Qed.

Lemma fill_new_instance_grid_witness :
  let st := mkStage 7 5 (SeedString "s1") in
  let d := validated st defaultOptions in
  ∃ d', fill wall d = Ok (tt, d') ∧ tilesOnly d d' ∧
    length (tiles d') = Z.to_nat (width st) ∧
    ∀ i j, tileAt (tiles d') i j
           = if inGrid (width st) (height st) i j
             then Some (gridTile wall (width st) (height st) i j) else None.
Proof.
  intros st d.
  apply (fill_new_instance_grid wall d st); reflexivity.
Defined.

(** ** build on a stage that is too small *)

(** X11: [build] throws a [RangeError] when the width or the height of the
    stage, 5 where the caller gives none, is below 5. *)
Theorem build_rejects_small_stage `{Collaborators} (slug : string) (budget : nat)
    (s : StageInput) (d : Dungeon) :
  default 5 (in_width s) < 5 ∨ default 5 (in_height s) < 5 →
  ∃ msg, build slug budget s d = Throw (RangeError msg).
Proof.
  intros Hsmall. unfold build. rewrite bind_run. unfold validate. simpl.
  destruct (default 5 (in_width s) <? 5) eqn:Ew; [by eauto|].
  destruct (default 5 (in_height s) <? 5) eqn:Eh; [by eauto|].
  apply Z.ltb_ge in Ew, Eh. lia.
Qed.

Lemma build_rejects_small_stage_witness :
  ∃ msg, build (H := example []) "slug" 0 (mkStageInput (Some 9) (Some 4) SeedAbsent)
           (Dungeon_new defaultOptions)
         = Throw (RangeError msg).
Proof.
  apply (build_rejects_small_stage (H := example []) "slug" 0
           (mkStageInput (Some 9) (Some 4) SeedAbsent) (Dungeon_new defaultOptions)).
  right. simpl. lia.
Defined.

(** ** The rooms that addRooms adds *)

Section Rooms.
Context `{Collaborators}.

Lemma candidate_rng_only d r d1 :
  candidate d = Ok (r, d1) →
  options d1 = options d ∧ stage d1 = stage d ∧ rooms d1 = rooms d ∧
  region d1 = region d ∧ tiles d1 = tiles d ∧ seed d1 = seed d ∧
  nextRegionId d1 = nextRegionId d ∧ errorLog d1 = errorLog d ∧
  is_Some (rng d1).
Proof.
  intros (st & size & _ & _ & _ & (c & _ & Hc) & Hsame)%candidate_Ok.
  rewrite <- Hsame. simpl. rewrite Hc. repeat split; eauto.
Qed.

(** The two ways in which one attempt of [addRooms] ends. *)
Lemma addRoomAttempt_inv d u d' :
  addRoomAttempt d = Ok (u, d') →
  ∃ r d1, candidate d = Ok (r, d1) ∧
    if existsb (touches r) (rooms d) then d' = d1
    else
      let d2 := set_region (Some (mkRegion (nextRegionId d1) room))
                  (set_nextRegionId (nextRegionId d1 + 1)
                     (set_rooms (rooms d1 ++ [r]) d1)) in
      carveArea (room_x r) (room_y r) (room_width r) (room_height r) d2
      = Ok (tt, d').
Proof.
  unfold addRoomAttempt. intros Hrun.
  apply bind_Ok in Hrun as (r & d1 & H1 & Hrun). exists r, d1. split; [done|].
  apply candidate_rng_only in H1 as (_ & _ & Hrs & _).
  apply bind_Ok in Hrun as (rs & ? & [-> ->]%get_Ok & Hrun). rewrite Hrs in Hrun.
  destruct (existsb _ _); [by run_inv|].
  apply bind_Ok in Hrun as (u1 & d2 & ->%modify_Ok & Hrun).
  apply bind_Ok in Hrun as (rg & d3 & [-> ->]%startRegion_Ok & Hrun).
  by destruct u.
Qed.

Lemma addRooms_rel (R : Dungeon → Dungeon → Prop) :
  Reflexive R → Transitive R →
  (∀ d u d', addRoomAttempt d = Ok (u, d') → R d d') →
  ∀ d u d', addRooms d = Ok (u, d') → R d d'.
Proof.
  intros HR HT Hatt d u d'. unfold addRooms. intros Hrun.
  apply bind_Ok in Hrun as (o & ? & [-> ->]%get_Ok & Hrun).
  apply bind_Ok in Hrun as (st & ? & [_ ->]%getSome_Ok & Hrun).
  revert Hrun. apply forEach_rel; [done..|].
  intros _ d1 u1 d1' _. apply Hatt.
Qed.

Lemma addRooms_added_inside (d d' : Dungeon) (st : StageOptions) :
  addRooms d = Ok (tt, d') →
  stage d = Some st →
  1 ≤ multiplier (options d) →
  5 * multiplier (options d) ≤ width st →
  5 * multiplier (options d) ≤ height st →
  ∃ added, rooms d' = rooms d ++ added ∧ Forall (insideStage st) added.
Proof.
  intros Hrun Hst Hm Hw Hh.
  pose (R := λ d1 d2 : Dungeon,
    pipelineStep d1 d2 ∧
    (stage d1 = Some st → 1 ≤ multiplier (options d1) →
     5 * multiplier (options d1) ≤ width st →
     5 * multiplier (options d1) ≤ height st →
     ∃ added, rooms d2 = rooms d1 ++ added ∧ Forall (insideStage st) added)).
  assert (R d d') as [_ HR]; [|by apply HR].
  revert Hrun. apply (addRooms_rel R).
  - intros d1. split; [reflexivity|]. exists []. by rewrite app_nil_r.
  - intros d1 d2 d3 [P12 R12] [P23 R23]. split; [by etrans|].
    destruct P12 as (_ & _ & Ho & Hs). intros ????.
    destruct R12 as (l1 & E1 & F1); [done..|].
    destruct R23 as (l2 & E2 & F2); [congruence..|].
    exists (l1 ++ l2). rewrite E2, E1, app_assoc. split; [done|].
    by apply Forall_app.
  - intros d1 u d2 Hatt. split; [by eapply addRoomAttempt_pipelineStep|].
    intros Hst1 Hm1 Hw1 Hh1.
    apply addRoomAttempt_inv in Hatt as (r0 & d1' & Hc & Hatt).
    pose proof (candidate_within_stage _ _ _ _ Hc Hst1 Hm1 Hw1 Hh1) as Hin.
    apply candidate_rng_only in Hc as (_ & _ & Hrs & _).
    destruct (existsb _ _).
    + subst d2. exists []. by rewrite app_nil_r.
    + apply carveArea_tilesStep in Hatt as [(_ & _ & _ & Hrs2 & _) _].
      exists [r0]. rewrite Hrs2. simpl. rewrite Hrs. split; [done|].
      by apply Forall_singleton.
Qed.

(** X12: on a stage of at least [5 * multiplier] by [5 * multiplier] tiles,
    as [validate] leaves it, every room that [addRooms] adds has a positive
    width and height, starts at 1 or later on both axes, and ends before the
    last column and the last row of the stage. *)
Theorem addRooms_rooms_inside_stage (d d' : Dungeon) (st : StageOptions) :
  addRooms d = Ok (tt, d') →
  stage d = Some st →
  1 ≤ multiplier (options d) →
  5 * multiplier (options d) ≤ width st →
  5 * multiplier (options d) ≤ height st →
  ∃ added, rooms d' = rooms d ++ added ∧ Forall (insideStage st) added.
Proof. apply addRooms_added_inside. Qed.

(** X13: every room that [addRooms] adds was tested against all the rooms
    before it in the list, those of earlier calls included, and touches none
    of them. *)
Theorem addRooms_rooms_do_not_touch (d d' : Dungeon) :
  addRooms d = Ok (tt, d') →
  rooms d `prefix_of` rooms d' ∧
  ∀ (i j : nat) r' r,
    rooms d' !! i = Some r' → rooms d' !! j = Some r →
    (i < j)%nat → (length (rooms d) ≤ j)%nat →
    touches r r' = false.
Proof.
  pose (R := λ d1 d2 : Dungeon,
    rooms d1 `prefix_of` rooms d2 ∧
    ∀ (i j : nat) r' r,
      rooms d2 !! i = Some r' → rooms d2 !! j = Some r →
      (i < j)%nat → (length (rooms d1) ≤ j)%nat → touches r r' = false).
  apply (addRooms_rel R).
  - intros d1. split; [done|]. intros i j r' r _ Hj%lookup_lt_Some ??. lia.
  - intros d1 d2 d3 [P12 R12] [P23 R23]. split; [by etrans|].
    intros i j r' r Hi Hj Hij Hlen.
    destruct (decide (length (rooms d2) ≤ j)%nat); [by eapply R23|].
    destruct P23 as [l E]. rewrite E in Hi, Hj.
    rewrite lookup_app_l in Hi, Hj by lia.
    by eapply R12.
  - intros d1 u d2 Hatt.
    apply addRoomAttempt_inv in Hatt as (r0 & d1' & Hc & Hatt).
    apply candidate_rng_only in Hc as (_ & _ & Hrs & _).
    unfold R. destruct (existsb _ _) eqn:Eex.
    + subst d2. rewrite Hrs. split; [done|].
      intros i j r' r _ Hj%lookup_lt_Some ??. lia.
    + apply carveArea_tilesStep in Hatt as [(_ & _ & _ & Hrs2 & _) _].
      rewrite Hrs2. simpl. rewrite Hrs. split; [by apply prefix_app_r|].
      intros i j r' r Hi Hj Hij Hlen.
      assert (j = length (rooms d1)) as ->.
      { apply lookup_lt_Some in Hj. rewrite length_app in Hj. simpl in Hj. lia. }
      rewrite lookup_app_l in Hi by lia.
      rewrite list_lookup_middle in Hj by done. injection Hj as <-.
      apply not_true_iff_false. intros Ht.
      apply not_true_iff_false in Eex. apply Eex.
      apply existsb_exists. exists r'. split; [|done].
      by eapply list_elem_of_In, list_elem_of_lookup_2.
Qed.

(** X14: when [addRooms] returns, every tile of every room that it added is
    a floor of region type room. *)
Theorem addRooms_carves_rooms (d d' : Dungeon) :
  addRooms d = Ok (tt, d') →
  ∃ added, rooms d' = rooms d ++ added ∧ Forall (roomCarved (tiles d')) added.
Proof.
  pose (R := λ d1 d2 : Dungeon,
    (∀ i j a, tileAt (tiles d1) i j = Some a → roomFloor a →
       ∃ a', tileAt (tiles d2) i j = Some a' ∧ roomFloor a') ∧
    ∃ added, rooms d2 = rooms d1 ++ added ∧ Forall (roomCarved (tiles d2)) added).
  intros Hrun. assert (R d d') as [_ HR]; [|done]. revert Hrun.
  apply (addRooms_rel R).
  - intros d1. split; [eauto|]. exists []. by rewrite app_nil_r.
  - intros d1 d2 d3 [K12 (l1 & E1 & F1)] [K23 (l2 & E2 & F2)]. split.
    + intros i j a Ha Hf. destruct (K12 _ _ _ Ha Hf) as (a' & Ha' & Hf'). eauto.
    + exists (l1 ++ l2). rewrite E2, E1, app_assoc. split; [done|].
      apply Forall_app. split; [|done]. eapply Forall_impl; [exact F1|].
      intros r Hr i j Hi Hj. destruct (Hr i j Hi Hj) as (a & Ha & Hf). eauto.
  - intros d1 u d2 Hatt.
    apply addRoomAttempt_inv in Hatt as (r0 & d1' & Hc & Hatt).
    apply candidate_rng_only in Hc as (_ & _ & Hrs & _ & Hts & _).
    unfold R. destruct (existsb _ _).
    + subst d2. rewrite Hts. split; [eauto|]. exists []. by rewrite app_nil_r.
    + pose proof (carveArea_tilesStep _ _ _ _ _ _ _ Hatt) as [(_ & _ & _ & Hrs2 & _) _].
      apply carveArea_Ok in Hatt as (Hin & Hout). simpl in *.
      rewrite Hts in *. split.
      * intros i j a Ha Hf.
        destruct (decide (room_x r0 ≤ i < room_x r0 + room_width r0
                          ∧ room_y r0 ≤ j < room_y r0 + room_height r0))
          as [[Hi Hj]|Hn].
        -- destruct (Hin i j Hi Hj) as (a0 & rg & [= <-] & _ & Ha').
           eexists. split; [exact Ha'|]. by split.
        -- rewrite (Hout i j Hn). eauto.
      * exists [r0]. rewrite Hrs2. simpl. rewrite Hrs. split; [done|].
        apply Forall_singleton. intros i j Hi Hj.
        destruct (Hin i j Hi Hj) as (a0 & rg & [= <-] & _ & Ha').
        eexists. split; [exact Ha'|]. by split.
Qed.

End Rooms.

Lemma addRooms_rooms_inside_stage_witness :
  let env := example mazeDraws in
  let st := mkStage 9 9 (SeedString "s1") in
  let d' := after (addRooms (H := env)) beforeRooms in
  ∃ added, rooms d' = rooms beforeRooms ++ added ∧ Forall (insideStage st) added.
Proof.
  intros env st d'.
  apply (addRooms_rooms_inside_stage (H := env) beforeRooms d' st).
  - vm_compute. reflexivity.
  - reflexivity.
  - vm_compute. discriminate.
  - vm_compute. discriminate.
  - vm_compute. discriminate.
Defined.

Lemma addRooms_rooms_do_not_touch_witness :
  let env := example mazeDraws in
  let d' := after (addRooms (H := env)) beforeRooms in
  rooms beforeRooms `prefix_of` rooms d' ∧
  ∀ (i j : nat) r' r,
    rooms d' !! i = Some r' → rooms d' !! j = Some r →
    (i < j)%nat → (length (rooms beforeRooms) ≤ j)%nat →
    touches (Collaborators := env) r r' = false.
Proof.
  intros env d'.
  apply (addRooms_rooms_do_not_touch (H := env) beforeRooms d').
  vm_compute. reflexivity.
Defined.


Lemma addRooms_carves_rooms_witness :
  let env := example mazeDraws in
  let d' := after (addRooms (H := env)) beforeRooms in
  ∃ added, rooms d' = rooms beforeRooms ++ added ∧
           Forall (roomCarved (tiles d')) added.
Proof.
  intros env d'.
  apply (addRooms_carves_rooms (H := env) beforeRooms d').
  vm_compute. reflexivity.
Defined.

(** ** What removeDeadEnds does to the tiles *)

Section Pruning.
Context `{Collaborators}.

Lemma cleared_idemp a : cleared (cleared a) = cleared a.
Proof. done. Qed.

Lemma prunes_refl : Reflexive prunes.
Proof. intros d. split; [reflexivity|]. intros _ i j a Ha. by left. Qed.

Lemma prunes_trans : Transitive prunes.
Proof.
  intros d1 d2 d3 [S12 P12] [S23 P23]. split; [by etrans|].
  intros Hc i j a Ha.
  assert (Hc2 : coordsMatch (tiles d2)).
  { eapply coordsMatch_matrixRel; [apply S12|done]. }
  assert (rooms d2 = rooms d1) as Hrs by apply S12.
  destruct (P12 Hc i j a Ha) as [Ha2|(Ha2 & Hnw & Hrm)].
  - destruct (P23 Hc2 i j a Ha2) as [Ha3|(Ha3 & Hnw & Hrm)]; [by left|].
    right. by rewrite <- Hrs.
  - right. destruct (P23 Hc2 i j _ Ha2) as [Ha3|(Ha3 & _)]; by rewrite Ha3.
Qed.

Lemma cycleTile_prunes done r d b d' :
  cycleTile done r d = Ok (b, d') → prunes d d'.
Proof.
  intros Hrun. split; [by eapply cycleTile_tilesStep|]. intros Hc i j a Ha.
  assert (∃ a0, tileAt (tiles d) r.1 r.2 = Some a0) as [a0 Ha0].
  { unfold cycleTile in Hrun.
    apply bind_Ok in Hrun as (a0 & ? & [? ->]%tileOf_Ok & _). eauto. }
  pose proof (cycleTile_spec done r d a0 Hc Ha0) as Hspec.
  destruct (bool_decide (Tile.type a0 = wall) || negb (deadEnd d a0)) eqn:E;
    rewrite Hspec in Hrun; injection Hrun as <- <-.
  { by left. }
  simpl. rewrite tileAt_updTile.
  destruct (decide (r.1 = i ∧ r.2 = j)) as [[<- <-]|Hd]; [|by left].
  rewrite Ha0 in *. injection Ha as <-.
  apply orb_false_iff in E as [E1 E2].
  apply bool_decide_eq_false in E1. apply negb_false_iff in E2.
  unfold deadEnd in E2. apply andb_true_iff in E2 as [_ E2].
  apply negb_true_iff in E2. destruct (Hc _ _ _ Ha0) as [Hx Hy].
  rewrite Hx, Hy in E2. right. done.
Qed.

Lemma removeDeadEndsLoop_prunes budget :
  ∀ d u d', removeDeadEndsLoop budget d = Ok (u, d') → prunes d d'.
Proof.
  induction budget as [|k IH]; intros d u d' Hrun; simpl in Hrun; [done|].
  apply bind_Ok in Hrun as (done & d1 & H1 & Hrun).
  assert (S1 : prunes d d1).
  { unfold cycle in H1.
    apply bind_Ok in H1 as (m & ? & [-> ->]%get_Ok & H1). revert H1.
    apply foldM_rel; [apply prunes_refl|apply prunes_trans|].
    intros ????? _. apply cycleTile_prunes. }
  destruct done; [by run_inv|]. eapply prunes_trans; [exact S1|by eapply IH].
Qed.

(** X15: on a matrix with canonical tiles [removeDeadEnds] leaves each tile
    as it was or resets it (wall, region -1, no region type, same coordinates
    and links); it resets only tiles that were not walls, and none at a
    position that a room contains; no other field of the instance changes. *)
Theorem removeDeadEnds_spares_rooms (d d' : Dungeon) (budget : nat) :
  coordsMatch (tiles d) →
  removeDeadEnds budget d = Ok (tt, d') →
  tilesOnly d d' ∧
  ∀ i j a, tileAt (tiles d) i j = Some a →
    tileAt (tiles d') i j = Some a ∨
    (tileAt (tiles d') i j = Some (cleared a) ∧ Tile.type a ≠ wall ∧
     ∀ rm, rm ∈ rooms d → containsTile rm i j = false).
Proof.
  intros Hc [[Honly _] Hp]%removeDeadEndsLoop_prunes. split; [done|].
  intros i j a Ha. destruct (Hp Hc i j a Ha) as [?|(? & ? & Hex)]; [by left|].
  right. split; [done|]. split; [done|]. intros rm Hrm.
  apply not_true_iff_false. intros Hct.
  apply not_true_iff_false in Hex. apply Hex.
  apply existsb_exists. exists rm. split; [by apply list_elem_of_In|done].
Qed.

Lemma removeDeadEndsLoop_final budget :
  ∀ d d', coordsMatch (tiles d) →
    removeDeadEndsLoop budget d = Ok (tt, d') → cycle d' = Ok (true, d').
Proof.
  induction budget as [|k IH]; intros d d' Hc Hrun; simpl in Hrun; [done|].
  destruct (cycle_spec d Hc) as (done & d1 & Hcy & _ & Hc1 & _ & Hd).
  rewrite bind_run, Hcy in Hrun. destruct done.
  - destruct Hd as [-> _]. apply ret_Ok in Hrun as [_ <-]. done.
  - by eapply IH.
Qed.

(** X16: [removeDeadEnds] reaches a fixed point: on the matrix that it
    leaves, a further call makes one pass, finds nothing to reset, and
    returns with the instance unchanged. *)
Theorem removeDeadEnds_idempotent (d d' : Dungeon) (budget k : nat) :
  coordsMatch (tiles d) →
  removeDeadEnds budget d = Ok (tt, d') →
  cycle d' = Ok (true, d') ∧ removeDeadEnds (S k) d' = Ok (tt, d').
Proof.
  intros Hc Hrun%removeDeadEndsLoop_final; [|done]. split; [done|].
  unfold removeDeadEnds. simpl. by rewrite bind_run, Hrun.
Qed.

End Pruning.

Lemma removeDeadEnds_spares_rooms_witness :
  let env := example mazeDraws in
  let d' := after (removeDeadEnds (H := env) 60) connected in
  tilesOnly connected d' ∧
  ∀ i j a, tileAt (tiles connected) i j = Some a →
    tileAt (tiles d') i j = Some a ∨
    (tileAt (tiles d') i j = Some (cleared a) ∧ Tile.type a ≠ wall ∧
     ∀ rm, rm ∈ rooms connected → containsTile (Collaborators := env) rm i j = false).
Proof.
  intros env d'.
  apply (removeDeadEnds_spares_rooms (H := env) connected d' 60).
  - apply coordsMatchb_correct. vm_compute. reflexivity.
  - vm_compute. reflexivity.
Defined.

Lemma removeDeadEnds_idempotent_witness :
  let env := example mazeDraws in
  let d' := after (removeDeadEnds (H := env) 60) connected in
  cycle (H := env) d' = Ok (true, d') ∧ removeDeadEnds (H := env) 1 d' = Ok (tt, d').
Proof.
  intros env d'.
  apply (removeDeadEnds_idempotent (H := env) connected d' 60 0).
  - apply coordsMatchb_correct. vm_compute. reflexivity.
  - vm_compute. reflexivity.
Defined.

(** ** The doors that connectRegions makes *)

Lemma randBetween_tiles lo hi d v d' :
  randBetween lo hi d = Ok (v, d') → tiles d' = tiles d ∧ options d' = options d.
Proof. by intros (c & _ & _ & _ & ->)%randBetween_Ok. Qed.

Lemma oneIn_tiles num d b d' :
  oneIn num d = Ok (b, d') → tiles d' = tiles d ∧ options d' = options d.
Proof. intros (v & Hv & _)%oneIn_Ok. by eapply randBetween_tiles. Qed.

Lemma markDoor_tiles r d u d' :
  markDoor r d = Ok (u, d') →
  options d' = options d ∧
  ∀ i j, (i, j) ≠ r → tileAt (tiles d') i j = tileAt (tiles d) i j.
Proof.
  intros ->%markDoor_Ok. split; [done|]. intros i j Hne. simpl.
  rewrite tileAt_updTile, decide_False; [done|].
  intros [E1 E2]. apply Hne. destruct r. simpl in *. by subst.
Qed.

(** The loop over a bucket counts the doors that it makes, makes none once
    [doorCount] is reached, and writes no other tile. *)
Lemma doorLoop_marks budget connections doorCount :
  ∀ added i failed d added' failed' d',
  doorLoop budget connections doorCount added i failed d
    = Ok ((added', failed'), d') →
  added ≤ added' ≤ Z.max added doorCount ∧ options d' = options d ∧
  ∃ marked, Z.of_nat (length marked) = added' - added ∧
    marked ⊆ connections ∧
    ∀ i j, (i, j) ∉ marked → tileAt (tiles d') i j = tileAt (tiles d) i j.
Proof.
  induction budget as [|k IH]; intros added i failed d added' failed' d' Hrun.
  - simpl in Hrun. run_inv.
    destruct (_ && _); [done|]. run_inv. split; [lia|]. split; [done|].
    exists []. split; [simpl; lia|]. split; [set_solver|done].
  - simpl in Hrun.
    apply bind_Ok in Hrun as (o & ? & [-> ->]%get_Ok & Hrun).
    destruct ((added <? doorCount) && (i <? doorChance (options d))) eqn:Eg.
    2:{ run_inv. split; [lia|]. split; [done|].
        exists []. split; [simpl; lia|]. split; [set_solver|done]. }
    apply andb_true_iff in Eg as [Eg%Z.ltb_lt _].
    apply bind_Ok in Hrun as (rand & d1 & [T1 O1]%randBetween_tiles & Hrun).
    apply bind_Ok in Hrun as (byChance & d3 & [T3 O3]%oneIn_tiles & Hrun).
    apply bind_Ok in Hrun as (r & d2 & [Hr ->]%pick_Ok & Hrun).
    apply bind_Ok in Hrun as (m & ? & [-> ->]%get_Ok & Hrun).
    apply bind_Ok in Hrun as (a & ? & [Hta ->]%tileOf_Ok & Hrun).
    assert (T13 : tiles d3 = tiles d) by congruence.
    assert (O13 : options d3 = options d) by congruence.
    destruct (_ && _).
    + destruct byChance.
      * apply bind_Ok in Hrun as (u & d4 & [O4 T4]%markDoor_tiles & Hrun).
        apply IH in Hrun as (Hb & Ho & marked & Hlen & Hsub & Hout).
        split; [lia|]. split; [congruence|].
        exists (r :: marked). split; [simpl; lia|]. split; [set_solver|].
        intros i' j' Hni. rewrite Hout by set_solver.
        rewrite T4 by set_solver. by rewrite T13.
      * apply IH in Hrun as (Hb & Ho & marked & Hlen & Hsub & Hout).
        split; [lia|]. split; [congruence|]. exists marked.
        split; [done|]. split; [done|]. intros. rewrite Hout by done. by rewrite T13.
    + apply IH in Hrun as (Hb & Ho & marked & Hlen & Hsub & Hout).
      split; [lia|]. split; [congruence|]. exists marked.
      split; [done|]. split; [done|]. intros. rewrite Hout by done. by rewrite T13.
Qed.

(** X17: for each bucket the number of times a tile is made a door,
    [added_connections], ends between 1 and [maxDoors]; the tiles made doors
    belong to the bucket, and every other tile of the matrix is untouched. *)
Theorem connectBucket_at_most_maxDoors (connections : list Ref) (d d' : Dungeon)
    (n : Z) :
  connectBucket connections d = Ok (n, d') →
  1 ≤ n ≤ maxDoors (options d) ∧
  ∃ marked, Z.of_nat (length marked) = n ∧ marked ⊆ connections ∧
    ∀ i j, (i, j) ∉ marked → tileAt (tiles d') i j = tileAt (tiles d) i j.
Proof.
  unfold connectBucket. intros Hrun.
  apply bind_Ok in Hrun as (o & ? & [-> ->]%get_Ok & Hrun).
  apply bind_Ok in Hrun as (doorCount & d1 & H1 & Hrun).
  pose proof (randBetween_range _ _ _ _ _ H1) as Hdc.
  apply randBetween_tiles in H1 as [T1 O1].
  apply bind_Ok in Hrun as ([added failed] & d2 & H2 & Hrun).
  pose proof (doorLoop_marks _ _ _ _ _ _ _ _ _ _ H2)
    as (Hb & O2 & marked & Hlen & Hsub & Hout).
  apply doorLoop_Ok in H2 as (_ & Hf & _ & _); [|set_solver|lia|lia].
  apply bind_Ok in Hrun as (n' & d3 & H3 & Hrun).
  destruct (added =? 0) eqn:E.
  - apply Z.eqb_eq in E as ->.
    apply bind_Ok in H3 as (rand & d4 & [T4 O4]%randBetween_tiles & H3).
    apply bind_Ok in H3 as (r & d5 & [Hr ->]%pick_Ok & H3).
    apply bind_Ok in H3 as (a & ? & [Hta ->]%tileOf_Ok & H3).
    apply bind_Ok in H3 as (u & d6 & [O6 T6]%markDoor_tiles & H3).
    apply ret_Ok in H3 as [<- <-]. simpl in Hrun. run_inv.
    assert (Hrc : r ∈ connections).
    { case_bool_decide; [set_solver|done]. }
    split; [lia|]. exists [r]. split; [done|]. split; [set_solver|].
    intros i j Hni. rewrite T6 by set_solver. rewrite T4, Hout, T1; [done|].
    destruct marked; [set_solver|simpl in Hlen; lia].
  - apply Z.eqb_neq in E. apply ret_Ok in H3 as [<- <-].
    replace (added =? 0) with false in Hrun by (symmetry; by apply Z.eqb_neq).
    run_inv. split; [lia|]. exists marked. split; [lia|]. split; [done|].
    intros i j Hni. by rewrite Hout, T1.
Qed.

Section Connectors.
Context `{Collaborators}.

Lemma regionConnections_regions m r :
  r ∈ connectors (regionConnections m) →
  ∃ a, tileAt m r.1 r.2 = Some a ∧ (2 ≤ length (tileRegions m a))%nat.
Proof.
  unfold regionConnections.
  set (P := λ r : Ref, ∃ a, tileAt m r.1 r.2 = Some a ∧
                            (2 ≤ length (tileRegions m a))%nat).
  assert (Hgen : ∀ l acc, (∀ x, x ∈ connectors acc → P x) →
            ∀ x, x ∈ connectors (foldl (λ acc r,
               match tileAt m r.1 r.2 with
               | None => acc
               | Some a =>
                   if bool_decide (Tile.type a ≠ wall) || bool_decide (Tile.region a ≠ -1)
                   then acc
                   else
                     let regs := tileRegions m a in
                     if Z.of_nat (length regs) <=? 1 then acc
                     else addConnection (regionKey regs) r acc
               end) acc l) → P x).
  { induction l as [|r0 l IH]; simpl; intros acc Hacc; [done|].
    apply IH. destruct (tileAt m r0.1 r0.2) as [a|] eqn:Ea; [|done].
    destruct (_ || _); [done|].
    destruct (_ <=? 1) eqn:E; [done|]. apply Z.leb_gt in E.
    intros x [->|Hx]%addConnection_connectors; [|auto].
    exists a. split; [done|]. lia. }
  apply Hgen. unfold connectors. simpl. set_solver.
Qed.

Lemma connectRegions_tiles (d d' : Dungeon) :
  connectRegions d = Ok (tt, d') →
  ∀ i j a, tileAt (tiles d) i j = Some a →
    tileAt (tiles d') i j = Some a ∨
    (tileAt (tiles d') i j = Some (Tile.set_type door a) ∧
     Tile.type a = wall ∧ Tile.region a = -1 ∧
     (2 ≤ length (tileRegions (tiles d) a))%nat).
Proof.
  intros [[_ Hm] _]%connectRegions_doorStep i j a Ha.
  specialize (Hm i j). rewrite Ha in Hm.
  destruct Hm as (a' & Ha' & ((Hx & Hy & Hn) & Hr & Ht & Hk) & Hin).
  assert (∀ ty, Tile.type a' = ty → a' = Tile.set_type ty a) as Heta.
  { intros ty Hty. destruct a, a'. simpl in *. unfold Tile.set_type. simpl.
    by subst. }
  destruct (decide (Tile.type a' = Tile.type a)) as [Hsame|Hne].
  - left. rewrite Ha'. f_equal. rewrite (Heta _ Hsame). by destruct a.
  - right. destruct Hk as [|Hk]; [done|]. destruct Hin as [|Hin]; [done|].
    pose proof (regionConnections_connectors _ _ Hin) as (a0 & Ha0 & Hw & Hreg).
    apply regionConnections_regions in Hin as (a1 & Ha1 & Hregs).
    simpl in *. rewrite Ha in Ha0, Ha1. injection Ha0 as <-. injection Ha1 as <-.
    rewrite Ha', (Heta _ Hk). done.
Qed.

(** X18: [connectRegions] leaves every tile as it was or changes its type,
    and nothing else, to door; the tiles that it changes were walls of region
    -1 for which the region query had returned at least two regions. *)
Theorem connectRegions_doors_on_connectors (d d' : Dungeon) :
  connectRegions d = Ok (tt, d') →
  ∀ i j a, tileAt (tiles d) i j = Some a →
    tileAt (tiles d') i j = Some a ∨
    (tileAt (tiles d') i j = Some (Tile.set_type door a) ∧
     Tile.type a = wall ∧ Tile.region a = -1 ∧
     (2 ≤ length (tileRegions (tiles d) a))%nat).
Proof. apply connectRegions_tiles. Qed.

Lemma regionConnections_none m :
  (∀ i j a, tileAt m i j = Some a → Tile.type a = wall → Tile.region a = -1 →
            (length (tileRegions m a) ≤ 1)%nat) →
  regionConnections m = [].
Proof.
  intros Hnone. unfold regionConnections.
  induction (allRefs m) as [|r l IH]; [done|]. simpl.
  destruct (tileAt m r.1 r.2) as [a|] eqn:Ea; [|done].
  destruct (bool_decide (Tile.type a ≠ wall)) eqn:E1; [done|].
  destruct (bool_decide (Tile.region a ≠ -1)) eqn:E2; [done|]. simpl.
  apply bool_decide_eq_false in E1, E2.
  assert (Tile.type a = wall) by by destruct (decide (Tile.type a = wall)).
  assert (Tile.region a = -1) by by destruct (decide (Tile.region a = -1)).
  rewrite (proj2 (Z.leb_le _ 1)); [done|].
  pose proof (Hnone _ _ _ Ea ltac:(done) ltac:(done)). lia.
Qed.

(** X19: where no wall of region -1 has two or more regions around it,
    [connectRegions] has no bucket to work on: it returns without a draw and
    leaves the instance as it is, even one with no generator. *)
Theorem connectRegions_without_connectors (d : Dungeon) :
  (∀ i j a, tileAt (tiles d) i j = Some a →
     Tile.type a = wall → Tile.region a = -1 →
     (length (tileRegions (tiles d) a) ≤ 1)%nat) →
  connectRegions d = Ok (tt, d).
Proof.
  intros Hnone%regionConnections_none. unfold connectRegions.
  rewrite bind_run. unfold get. by rewrite Hnone.
Qed.

Lemma noConnectorsb_correct m :
  noConnectorsb m = true →
  ∀ i j a, tileAt m i j = Some a → Tile.type a = wall → Tile.region a = -1 →
           (length (tileRegions m a) ≤ 1)%nat.
Proof.
  unfold noConnectorsb. rewrite forallb_forall. intros Hall i j a Ha Hw Hr.
  specialize (Hall (i, j)). simpl in Hall. rewrite Ha in Hall.
  assert (Hin : (i, j) ∈ allRefs m) by (apply allRefs_elem; eauto).
  apply list_elem_of_In, Hall in Hin.
  unfold Tile.isWall in Hin. rewrite bool_decide_eq_true_2 in Hin by done.
  rewrite Hr in Hin. simpl in Hin. by apply Nat.leb_le in Hin.
Qed.

End Connectors.

Lemma connectBucket_at_most_maxDoors_witness :
  let d := carved (example []) 5 5 defaultOptions in
  let d' := after (connectBucket [(1, 2)]) d in
  1 ≤ 1 ≤ maxDoors (options d) ∧
  ∃ marked, Z.of_nat (length marked) = 1 ∧ marked ⊆ [(1, 2)] ∧
    ∀ i j, (i, j) ∉ marked → tileAt (tiles d') i j = tileAt (tiles d) i j.
Proof.
  intros d d'.
  apply (connectBucket_at_most_maxDoors [(1, 2)] d d' 1).
  vm_compute. reflexivity.
Defined.

Lemma connectRegions_doors_on_connectors_witness :
  let env := example [] in
  let d := carved env 5 5 defaultOptions in
  let d' := after (connectRegions (H := env)) d in
  let a := Tile.mk wall (neighborsAt (tiles d) 1 2) 1 2 (-1) None in
  tileAt (tiles d') 1 2 = Some a ∨
  (tileAt (tiles d') 1 2 = Some (Tile.set_type door a) ∧
   Tile.type a = wall ∧ Tile.region a = -1 ∧
   (2 ≤ length (tileRegions (Collaborators := env) (tiles d) a))%nat).
Proof.
  intros env d d' a.
  apply (connectRegions_doors_on_connectors (H := env) d d'
           ltac:(vm_compute; reflexivity) 1 2 a).
  vm_compute. reflexivity.
Defined.

Lemma connectRegions_without_connectors_witness :
  let env := example [] in
  let d := filled env 5 5 defaultOptions in
  connectRegions (H := env) d = Ok (tt, d).
Proof.
  intros env d.
  apply (connectRegions_without_connectors (H := env) d).
  apply noConnectorsb_correct. vm_compute. reflexivity.
Defined.

(** ** The footprint of the carving stages *)

Lemma candidate_set_rng `{Collaborators} d r d1 :
  candidate d = Ok (r, d1) → ∃ c, d1 = set_rng (Some c) d.
Proof.
  intros (st & size & _ & _ & _ & (c & _ & Hc) & Hsame)%candidate_Ok.
  exists (mkChance (stream c) (cursor c + length (attemptRanges (options d) st size r))
            (calls c ++ attemptRanges (options d) st size r)).
  rewrite <- Hc. transitivity (set_rng (rng d1) (set_rng (rng d) d1)).
  - by destruct d1.
  - by rewrite Hsame.
Qed.

Section Footprint.
Context `{Collaborators}.
Variable R : Dungeon → Dungeon → Prop.
Hypothesis R_refl : Reflexive R.
Hypothesis R_trans : Transitive R.
Hypothesis R_rng : ∀ c d, R d (set_rng (Some c) d).
Hypothesis R_startRegion : ∀ ty d r d', startRegion ty d = Ok (r, d') → R d d'.
Hypothesis R_setTile : ∀ x y d a d', setTile x y (Some floor) d = Ok (a, d') → R d d'.

Lemma R_randBetween lo hi d v d' : randBetween lo hi d = Ok (v, d') → R d d'.
Proof. intros (c & _ & _ & _ & ->)%randBetween_Ok. apply R_rng. Qed.

Lemma chooseDirection_footprint l last d p d' :
  chooseDirection l last d = Ok (p, d') → R d d'.
Proof.
  unfold chooseDirection. intros Hrun.
  apply bind_Ok in Hrun as (o & ? & [-> ->]%get_Ok & Hrun).
  apply bind_Ok in Hrun as (prefer & d1 & H1 & Hrun).
  assert (S1 : R d d1).
  { destruct last; [|by run_inv]. case_bool_decide; [|by run_inv].
    apply bind_Ok in H1 as (v & d2 & H1 & H2). run_inv. by eapply R_randBetween. }
  assert (∀ d2, uniformPick l d1 = Ok (p, d2) → R d1 d2) as Hpick.
  { unfold uniformPick. intros d2 Hu.
    apply bind_Ok in Hu as (rand & d3 & H3 & Hu).
    apply R_randBetween in H3. destruct (_ !! _); [|done]. by run_inv. }
  etrans; [exact S1|].
  destruct prefer, last; try (by apply Hpick). by run_inv.
Qed.

Lemma growStep_footprint cells last d r d' :
  growStep cells last d = Ok (r, d') → R d d'.
Proof.
  unfold growStep. intros Hrun. destruct (list.last cells) as [cell|]; [|by run_inv].
  apply bind_Ok in Hrun as (l & d1 & ->%unmade_Ok & Hrun).
  case_bool_decide; [|by run_inv].
  apply bind_Ok in Hrun as (dir & d2 & H2 & Hrun).
  apply bind_Ok in Hrun as (a1 & d3 & H3 & Hrun).
  apply bind_Ok in Hrun as (a2 & d4 & H4 & Hrun).
  run_inv.
  etrans; [by eapply chooseDirection_footprint|].
  etrans; by eapply R_setTile.
Qed.

Lemma growLoop_footprint remaining :
  ∀ cells last d u d', growLoop remaining cells last d = Ok (u, d') → R d d'.
Proof.
  induction remaining as [|k IH]; intros cells last d u d' Hrun; simpl in Hrun.
  - by run_inv.
  - case_bool_decide; [by run_inv|].
    apply bind_Ok in Hrun as ([cells' last'] & d1 & H1 & Hrun).
    etrans; [by eapply growStep_footprint|by eapply IH].
Qed.

Lemma growMaze_footprint x y d u d' : growMaze x y d = Ok (u, d') → R d d'.
Proof.
  unfold growMaze. intros Hrun.
  apply bind_Ok in Hrun as (m & ? & [-> ->]%get_Ok & Hrun).
  destruct (tileAt _ _ _); [|done].
  destruct (earlyOut _ _); [by run_inv|].
  apply bind_Ok in Hrun as (r & d1 & H1 & Hrun).
  apply bind_Ok in Hrun as (a & d2 & H2 & Hrun).
  etrans; [by eapply R_startRegion|].
  etrans; [by eapply R_setTile|by eapply growLoop_footprint].
Qed.

Lemma fillMazes_footprint d u d' : fillMazes d = Ok (u, d') → R d d'.
Proof.
  unfold fillMazes. intros Hrun.
  apply bind_Ok in Hrun as (st & ? & [_ ->]%getSome_Ok & Hrun).
  revert Hrun. apply forEach_rel; [done..|]. intros y d1 u1 d1' _.
  apply forEach_rel; [done..|]. intros x d2 u2 d2' _ Hb.
  apply bind_Ok in Hb as (a & ? & [_ ->]%getTile_Ok & Hb).
  case_bool_decide; [by run_inv|by eapply growMaze_footprint].
Qed.

Hypothesis R_pushRoom : ∀ r d, R d (set_rooms (rooms d ++ [r]) d).

Lemma addRoomAttempt_footprint d u d' : addRoomAttempt d = Ok (u, d') → R d d'.
Proof.
  intros (r & d1 & Hc & Hrun)%addRoomAttempt_inv.
  apply candidate_set_rng in Hc as [c ->].
  etrans; [apply (R_rng c)|].
  destruct (existsb _ _); [by subst|]. cbv zeta in Hrun.
  etrans; [apply (R_pushRoom r)|].
  etrans; [eapply (R_startRegion room); by apply startRegion_Ok|].
  rewrite carveArea_rect in Hrun. revert Hrun.
  apply forEach_rel; [done..|]. intros p ???? Hs. run_inv. by eapply R_setTile.
Qed.

Lemma addRooms_footprint d u d' : addRooms d = Ok (u, d') → R d d'.
Proof. apply addRooms_rel; [done..|]. apply addRoomAttempt_footprint. Qed.

End Footprint.

(** ** What build returns on a new instance *)

Global Instance floored_refl : Reflexive floored.
Proof. intros a. by left. Qed.
Global Instance floored_trans : Transitive floored.
Proof.
  intros a1 a2 a3 [->|(T1 & G1 & K1)] [->|(T2 & G2 & K2)]; try (by left).
  - right. done.
  - right. done.
  - right. repeat split; try done; destruct K1 as (? & ? & ?), K2 as (? & ? & ?);
      congruence.
Qed.

Global Instance carves_refl : Reflexive carves.
Proof. intros d. repeat split; try done. intros i j. destruct (tileAt _ i j); eauto.
  eexists. split; [done|]. by left. Qed.
Global Instance carves_trans : Transitive carves.
Proof.
  intros d1 d2 d3 (S1 & E1 & M1) (S2 & E2 & M2).
  split; [congruence|]. split; [congruence|]. by etrans.
Qed.

Lemma carves_rng c d : carves d (set_rng (Some c) d).
Proof. split; [done|]. split; [done|]. simpl. reflexivity. Qed.

Lemma carves_startRegion ty d r d' : startRegion ty d = Ok (r, d') → carves d d'.
Proof. intros [-> ->]%startRegion_Ok. split; [done|]. split; [done|]. simpl. reflexivity. Qed.

Lemma carves_setTile x y d a d' :
  setTile x y (Some floor) d = Ok (a, d') → carves d d'.
Proof.
  intros (a0 & r & Ha & Hr & -> & ->)%setTile_Ok. split; [done|]. split; [done|].
  simpl. apply matrixRel_updTile; [apply _|]. intros a1 _. right.
  split; [done|]. split; [by eexists|done].
Qed.

Lemma carves_pushRoom r d : carves d (set_rooms (rooms d ++ [r]) d).
Proof. split; [done|]. split; [done|]. simpl. reflexivity. Qed.

Section BuildResult.
Context `{Collaborators}.

Lemma addRooms_carves d u d' : addRooms d = Ok (u, d') → carves d d'.
Proof.
  apply (addRooms_footprint carves); try apply _.
  - apply carves_rng.
  - apply carves_startRegion.
  - apply carves_setTile.
  - apply carves_pushRoom.
Qed.

Lemma fillMazes_carves d u d' : fillMazes d = Ok (u, d') → carves d d'.
Proof.
  apply (fillMazes_footprint carves); try apply _.
  - apply carves_rng.
  - apply carves_startRegion.
  - apply carves_setTile.
Qed.

Lemma fillMazes_rooms d u d' : fillMazes d = Ok (u, d') → rooms d' = rooms d.
Proof.
  apply (fillMazes_footprint (λ d d', rooms d' = rooms d)).
  - by intros ?.
  - intros ???. congruence.
  - done.
  - by intros ???? [-> ->]%startRegion_Ok.
  - by intros ????? (a0 & r & Ha & Hr & -> & ->)%setTile_Ok.
Qed.

Lemma validate_seed slug st d u d' :
  validate slug st d = Ok (u, d') →
  seed d' = (if truthy (stage_seed st) then stage_seed st else SeedString slug) ∧
  rng d' = Some (mkChance (Chance_stream (seed d')) 0 []).
Proof.
  unfold validate. destruct (_ <? 5); [done|]. destruct (_ <? 5); [done|].
  intros Hrun. run_inv. done.
Qed.

(** The stages of a call of [build] that returns. *)
Lemma build_stages slug budget s d r d' :
  build slug budget s d = Ok (r, d') →
  ∃ d1 d2 d3 d4 d5,
    validate slug (mkStage (default 5 (in_width s)) (default 5 (in_height s))
                           (in_seed s)) d = Ok (tt, d1) ∧
    fill wall d1 = Ok (tt, d2) ∧
    addRooms d2 = Ok (tt, d3) ∧
    fillMazes d3 = Ok (tt, d4) ∧
    connectRegions d4 = Ok (tt, d5) ∧
    (if removeDeadEndsOpt (options d5) then removeDeadEnds budget d5 = Ok (tt, d')
     else d' = d5) ∧
    r = mkResults (rooms d') (tiles d') (seed d').
Proof.
  unfold build. intros Hrun.
  apply bind_Ok in Hrun as ([] & d1 & H1 & Hrun).
  apply bind_Ok in Hrun as ([] & d2 & H2 & Hrun).
  apply bind_Ok in Hrun as ([] & d3 & H3 & Hrun).
  apply bind_Ok in Hrun as ([] & d4 & H4 & Hrun).
  apply bind_Ok in Hrun as ([] & d5 & H5 & Hrun).
  apply bind_Ok in Hrun as (o & ? & [-> ->]%get_Ok & Hrun).
  apply bind_Ok in Hrun as ([] & d6 & H6 & Hrun).
  apply bind_Ok in Hrun as (dd & ? & [-> ->]%get_Ok & Hrun).
  apply ret_Ok in Hrun as [<- <-].
  exists d1, d2, d3, d4, d5. repeat (split; [done|]). split; [|done].
  destruct (removeDeadEndsOpt _); [done|]. by apply ret_Ok in H6 as [_ <-].
Qed.

(** X20: when [build] returns on a new instance, the result holds the room
    list and the tile matrix of the instance and the seed in use, which is the
    seed of the stage, or the generated slug if that seed is falsy.  The
    matrix has a tile exactly at the positions of the stage, whose sides are
    the dimensions asked for (5 by default), raised to the next odd number
    and multiplied by [multiplier]; the tile at [(x, y)] has the coordinates
    [(x, y)] and is linked to the positions around it that are on the stage.
    Every room lies on the stage, clear of its outer ring. *)
Theorem build_new_instance_result (slug : string) (budget : nat) (s : StageInput)
    (o : DungeonOptionsInput) (r : Results) (d' : Dungeon) :
  build slug budget s (Dungeon_new o) = Ok (r, d') →
  let st := mkStage
              (nextOdd (default 5 (in_width s)) * multiplier (options (Dungeon_new o)))
              (nextOdd (default 5 (in_height s)) * multiplier (options (Dungeon_new o)))
              (in_seed s) in
  stage d' = Some st ∧
  res_rooms r = rooms d' ∧ res_tiles r = tiles d' ∧
  res_seed r = (if truthy (in_seed s) then in_seed s else SeedString slug) ∧
  length (res_tiles r) = Z.to_nat (width st) ∧
  (∀ i j, match tileAt (res_tiles r) i j with
          | Some a => inGrid (width st) (height st) i j = true ∧
                      Tile.x a = i ∧ Tile.y a = j ∧
                      Tile.neighbors a = gridNeighbors (width st) (height st) i j
          | None => inGrid (width st) (height st) i j = false
          end) ∧
  Forall (insideStage st) (res_rooms r).
Proof.
  intros Hrun st.
  pose proof (Dungeon_new_multiplier o) as Hm1.
  assert (tiles (Dungeon_new o) = [] ∧ rooms (Dungeon_new o) = []) as [Ht0 Hr0] by done.
  unfold st. clear st. revert Hrun Hm1 Ht0 Hr0.
  generalize (Dungeon_new o). intros d0 Hrun Hm1 Ht0 Hr0.
  set (st := mkStage (nextOdd (default 5 (in_width s)) * multiplier (options d0))
                     (nextOdd (default 5 (in_height s)) * multiplier (options d0))
                     (in_seed s)).
  pose proof (build_Ok _ _ _ _ _ _ Hrun) as (st1 & d1' & d2' & Hv' & _ & Hf' & Hp & _).
  apply build_stages in Hrun as (d1 & d2 & d3 & d4 & d5 & Hv & Hf & H3 & H4 & H5 & H6 & ->).
  rewrite Hv in Hv'. injection Hv' as <-. rewrite Hf in Hf'. injection Hf' as <-.
  pose proof (validate_seed _ _ _ _ _ Hv) as [Hseed _].
  apply validate_Ok in Hv as (Hw & Hh & Hst & Ho1 & Ht1 & Hr1 & _).
  cbn [width height stage_seed] in *. fold st in Hst. rewrite Ht0 in Ht1.
  pose proof (fill_new_tiles _ _ _ _ Ht1 Hst Hf) as [Hlen Hgrid].
  assert (stage d2 = stage d1 ∧ options d2 = options d1 ∧ rooms d2 = rooms d1
          ∧ seed d2 = seed d1) as (Hst2 & Ho2 & Hr2 & Hs2).
  { by apply fill_Ok in Hf as (st' & _ & ->). }
  pose proof (addRooms_carves _ _ _ H3) as (S3 & _).
  assert (5 * multiplier (options d2) ≤ width st
          ∧ 5 * multiplier (options d2) ≤ height st) as [Hw5 Hh5].
  { rewrite Ho2, Ho1. unfold st. cbn [width height]. unfold nextOdd.
    split; destruct (Z.even _); nia. }
  destruct (addRooms_added_inside d2 d3 st H3) as (added & Hadd & Hin);
    [congruence|congruence|done|done|].
  rewrite Hr2, Hr1, Hr0 in Hadd. simpl in Hadd.
  pose proof (fillMazes_carves _ _ _ H4) as (S4 & _).
  pose proof (fillMazes_rooms _ _ _ H4) as R4.
  apply connectRegions_doorStep in H5 as (_ & _ & _ & R5 & _ & S5 & _).
  assert (seed d' = seed d5 ∧ rooms d' = rooms d5) as [S6 R6].
  { destruct (removeDeadEndsOpt _); [|by subst].
    apply removeDeadEnds_tilesStep in H6 as [(_ & _ & _ & ? & _ & ? & _) _]. done. }
  destruct Hp as ([Hlen' Hm] & _ & _ & Hstage). cbn [res_rooms res_tiles res_seed].
  split; [congruence|]. split; [done|]. split; [done|].
  split; [congruence|]. split; [congruence|]. split.
  - intros i j. specialize (Hm i j). rewrite Hgrid in Hm.
    destruct (inGrid _ _ i j).
    + destruct Hm as (a' & -> & Hx & Hy & Hn). done.
    + by rewrite Hm.
  - rewrite R6, R5, R4, Hadd. done.
Qed.

Lemma wellKinded_floored a a' : floored a a' → wellKinded a → wellKinded a'.
Proof.
  intros [->|(Hty & Hrt & _)]; [done|]. intros _. unfold wellKinded. by rewrite Hty.
Qed.

(** X21: when [build] returns on a new instance, every tile of the matrix is
    a wall or a door with region -1 and no region type, or a floor with a
    region type; no tile is a shaft or stairs. *)
Theorem build_new_instance_tile_kinds (slug : string) (budget : nat)
    (s : StageInput) (o : DungeonOptionsInput) (r : Results) (d' : Dungeon) :
  build slug budget s (Dungeon_new o) = Ok (r, d') →
  ∀ i j a, tileAt (res_tiles r) i j = Some a → wellKinded a.
Proof.
  intros Hrun.
  apply build_stages in Hrun as (d1 & d2 & d3 & d4 & d5 & Hv & Hf & H3 & H4 & H5 & H6 & ->).
  assert (Hc5 : coordsMatch (tiles d5)).
  { eapply (build_canonical_before_removeDeadEnds slug _ (Dungeon_new o)); [done|].
    unfold beforeRemoveDeadEnds.
    repeat (apply bind_Ok; eexists tt, _; split; [eassumption|]). exact H5. }
  apply validate_Ok in Hv as (_ & _ & Hst & _ & Ht1 & _). simpl in Ht1.
  pose proof (fill_new_tiles _ _ _ _ Ht1 Hst Hf) as [_ Hgrid].
  apply addRooms_carves in H3 as (_ & _ & [_ M3]).
  apply fillMazes_carves in H4 as (_ & _ & [_ M4]).
  pose proof (connectRegions_tiles _ _ H5) as M5.
  simpl. intros i j a6 Ha6.
  assert (∃ a5, tileAt (tiles d5) i j = Some a5 ∧ (a6 = a5 ∨ a6 = cleared a5))
    as (a5 & Ha5 & Hk6).
  { destruct (removeDeadEndsOpt _); [|subst; eauto].
    pose proof (removeDeadEnds_tilesStep _ _ _ _ H6) as [_ [_ M6]].
    apply removeDeadEndsLoop_prunes in H6 as [_ P6].
    specialize (M6 i j). destruct (tileAt (tiles d5) i j) as [a5|] eqn:E5.
    - exists a5. split; [done|].
      destruct (P6 Hc5 i j a5 E5) as [E|[E _]]; rewrite E in Ha6;
        injection Ha6 as <-; eauto.
    - congruence. }
  assert (∃ a4, tileAt (tiles d4) i j = Some a4) as [a4 Ha4].
  { apply connectRegions_doorStep in H5 as [[_ D5] _]. specialize (D5 i j).
    destruct (tileAt (tiles d4) i j); [eauto|congruence]. }
  assert (∃ a3, tileAt (tiles d3) i j = Some a3 ∧ floored a3 a4) as (a3 & Ha3 & F4).
  { specialize (M4 i j). destruct (tileAt (tiles d3) i j) as [a3|]; [|congruence].
    destruct M4 as (? & E & ?). rewrite Ha4 in E. injection E as <-. eauto. }
  assert (∃ a2, tileAt (tiles d2) i j = Some a2 ∧ floored a2 a3) as (a2 & Ha2 & F3).
  { specialize (M3 i j). destruct (tileAt (tiles d2) i j) as [a2|]; [|congruence].
    destruct M3 as (? & E & ?). rewrite Ha3 in E. injection E as <-. eauto. }
  assert (wellKinded a2) as K2.
  { rewrite Hgrid in Ha2. destruct (inGrid _ _ i j); [|done].
    injection Ha2 as <-. done. }
  assert (wellKinded a4) as K4 by eauto using wellKinded_floored.
  assert (wellKinded a5) as K5.
  { destruct (M5 i j a4 Ha4) as [E|(E & Hw & Hr & _)]; rewrite Ha5 in E;
      injection E as ->; [done|].
    unfold wellKinded in *. simpl. rewrite Hw in K4. done. }
  destruct Hk6 as [->| ->]; [done|]. done.
Qed.

End BuildResult.


Lemma build_new_instance_result_witness :
  let env := example mazeDraws in
  let d' := usedInstance in
  let r := mkResults (rooms d') (tiles d') (seed d') in
  let st := mkStage (nextOdd (default 5 (in_width stage9))
                     * multiplier (options (Dungeon_new pruning)))
                    (nextOdd (default 5 (in_height stage9))
                     * multiplier (options (Dungeon_new pruning)))
                    (in_seed stage9) in
  stage d' = Some st ∧
  res_rooms r = rooms d' ∧ res_tiles r = tiles d' ∧
  res_seed r = (if truthy (in_seed stage9) then in_seed stage9 else SeedString "slug") ∧
  length (res_tiles r) = Z.to_nat (width st) ∧
  (∀ i j, match tileAt (res_tiles r) i j with
          | Some a => inGrid (width st) (height st) i j = true ∧
                      Tile.x a = i ∧ Tile.y a = j ∧
                      Tile.neighbors a = gridNeighbors (width st) (height st) i j
          | None => inGrid (width st) (height st) i j = false
          end) ∧
  Forall (insideStage st) (res_rooms r).
Proof.
  intros env d' r.
  apply (build_new_instance_result (H := env) "slug" 60 stage9 pruning r d').
  vm_compute. reflexivity.
Defined.

Lemma build_new_instance_tile_kinds_witness :
  let d' := usedInstance in
  let a := Tile.mk floor (gridNeighbors 9 9 1 1) 1 1 0 (Some room) in
  tileAt (tiles d') 1 1 = Some a ∧ wellKinded a.
Proof.
  intros d' a. split; [vm_compute; reflexivity|].
  apply (build_new_instance_tile_kinds (H := example mazeDraws) "slug" 60 stage9
           pruning (mkResults (rooms d') (tiles d') (seed d')) d'
           ltac:(vm_compute; reflexivity) 1 1 a).
  vm_compute. reflexivity.
Defined.

(** ** The corridor that growMaze carves *)

Lemma paint_app r ty ps1 ps2 m :
  paint r ty (ps1 ++ ps2) m = paint r ty ps2 (paint r ty ps1 m).
Proof. unfold paint. by rewrite foldl_app. Qed.

Section Corridor.
Context `{Collaborators}.

Lemma chooseDirection_rng_only l last d p d' :
  chooseDirection l last d = Ok (p, d') →
  tiles d' = tiles d ∧ region d' = region d ∧ rooms d' = rooms d ∧
  nextRegionId d' = nextRegionId d.
Proof.
  apply (chooseDirection_footprint
           (λ d d', tiles d' = tiles d ∧ region d' = region d ∧ rooms d' = rooms d
                    ∧ nextRegionId d' = nextRegionId d)).
  - by intros ?.
  - intros d1 d2 d3 (? & ? & ? & ?) (? & ? & ? & ?). repeat split; congruence.
  - done.
Qed.

Lemma growStep_paints r cells last d res d' :
  region d = Some r → growStep cells last d = Ok (res, d') →
  region d' = Some r ∧ rooms d' = rooms d ∧ nextRegionId d' = nextRegionId d ∧
  ∃ marked, (length marked ≤ 2)%nat ∧
    tiles d' = paint r (Some floor) marked (tiles d).
Proof.
  intros Hr. unfold growStep. intros Hrun.
  destruct (list.last cells) as [cell|].
  2:{ run_inv. repeat (split; [done|]). exists []. split; [simpl; lia|done]. }
  apply bind_Ok in Hrun as (l & d1 & ->%unmade_Ok & Hrun).
  case_bool_decide.
  2:{ run_inv. repeat (split; [done|]). exists []. split; [simpl; lia|done]. }
  apply bind_Ok in Hrun as (dir & d2 & (T2 & R2 & M2 & N2)%chooseDirection_rng_only & Hrun).
  apply bind_Ok in Hrun as (a1 & d3 & H3 & Hrun).
  apply bind_Ok in Hrun as (a2 & d4 & H4 & Hrun).
  apply ret_Ok in Hrun as [_ <-].
  apply setTile_Ok in H3 as (? & r3 & _ & Hr3 & _ & ->).
  apply setTile_Ok in H4 as (? & r4 & _ & Hr4 & _ & ->).
  simpl in *. rewrite R2, Hr in Hr3. injection Hr3 as <-.
  rewrite R2, Hr in Hr4. injection Hr4 as <-.
  split; [congruence|]. split; [done|]. split; [done|].
  eexists [(_, _); (_, _)]. split; [simpl; lia|]. unfold paint. simpl.
  by rewrite T2.
Qed.

Lemma growLoop_paints r remaining :
  ∀ cells last d u d',
    region d = Some r → growLoop remaining cells last d = Ok (u, d') →
    region d' = Some r ∧ rooms d' = rooms d ∧ nextRegionId d' = nextRegionId d ∧
    ∃ marked, (length marked ≤ 2 * remaining)%nat ∧
      tiles d' = paint r (Some floor) marked (tiles d).
Proof.
  induction remaining as [|k IH]; intros cells last d u d' Hr Hrun; simpl in Hrun.
  - run_inv. repeat (split; [done|]). exists []. split; [simpl; lia|done].
  - case_bool_decide.
    { run_inv. repeat (split; [done|]). exists []. split; [simpl; lia|done]. }
    apply bind_Ok in Hrun as ([cells' last'] & d1 & H1 & Hrun).
    apply (growStep_paints r) in H1 as (R1 & M1 & N1 & l1 & L1 & T1); [|done].
    apply IH in Hrun as (R2 & M2 & N2 & l2 & L2 & T2); [|done].
    split; [done|]. split; [congruence|]. split; [congruence|].
    exists (l1 ++ l2). rewrite length_app, paint_app, T2, T1. split; [lia|done].
Qed.

(** X23: a call of [growMaze] that returns has started one corridor region
    and made tiles floors of that region, the start tile first: at most 1001
    assignments, two for each of the at most 500 rounds of its loop; no other
    tile is touched and the room list is as before.  The test of line 251
    never ends the call early, also where a neighbour of the start tile is a
    floor. *)
Theorem growMaze_carves_one_region (x y : Z) (d d' : Dungeon) :
  growMaze x y d = Ok (tt, d') →
  let r := mkRegion (nextRegionId d) corridor in
  region d' = Some r ∧ nextRegionId d' = nextRegionId d + 1 ∧
  rooms d' = rooms d ∧
  ∃ marked, (length marked ≤ 1000)%nat ∧
    tiles d' = paint r (Some floor) ((x, y) :: marked) (tiles d).
Proof.
  unfold growMaze. intros Hrun.
  apply bind_Ok in Hrun as (m & ? & [-> ->]%get_Ok & Hrun).
  destruct (tileAt _ _ _) as [a0|]; [|done].
  change (earlyOut (tiles d) a0) with false in Hrun.
  apply bind_Ok in Hrun as (r & d1 & [-> ->]%startRegion_Ok & Hrun).
  apply bind_Ok in Hrun as (a & d2 & H2 & Hrun).
  apply setTile_Ok in H2 as (? & r2 & _ & [= <-] & _ & ->).
  apply (growLoop_paints (mkRegion (nextRegionId d) corridor)) in Hrun
    as (R & M & N & marked & L & T); [|done].
  simpl in *. split; [done|]. split; [done|]. split; [done|].
  exists marked. split; [lia|]. by rewrite T.
Qed.

End Corridor.

(** The start tile (1,1) of the witness lies beside the floor of a room, at
    (1,2): the call carves it all the same. *)
Lemma growMaze_carves_one_region_witness :
  let env := example mazeDraws in
  let d := after (startRegion room;; setTile 1 2 (Some floor)) beforeRooms in
  let d' := after (growMaze (H := env) 1 1) d in
  let r := mkRegion (nextRegionId d) corridor in
  region d' = Some r ∧ nextRegionId d' = nextRegionId d + 1 ∧
  rooms d' = rooms d ∧
  ∃ marked, (length marked ≤ 1000)%nat ∧
    tiles d' = paint r (Some floor) ((1, 1) :: marked) (tiles d).
Proof.
  intros env d d'.
  apply (growMaze_carves_one_region (H := env) 1 1 d d').
  vm_compute. reflexivity.
Defined.

(** ** The buckets of connectRegions *)

Lemma addConnection_keys key r acc k :
  k ∈ fst <$> addConnection key r acc ↔ k = key ∨ k ∈ fst <$> acc.
Proof.
  induction acc as [|[k0 v] acc IH]; simpl.
  - set_solver.
  - destruct (String.eqb k0 key) eqn:E; simpl.
    + apply String.eqb_eq in E as ->. set_solver.
    + rewrite !elem_of_cons, IH. tauto.
Qed.

Lemma addConnection_has key r acc :
  ∃ l, (key, l) ∈ addConnection key r acc ∧ r ∈ l.
Proof.
  induction acc as [|[k0 v] acc IH]; simpl.
  - exists [r]. set_solver.
  - destruct (String.eqb k0 key) eqn:E.
    + apply String.eqb_eq in E as ->. exists (v ++ [r]). set_solver.
    + destruct IH as (l & ? & ?). exists l. set_solver.
Qed.

Lemma addConnection_mono key r acc k l :
  (k, l) ∈ acc → ∃ l', (k, l') ∈ addConnection key r acc ∧ l ⊆ l'.
Proof.
  induction acc as [|[k0 v] acc IH]; simpl; [by intros ?%elem_of_nil|].
  intros [[= -> ->]|Hin]%elem_of_cons.
  - destruct (String.eqb k0 key) eqn:E.
    + exists (v ++ [r]). set_solver.
    + exists v. set_solver.
  - destruct (String.eqb k0 key) eqn:E.
    + exists l. set_solver.
    + destruct (IH Hin) as (l' & ? & ?). exists l'. set_solver.
Qed.

Section Buckets.
Context `{Collaborators}.
Variable m : TileMatrix.

Lemma addConnection_keyed key r acc :
  keyed m acc → connector m r key → keyed m (addConnection key r acc).
Proof.
  intros [Hnd Hacc] Hr. induction acc as [|[k0 v] acc IH]; simpl.
  - split; [apply NoDup_singleton|].
    intros k l [= -> ->]%list_elem_of_singleton. split; [done|].
    by intros r' ->%list_elem_of_singleton.
  - simpl in Hnd. apply NoDup_cons in Hnd as [Hk0 Hnd].
    destruct (String.eqb k0 key) eqn:E.
    + apply String.eqb_eq in E as ->. split; [by apply NoDup_cons|].
      intros k l [[= -> ->]|Hin]%elem_of_cons.
      * split; [by destruct v|]. intros r' [Hr'|Hr']%elem_of_app.
        -- eapply Hacc; [left|done].
        -- apply list_elem_of_singleton in Hr'. by subst.
      * apply Hacc. by right.
    + apply String.eqb_neq in E.
      destruct IH as [IH1 IH2]; [done|intros ?? ?; apply Hacc; by right|].
      split.
      * simpl. apply NoDup_cons. split; [|done].
        rewrite addConnection_keys. intros [?|?]; done.
      * intros k l [[= -> ->]|Hin]%elem_of_cons; [apply Hacc; left|by apply IH2].
Qed.

Lemma visit_cases acc r :
  (visit m acc r = acc ∧ ∀ key, ¬ connector m r key) ∨
  (∃ key, visit m acc r = addConnection key r acc ∧ connector m r key).
Proof.
  unfold visit. destruct (tileAt m r.1 r.2) as [a|] eqn:Ea.
  2:{ left. split; [done|]. intros key (a & Ha & _). congruence. }
  destruct (bool_decide_reflect (Tile.type a ≠ wall)) as [Hw|Hw]; simpl.
  { left. split; [done|]. intros key (a' & Ha & ? & _). congruence. }
  destruct (bool_decide_reflect (Tile.region a ≠ -1)) as [Hr|Hr]; simpl.
  { left. split; [done|]. intros key (a' & Ha & _ & ? & _). congruence. }
  destruct (Z.leb_spec (Z.of_nat (length (tileRegions m a))) 1) as [Hl|Hl].
  { left. split; [done|]. intros key (a' & Ha & _ & _ & ? & _).
    assert (a' = a) as -> by congruence. lia. }
  right. eexists. split; [done|]. exists a. split; [done|].
  split; [by destruct (decide (Tile.type a = wall))|].
  split; [by destruct (decide (Tile.region a = -1))|]. split; [lia|done].
Qed.

Lemma visits_keyed l :
  ∀ acc processed,
    keyed m acc →
    (∀ r key, r ∈ processed → connector m r key → ∃ b, (key, b) ∈ acc ∧ r ∈ b) →
    keyed m (foldl (visit m) acc l) ∧
    ∀ r key, r ∈ processed ++ l → connector m r key →
             ∃ b, (key, b) ∈ foldl (visit m) acc l ∧ r ∈ b.
Proof.
  induction l as [|r0 l IH]; intros acc processed Hk Hc; simpl.
  - split; [done|]. intros r key. rewrite app_nil_r. apply Hc.
  - destruct (IH (visit m acc r0) (processed ++ [r0])) as [IH1 IH2].
    + destruct (visit_cases acc r0) as [[-> _]|(key & -> & Hr0)]; [done|].
      by apply addConnection_keyed.
    + intros r key [Hr|Hr]%elem_of_app Hconn.
      * destruct (Hc r key Hr Hconn) as (b & Hb & Hrb).
        destruct (visit_cases acc r0) as [[-> _]|(key0 & -> & _)]; [eauto|].
        destruct (addConnection_mono key0 r0 acc key b Hb) as (b' & ? & ?).
        exists b'. split; [done|]. set_solver.
      * apply list_elem_of_singleton in Hr as ->.
        destruct (visit_cases acc r0) as [[_ Hno]|(key0 & -> & Hr0)].
        { by destruct (Hno key). }
        assert (key0 = key) as ->.
        { destruct Hconn as (a & Ha & _ & _ & _ & ->).
          destruct Hr0 as (a' & Ha' & _ & _ & _ & ->). congruence. }
        apply addConnection_has.
    + split; [done|]. intros r key Hr. apply IH2. by rewrite <- app_assoc.
Qed.

(** X24: the buckets that [connectRegions] builds have distinct keys; none
    is empty; a bucket holds connectors only, walls of region -1 with two or
    more regions around them, and its key is the regions of each of them
    joined with a dash; and every such wall of the matrix is in the bucket
    of its key. *)
Theorem regionConnections_buckets :
  NoDup (fst <$> regionConnections m) ∧
  (∀ k l, (k, l) ∈ regionConnections m →
     l ≠ [] ∧ ∀ r, r ∈ l → connector m r k) ∧
  (∀ r key, connector m r key →
     ∃ l, (key, l) ∈ regionConnections m ∧ r ∈ l).
Proof.
  destruct (visits_keyed (allRefs m) [] []) as [[Hnd Hin] Hall].
  - split; [apply NoDup_nil_2|]. by intros ?? ?%elem_of_nil.
  - by intros ?? ?%elem_of_nil.
  - split; [exact Hnd|]. split; [exact Hin|].
    intros [i j] key Hconn. apply Hall; [|done]. simpl.
    apply allRefs_elem. destruct Hconn as (a & Ha & _). eauto.
Qed.

End Buckets.

(** ** build returns *)

Lemma forEach_returns {A} (Inv : Dungeon → Prop) (l : list A) (body : A → M unit) :
  (∀ v d, v ∈ l → Inv d → ∃ d', body v d = Ok (tt, d') ∧ Inv d') →
  ∀ d, Inv d → ∃ d', forEach l body d = Ok (tt, d') ∧ Inv d'.
Proof.
  induction l as [|v l IH]; intros Hb d Hd; simpl.
  - by exists d.
  - destruct (Hb v d) as (d1 & H1 & Hd1); [left|done|].
    destruct (IH (λ v' d' Hv', Hb v' d' (proj2 (elem_of_cons _ _ _) (or_intror Hv')))
                 d1 Hd1) as (d2 & H2 & Hd2).
    exists d2. by rewrite bind_run, H1.
Qed.

Lemma randBetween_total lo hi d :
  is_Some (rng d) → lo ≤ hi →
  ∃ v c, randBetween lo hi d = Ok (v, set_rng (Some c) d) ∧ lo ≤ v ≤ hi.
Proof.
  intros [c Hc] Hle. unfold randBetween, Chance_integer. rewrite Hc.
  replace (hi <? lo) with false by (symmetry; apply Z.ltb_ge; lia).
  eexists _, _. split; [done|].
  pose proof (Z.mod_pos_bound (stream c (cursor c)) (hi - lo + 1)). lia.
Qed.

Lemma isGrid_updTile w h f x y m : isGrid w h m → isGrid w h (updTile f x y m).
Proof.
  intros Hg i j. rewrite <- (Hg i j), tileAt_updTile. case_decide as Hd; [|done].
  destruct Hd as [-> ->]. rewrite fmap_is_Some. done.
Qed.

Lemma isGrid_matrixRel P w h m m' : matrixRel P m m' → isGrid w h m → isGrid w h m'.
Proof.
  intros [_ Hm] Hg i j. rewrite <- (Hg i j). specialize (Hm i j).
  destruct (tileAt m i j) as [a|].
  - destruct Hm as (a' & -> & _). split; eauto.
  - rewrite Hm. done.
Qed.

Lemma setTile_total x y ty d r :
  is_Some (tileAt (tiles d) x y) → region d = Some r →
  ∃ a, setTile x y ty d
       = Ok (a, set_tiles (updTile (assigned r ty) x y (tiles d)) d).
Proof.
  intros [a Ha] Hr. exists (assigned r ty a).
  unfold setTile, getTile, getSome, modify. rewrite !bind_run, Ha.
  cbv beta iota. rewrite bind_run, Hr. done.
Qed.

Lemma elem_of_oddRange v hi : v ∈ oddRange hi → 1 ≤ v < hi.
Proof.
  unfold oddRange. intros (k & -> & Hk%elem_of_seq)%list_elem_of_fmap.
  assert (Z.of_nat k < hi `div` 2) by lia. Z.div_mod_to_equations. lia.
Qed.

Lemma inZone_true k w h i j :
  inZone k w h i j = true ↔ k ≤ i < w - k ∧ k ≤ j < h - k.
Proof. unfold inZone. rewrite !andb_true_iff, !Z.leb_le, !Z.ltb_lt. lia. Qed.

Lemma inZone_false k w h i j :
  inZone k w h i j = false ↔ ¬ (k ≤ i < w - k ∧ k ≤ j < h - k).
Proof. rewrite <- inZone_true. by destruct (inZone k w h i j). Qed.

Global Instance keepsOutside_refl k w h : Reflexive (keepsOutside k w h).
Proof. by intros d i j _. Qed.
Global Instance keepsOutside_trans k w h : Transitive (keepsOutside k w h).
Proof. intros d1 d2 d3 H1 H2 i j Hout. by rewrite H2, H1. Qed.

Lemma keepsOutside_updTile k w h f x y d :
  inZone k w h x y = true →
  keepsOutside k w h d (set_tiles (updTile f x y (tiles d)) d).
Proof.
  intros Hin i j Hout. simpl. rewrite tileAt_updTile, decide_False; [done|].
  intros [-> ->]. congruence.
Qed.

Section Returns.
Context `{Collaborators}.
Variables w h k : Z.
Hypothesis Hk : 0 ≤ k ≤ 1.

Lemma canCarve_total cx cy off d :
  isGrid w h (tiles d) → inGrid w h cx cy = true → off ∈ cardinalDirections →
  ∃ b, canCarve (mkPoint cx cy) off d = Ok (b, d) ∧
       (b = true → inGrid w h (cx + off.1 * 3) (cy + off.2 * 3) = true).
Proof.
  intros Hg Hc Hoff. unfold canCarve. rewrite bind_run. unfold get.
  cbn [pt_x pt_y parsePoint].
  destruct (tileAt (tiles d) (cx + off.1 * 3) (cy + off.2 * 3)) as [e|] eqn:Ee;
    [|by exists false].
  assert (inGrid w h (cx + off.1 * 3) (cy + off.2 * 3) = true) as Hend.
  { apply Hg. by rewrite Ee. }
  rewrite bind_run. unfold getTile at 1. rewrite Ee.
  case_bool_decide; [by exists false|].
  assert (is_Some (tileAt (tiles d) (cx + off.1 * 2) (cy + off.2 * 2))) as [t Ht].
  { apply Hg. apply inGrid_true in Hc, Hend. apply inGrid_true.
    unfold cardinalDirections in Hoff.
    repeat (apply elem_of_cons in Hoff as [->|Hoff]; [simpl in *; lia|]).
    by apply elem_of_nil in Hoff. }
  rewrite bind_run. unfold getTile. rewrite Ht. eexists. split; [done|]. done.
Qed.

Lemma unmade_total cx cy d :
  isGrid w h (tiles d) → inGrid w h cx cy = true →
  ∃ l, unmade (mkPoint cx cy) d = Ok (l, d) ∧ l ⊆ cardinalDirections ∧
       ∀ off, off ∈ l → inGrid w h (cx + off.1 * 3) (cy + off.2 * 3) = true.
Proof.
  intros Hg Hc. unfold unmade.
  assert (∀ dirs acc,
    dirs ⊆ cardinalDirections → acc ⊆ cardinalDirections →
    (∀ off, off ∈ acc → inGrid w h (cx + off.1 * 3) (cy + off.2 * 3) = true) →
    ∃ l, foldM (λ acc direction,
                  ok ← canCarve (mkPoint cx cy) direction;
                  mret (if ok : bool then acc ++ [direction] else acc))
               acc dirs d = Ok (l, d) ∧ l ⊆ cardinalDirections ∧
         ∀ off, off ∈ l → inGrid w h (cx + off.1 * 3) (cy + off.2 * 3) = true)
    as Hgen.
  { induction dirs as [|dir dirs IH]; intros acc Hdirs Hacc Hin; simpl.
    - by exists acc.
    - destruct (canCarve_total cx cy dir d Hg Hc) as (b & Hb & Hend);
        [set_solver|].
      rewrite !bind_run, Hb. cbv beta iota.
      apply IH; [set_solver|destruct b; set_solver|].
      destruct b; [|done]. intros off [?|Ho%list_elem_of_singleton]%elem_of_app;
        [auto|subst; by apply Hend]. }
  apply Hgen; [done|set_solver|]. intros off Hoff. by apply elem_of_nil in Hoff.
Qed.

Lemma uniformPick_total l d :
  is_Some (rng d) → l ≠ [] →
  ∃ v c, uniformPick l d = Ok (parsePoint v, set_rng (Some c) d) ∧ v ∈ l.
Proof.
  intros Hrng Hne. unfold uniformPick.
  destruct (randBetween_total 0 (Z.of_nat (length l) - 1) d Hrng)
    as (rand & c & Hr & Hrange).
  { destruct l; [done|]. simpl. lia. }
  destruct (lookup_lt_is_Some_2 l (Z.to_nat rand)) as [v Hv]; [lia|].
  exists v, c. rewrite bind_run, Hr, Hv. split; [done|].
  by eapply list_elem_of_lookup_2.
Qed.

Hypothesis Hrender : renderingsAgree.

Lemma chooseDirection_total l last d :
  is_Some (rng d) → l ≠ [] → l ⊆ cardinalDirections →
  ∃ p c, chooseDirection l last d = Ok (p, set_rng (Some c) d) ∧
         (pt_x p, pt_y p) ∈ l.
Proof.
  intros Hrng Hne Hl. unfold chooseDirection. rewrite bind_run. unfold get.
  cbv beta iota.
  assert (∀ d0, is_Some (rng d0) →
            ∃ p c, uniformPick l d0 = Ok (p, set_rng (Some c) d0) ∧
                   (pt_x p, pt_y p) ∈ l) as Hpick.
  { intros d0 Hd0. destruct (uniformPick_total l d0 Hd0 Hne) as (v & c & Hu & Hv).
    exists (parsePoint v), c. split; [done|]. by destruct v. }
  destruct last as [ld|]; [|by apply Hpick].
  case_bool_decide as Hin; [|by apply Hpick].
  destruct (randBetween_total 1 100 d Hrng) as (v & c & Hr & _); [lia|].
  destruct (windingPercent (options d) <? v) eqn:E.
  - exists ld, c. split; [|by apply Hrender].
    apply bind_Ok. exists true, (set_rng (Some c) d). split; [|done].
    apply bind_Ok. eexists v, _. split; [exact Hr|]. by rewrite E.
  - destruct (Hpick (set_rng (Some c) d)) as (p & c' & Hu & Hp); [by eexists|].
    exists p, c'. split; [|done].
    apply bind_Ok. exists false, (set_rng (Some c) d). split; [|exact Hu].
    apply bind_Ok. eexists v, _. split; [exact Hr|]. by rewrite E.
Qed.

(** The state of [growMaze] between two rounds of its loop. *)
Lemma growStep_total cells last d :
  carving w h d → is_Some (region d) →
  Forall (λ c, inZone k w h (pt_x c) (pt_y c) = true) cells →
  ∃ cells' last' d',
    growStep cells last d = Ok ((cells', last'), d') ∧
    carving w h d' ∧ is_Some (region d') ∧
    Forall (λ c, inZone k w h (pt_x c) (pt_y c) = true) cells' ∧
    keepsOutside k w h d d'.
Proof.
  intros [Hrng Hg] [r Hr] Hcells. unfold growStep.
  destruct (list.last cells) as [[cx cy]|] eqn:Elast.
  2:{ eexists _, _, _. split; [done|]. split; [by split|]. split; [by eexists|done]. }
  assert (inZone k w h cx cy = true) as Hz.
  { apply last_Some in Elast as [l' ->]. by apply Forall_app in Hcells as [_ [? _]%Forall_cons]. }
  assert (inGrid w h cx cy = true) as Hc.
  { apply inZone_true in Hz. apply inGrid_true. lia. }
  destruct (unmade_total cx cy d Hg Hc) as (l & Hu & Hl & Hends).
  rewrite bind_run, Hu. case_bool_decide as Hne.
  2:{ eexists _, _, _. split; [done|]. split; [by split|]. split; [by eexists|].
      split; [|done].
      apply last_Some in Elast as [l' ->]. rewrite removelast_last.
      by apply Forall_app in Hcells as [? _]. }
  destruct (chooseDirection_total l last d Hrng Hne Hl) as (p & c & Hch & Hp).
  rewrite bind_run, Hch. cbn [pt_x pt_y].
  pose proof (Hends _ Hp) as Hend. cbn [fst snd] in Hend.
  assert (pt_x p = 0 ∧ (pt_y p = 1 ∨ pt_y p = -1) ∨
          pt_y p = 0 ∧ (pt_x p = 1 ∨ pt_x p = -1)) as Hdir.
  { apply Hl in Hp. unfold cardinalDirections in Hp.
    repeat (apply elem_of_cons in Hp as [[= -> ->]|Hp]; [lia|]).
    by apply elem_of_nil in Hp. }
  apply inZone_true in Hz as Hz'. apply inGrid_true in Hend.
  assert (inZone k w h (cx + pt_x p) (cy + pt_y p) = true) as Hz1
    by (apply inZone_true; lia).
  assert (inZone k w h (cx + pt_x p * 2) (cy + pt_y p * 2) = true) as Hz2
    by (apply inZone_true; lia).
  set (d1 := set_rng (Some c) d).
  destruct (setTile_total (cx + pt_x p) (cy + pt_y p) (Some floor) d1 r)
    as (a1 & Hs1); [|done|].
  { apply Hg. apply inGrid_true. lia. }
  rewrite bind_run, Hs1.
  set (d2 := set_tiles _ d1).
  destruct (setTile_total (cx + pt_x p * 2) (cy + pt_y p * 2) (Some floor) d2 r)
    as (a2 & Hs2); [|done|].
  { apply (isGrid_updTile w h (assigned r (Some floor)) (cx + pt_x p) (cy + pt_y p)
             _ Hg).
    apply inGrid_true. lia. }
  rewrite bind_run, Hs2.
  eexists _, _, _. split; [done|]. split; [split|split; [|split]].
  - by eexists.
  - by do 2 apply isGrid_updTile.
  - by eexists.
  - apply Forall_app. split; [done|]. by apply Forall_singleton.
  - intros i j Hout. unfold d2, d1. cbn [tiles set_tiles set_rng].
    rewrite !tileAt_updTile.
    rewrite !decide_False;
      [done|intros [E1 E2]; rewrite <- E1, <- E2 in Hout; congruence..].
Qed.

Lemma growLoop_total remaining :
  ∀ cells last d,
    carving w h d → is_Some (region d) →
    Forall (λ c, inZone k w h (pt_x c) (pt_y c) = true) cells →
    ∃ d', growLoop remaining cells last d = Ok (tt, d') ∧ carving w h d' ∧
          keepsOutside k w h d d'.
Proof.
  induction remaining as [|n IH]; intros cells last d Hd Hr Hcells; simpl.
  - by exists d.
  - case_bool_decide; [by exists d|].
    destruct (growStep_total cells last d Hd Hr Hcells)
      as (cells' & last' & d1 & Hs & Hd1 & Hr1 & Hcells' & K1).
    rewrite bind_run, Hs.
    destruct (IH cells' last' d1 Hd1 Hr1 Hcells') as (d' & Hrun & Hd' & K2).
    exists d'. split; [done|]. split; [done|]. by etrans.
Qed.

Lemma growMaze_total x y d :
  carving w h d → inZone k w h x y = true →
  ∃ d', growMaze x y d = Ok (tt, d') ∧ carving w h d' ∧ keepsOutside k w h d d'.
Proof.
  intros [Hrng Hg] Hz. unfold growMaze. rewrite bind_run. unfold get.
  assert (inGrid w h x y = true) as Hxy.
  { apply inZone_true in Hz. apply inGrid_true. lia. }
  destruct (proj2 (Hg x y) Hxy) as [a Ha]. rewrite Ha.
  destruct (earlyOut _ _); [by exists d|].
  rewrite bind_run.
  destruct (startRegion corridor d) as [[r d1]| |] eqn:Es;
    [|by apply (f_equal stateOf) in Es..].
  apply startRegion_Ok in Es as [-> ->].
  set (d1 := set_region _ _).
  destruct (setTile_total x y (Some floor) d1 (mkRegion (nextRegionId d) corridor))
    as (a1 & Hs1); [exists a; exact Ha|done|].
  rewrite bind_run, Hs1.
  destruct (growLoop_total 500 [mkPoint x y] None
              (set_tiles (updTile (assigned (mkRegion (nextRegionId d) corridor)
                                     (Some floor)) x y (tiles d1)) d1))
    as (d' & Hrun & Hd' & K).
  - split; [done|]. by apply isGrid_updTile.
  - by eexists.
  - by apply Forall_singleton.
  - exists d'. split; [done|]. split; [done|].
    etrans; [|exact K]. intros i j Hout. unfold d1.
    cbn [tiles set_tiles set_region set_nextRegionId].
    rewrite tileAt_updTile, decide_False;
      [done|intros [E1 E2]; rewrite <- E1, <- E2 in Hout; congruence].
Qed.

Lemma fillMazes_total d st :
  carving w h d → stage d = Some st → width st = w → height st = h →
  (∀ x y, x ∈ oddRange w → y ∈ oddRange h → inZone k w h x y = true) →
  ∃ d', fillMazes d = Ok (tt, d') ∧ carving w h d' ∧ keepsOutside k w h d d'.
Proof.
  intros Hd Hst Hw Hh Hodd. unfold fillMazes. rewrite bind_run. unfold getSome.
  rewrite Hst, Hw, Hh.
  destruct (forEach_returns
              (λ d1, carving w h d1 ∧ keepsOutside k w h d d1) (oddRange h)
              (λ y, forEach (oddRange w) (λ x,
                 a ← getTile x y;
                 if bool_decide (Tile.type a = floor) then mret tt
                 else growMaze x y))) with d
    as (d' & Hrun & Hd' & K); [|done|by exists d'].
  intros y d1 Hy [Hd1 K1].
  destruct (forEach_returns
              (λ d2, carving w h d2 ∧ keepsOutside k w h d d2) (oddRange w)
              (λ x, a ← getTile x y;
                    if bool_decide (Tile.type a = floor) then mret tt
                    else growMaze x y)) with d1
    as (d' & Hrun & Hd' & K); [|done|by exists d'].
  intros x d2 Hx [Hd2 K2].
  pose proof (Hodd x y Hx Hy) as Hz.
  assert (inGrid w h x y = true) as Hxy.
  { apply inZone_true in Hz. apply inGrid_true. lia. }
  destruct (proj2 (proj2 Hd2 x y) Hxy) as [a Ha].
  rewrite bind_run. unfold getTile. rewrite Ha.
  case_bool_decide; [by exists d2|].
  destruct (growMaze_total x y d2 Hd2 Hz) as (d3 & H3 & Hd3 & K3).
  exists d3. split; [done|]. split; [done|]. by etrans.
Qed.

End Returns.

Section ReturnsRooms.
Context `{Collaborators}.

Ltac draw :=
  rewrite bind_run;
  match goal with
  | |- context [randBetween ?lo ?hi ?d] =>
      let v := fresh "v" in
      let c := fresh "c" in
      let Hd := fresh "Hd" in
      let Hv := fresh "Hv" in
      destruct (randBetween_total lo hi d) as (v & c & Hd & Hv);
      [first [assumption|by eexists]| |rewrite Hd; cbv beta iota zeta]
  end.

Lemma candidate_total d st :
  is_Some (rng d) → stage d = Some st → drawable (options d) →
  5 * multiplier (options d) ≤ width st →
  5 * multiplier (options d) ≤ height st →
  ∃ r d1, candidate d = Ok (r, d1).
Proof.
  intros Hrng Hst (_ & Hextra & Hm) Hw Hh.
  pose proof (outerLimit_bounds (width st) _ Hm Hw) as Hlw.
  pose proof (outerLimit_bounds (height st) _ Hm Hh) as Hlh.
  unfold candidate. rewrite bind_run. unfold get. cbv beta iota.
  rewrite bind_run. unfold getSome. rewrite Hst. cbv beta iota zeta.
  draw; [lia|].
  draw; [Z.div_mod_to_equations; lia|].
  rewrite bind_run. unfold oneIn.
  draw; [lia|]. unfold mret at 1, M_ret at 1. cbv beta iota.
  draw; [Z.div_mod_to_equations; lia|].
  draw; [Z.div_mod_to_equations; lia|].
  by eexists _, _.
Qed.

Lemma addRoomAttempt_total w h d st :
  carving w h d → stage d = Some st → width st = w → height st = h →
  drawable (options d) →
  5 * multiplier (options d) ≤ w → 5 * multiplier (options d) ≤ h →
  ∃ d', addRoomAttempt d = Ok (tt, d') ∧ carving w h d' ∧
        stage d' = stage d ∧ options d' = options d.
Proof.
  intros [Hrng Hg] Hst <- <- Hopt Hw Hh.
  destruct (candidate_total d st Hrng Hst Hopt Hw Hh) as (r & d1 & Hc).
  pose proof (candidate_within_stage _ _ _ _ Hc Hst ltac:(apply Hopt) Hw Hh)
    as (Hx & Hy & _ & _ & Hxw & Hyh).
  pose proof (candidate_set_rng _ _ _ Hc) as [c ->].
  unfold addRoomAttempt. rewrite bind_run, Hc, bind_run. unfold get.
  cbv beta iota. cbn [rooms set_rng].
  destruct (existsb _ _).
  { eexists. split; [done|]. split; [|done]. split; [by eexists|done]. }
  rewrite bind_run. unfold modify. cbv beta iota. rewrite bind_run.
  set (d2 := set_rooms _ _).
  destruct (startRegion room d2) as [[rg d3]| |] eqn:Es;
    [|by apply (f_equal stateOf) in Es..].
  apply startRegion_Ok in Es as [-> ->]. set (d3 := set_region _ _).
  rewrite carveArea_rect.
  rewrite (forEach_setTile_returns (Some floor) _ (mkRegion (nextRegionId d2) room) d3);
    [|done|].
  2:{ intros [i j] [Hi Hj]%elem_of_rect. apply Hg. apply inGrid_true.
      cbn [fst snd]. lia. }
  eexists. split; [done|]. split; [|done]. split; [by eexists|].
  cbn [tiles set_tiles].
  assert (∀ ps m, isGrid (width st) (height st) m →
            isGrid (width st) (height st)
              (paint (mkRegion (nextRegionId d2) room) (Some floor) ps m)) as Hpaint.
  { induction ps as [|p ps IH]; intros m Hm; [done|].
    apply IH. by apply isGrid_updTile. }
  by apply Hpaint.
Qed.

Lemma addRooms_total w h d st :
  carving w h d → stage d = Some st → width st = w → height st = h →
  drawable (options d) →
  5 * multiplier (options d) ≤ w → 5 * multiplier (options d) ≤ h →
  ∃ d', addRooms d = Ok (tt, d') ∧ carving w h d'.
Proof.
  intros Hd Hst Hw Hh Hopt Hw5 Hh5. unfold addRooms.
  rewrite bind_run. unfold get. cbv beta iota.
  rewrite bind_run. unfold getSome. rewrite Hst.
  destruct (forEach_returns
              (λ d1, carving w h d1 ∧ stage d1 = Some st ∧ options d1 = options d)
              (range 0 (roomTries (options d))) (λ _, addRoomAttempt)) with d
    as (d' & Hrun & Hd' & _); [|done|by exists d'].
  intros _ d1 _ (Hd1 & Hst1 & Ho1).
  destruct (addRoomAttempt_total w h d1 st) as (d2 & H2 & Hd2 & Hst2 & Ho2);
    rewrite ?Ho1; try done.
  exists d2. split; [done|]. split; [done|]. split; congruence.
Qed.

Lemma addConnection_nonempty key r acc :
  Forall (λ kv, kv.2 ≠ []) acc → Forall (λ kv, kv.2 ≠ []) (addConnection key r acc).
Proof.
  induction acc as [|[k v] acc IH]; simpl; intros Hacc.
  - by apply Forall_singleton.
  - apply Forall_cons in Hacc as [Hv Hacc]. destruct (String.eqb k key).
    + apply Forall_cons. split; [|done]. simpl. by destruct v.
    + apply Forall_cons. split; [done|]. by apply IH.
Qed.

Lemma regionConnections_nonempty m :
  Forall (λ kv, kv.2 ≠ []) (regionConnections m).
Proof.
  unfold regionConnections.
  assert (∀ l acc, Forall (λ kv : string * list Ref, kv.2 ≠ []) acc →
            Forall (λ kv, kv.2 ≠ []) (foldl (λ acc r,
               match tileAt m r.1 r.2 with
               | None => acc
               | Some a =>
                   if bool_decide (Tile.type a ≠ wall) || bool_decide (Tile.region a ≠ -1)
                   then acc
                   else
                     let regs := tileRegions m a in
                     if Z.of_nat (length regs) <=? 1 then acc
                     else addConnection (regionKey regs) r acc
               end) acc l)) as Hgen.
  { induction l as [|r l IH]; intros acc Hacc; simpl; [done|].
    apply IH. destruct (tileAt m r.1 r.2); [|done].
    destruct (_ || _); [done|]. destruct (_ <=? 1); [done|].
    by apply addConnection_nonempty. }
  by apply Hgen.
Qed.

Lemma connectRegions_total d :
  is_Some (rng d) → 1 ≤ maxDoors (options d) →
  ∃ d', connectRegions d = Ok (tt, d').
Proof.
  intros Hrng Hmax. unfold connectRegions. rewrite bind_run. unfold get.
  cbv beta iota.
  destruct (forEach_returns
              (λ d1, is_Some (rng d1) ∧ options d1 = options d ∧
                     matrixRel (λ _ _, True) (tiles d) (tiles d1))
              (snd <$> regionConnections (tiles d))
              (λ connections, connectBucket connections;; mret tt)) with d
    as (d' & Hrun & _); [| |by exists d'].
  2:{ split; [done|]. split; [done|]. split; [done|]. intros i j.
      destruct (tileAt _ i j); eauto. }
  intros l d1 Hl (Hrng1 & Ho1 & Hm1).
  apply list_elem_of_fmap in Hl as ([k l'] & -> & Hkl). simpl.
  assert (l' ≠ []) as Hne.
  { pose proof (regionConnections_nonempty (tiles d)) as Hall.
    rewrite Forall_forall in Hall. by apply (Hall (k, l')). }
  assert (validRefs (tiles d1) l') as Hvalid.
  { intros r Hr.
    destruct (regionConnections_connectors (tiles d) r) as (a & Ha & _).
    { unfold connectors. apply list_elem_of_join. exists l'. split; [done|].
      apply list_elem_of_fmap. by exists (k, l'). }
    destruct Hm1 as [_ Hm1]. specialize (Hm1 r.1 r.2). rewrite Ha in Hm1.
    destruct Hm1 as (a' & -> & _). done. }
  destruct (connectBucket_returns l' d1) as (n & d2 & H2); [done|by rewrite Ho1|done..|].
  exists d2. rewrite bind_run, H2. split; [done|].
  apply connectBucket_Ok in H2 as ((Hdoors & Ho2 & _ & _ & _ & _ & _ & _ & Hrng2) & _).
  split; [auto|]. split; [congruence|].
  apply (matrixRel_trans (λ _ _, True) ltac:(by intros ???) _ (tiles d1));
    [exact Hm1|].
  destruct Hdoors as [Hlen Hd]. split; [done|].
  intros i j. specialize (Hd i j). destruct (tileAt (tiles d1) i j); [|done].
  destruct Hd as (a' & ? & _). eauto.
Qed.

End ReturnsRooms.

Lemma tileCount_columns (n : nat) m :
  Forall (λ col : list Tile.t, length col = n) m → tileCount m = (length m * n)%nat.
Proof.
  unfold tileCount, countTiles. induction 1 as [|col m Hcol _ IH]; [done|].
  simpl. rewrite IH. f_equal. rewrite <- Hcol. clear.
  induction col as [|a col IH]; simpl; [done|]. by rewrite IH.
Qed.

Lemma tileCount_grid w h m :
  length m = Z.to_nat w → isGrid w h m →
  tileCount m = (Z.to_nat w * Z.to_nat h)%nat.
Proof.
  intros Hlen Hg. rewrite <- Hlen. apply tileCount_columns.
  apply Forall_lookup. intros i col Hcol.
  pose proof (lookup_lt_Some _ _ _ Hcol) as Hi.
  destruct (Nat.lt_trichotomy (length col) (Z.to_nat h)) as [Hlt|[?|Hgt]]; [|done|].
  - assert (is_Some (tileAt m (Z.of_nat i) (Z.of_nat (length col)))) as [a Ha].
    { apply Hg. apply inGrid_true. lia. }
    rewrite tileAt_nat, !Nat2Z.id, Hcol in Ha by lia. simpl in Ha.
    apply lookup_lt_Some in Ha. lia.
  - destruct (lookup_lt_is_Some_2 col (Z.to_nat h)) as [a Ha]; [lia|].
    assert (inGrid w h (Z.of_nat i) (Z.of_nat (Z.to_nat h)) = true) as Hin.
    { apply Hg. rewrite tileAt_nat, !Nat2Z.id, Hcol by lia. simpl. by rewrite Ha. }
    apply inGrid_true in Hin. lia.
Qed.

Section BuildReturns.
Context `{Collaborators}.

(** X22: [build] returns.  On a new instance whose options leave no draw
    with an empty range ([maxDoors] at least 1, [roomExtraSize] at least -2),
    for a stage of at least 5 by 5, with renderings of the directions that
    agree, no stage of [build] throws, and [removeDeadEnds] is done within
    as many passes as the stage has tiles. *)
Theorem build_returns (slug : string) (budget : nat) (s : StageInput)
    (o : DungeonOptionsInput) :
  renderingsAgree →
  5 ≤ default 5 (in_width s) → 5 ≤ default 5 (in_height s) →
  1 ≤ default 5 (in_maxDoors o) → -2 ≤ default 0 (in_roomExtraSize o) →
  (Z.to_nat (nextOdd (default 5 (in_width s))
              * multiplier (options (Dungeon_new o)))%Z
   * Z.to_nat (nextOdd (default 5 (in_height s))
                * multiplier (options (Dungeon_new o)))%Z
   < budget)%nat →
  ∃ r d', build slug budget s (Dungeon_new o) = Ok (r, d').
Proof.
  intros Hrender Hw Hh Hmax Hextra Hbudget.
  pose proof (Dungeon_new_multiplier o) as Hm1.
  assert (drawable (options (Dungeon_new o))) as Hopt by done.
  assert (tiles (Dungeon_new o) = []) as Ht0 by done.
  revert Hbudget Hm1 Hopt Ht0. generalize (Dungeon_new o).
  intros d0 Hbudget Hm1 Hopt Ht0.
  set (st0 := mkStage (default 5 (in_width s)) (default 5 (in_height s)) (in_seed s)).
  set (w := nextOdd (default 5 (in_width s)) * multiplier (options d0)) in *.
  set (h := nextOdd (default 5 (in_height s)) * multiplier (options d0)) in *.
  (* validate *)
  assert (∃ d1, validate slug st0 d0 = Ok (tt, d1)) as [d1 Hv].
  { unfold validate. cbn [width height st0].
    rewrite (proj2 (Z.ltb_ge _ 5)), (proj2 (Z.ltb_ge _ 5)) by done.
    rewrite bind_run. unfold get, modify. by eexists. }
  pose proof (validate_seed _ _ _ _ _ Hv) as [_ Hrng1].
  pose proof (validate_Ok _ _ _ _ _ Hv) as (_ & _ & Hst1 & Ho1 & Ht1 & _).
  cbn [width height stage_seed st0] in Hst1. fold w h in Hst1.
  rewrite Ht0 in Ht1.
  (* fill *)
  assert (∃ d2, fill wall d1 = Ok (tt, d2)) as [d2 Hf].
  { eexists. apply fill_Ok. eauto. }
  pose proof (fill_new_tiles _ _ _ _ Ht1 Hst1 Hf) as [Hlen2 Hgrid2].
  cbn [width height] in Hlen2, Hgrid2.
  assert (stage d2 = stage d1 ∧ options d2 = options d1 ∧ rng d2 = rng d1)
    as (Hst2 & Ho2 & Hrng2).
  { by apply fill_Ok in Hf as (st' & _ & ->). }
  assert (carving w h d2) as Hc2.
  { split; [rewrite Hrng2, Hrng1; by eexists|]. intros i j.
    rewrite Hgrid2. destruct (inGrid w h i j); split; try done; eauto. }
  assert (5 * multiplier (options d2) ≤ w ∧ 5 * multiplier (options d2) ≤ h)
    as [Hw5 Hh5].
  { rewrite Ho2, Ho1. unfold w, h, nextOdd. split; destruct (Z.even _); nia. }
  (* addRooms *)
  destruct (addRooms_total w h d2 (mkStage w h (in_seed s))) as (d3 & H3 & Hc3);
    [done|congruence|done|done|by rewrite Ho2, Ho1|done..|].
  pose proof (addRooms_pipelineStep _ _ _ H3) as P3.
  (* the mazes *)
  destruct (fillMazes_total w h 0 ltac:(lia) Hrender d3 (mkStage w h (in_seed s)))
    as (d4 & H4 & Hc4 & _);
    [done|destruct P3 as (_ & _ & _ & ->); congruence|done|done| |].
  { intros x y Hx%elem_of_oddRange Hy%elem_of_oddRange. apply inZone_true. lia. }
  pose proof (fillMazes_pipelineStep _ _ _ H4) as P4.
  (* connectRegions *)
  destruct (connectRegions_total d4) as (d5 & H5).
  { apply Hc4. }
  { destruct P3 as (_ & _ & E3 & _), P4 as (_ & _ & E4 & _).
    rewrite E4, E3, Ho2, Ho1. apply Hopt. }
  pose proof (connectRegions_pipelineStep _ _ _ H5) as P5.
  (* removeDeadEnds *)
  assert (∃ d6, (if removeDeadEndsOpt (options d5) then removeDeadEnds budget
                 else mret tt) d5 = Ok (tt, d6)) as [d6 H6].
  { destruct (removeDeadEndsOpt _); [|by eexists].
    assert (pipelineStep d2 d5) as ([Hlen5 Hm5] & _) by (etrans; [|etrans]; done).
    assert (coordsMatch (tiles d5)) as Hcm.
    { eapply (build_canonical_before_removeDeadEnds slug st0 d0); [done|].
      unfold beforeRemoveDeadEnds.
      repeat (apply bind_Ok; eexists tt, _; split; [eassumption|]). exact H5. }
    assert (tileCount (tiles d5) = (Z.to_nat w * Z.to_nat h)%nat) as Hcount.
    { apply tileCount_grid; [congruence|].
      eapply isGrid_matrixRel; [split; [exact Hlen5|exact Hm5]|apply Hc2]. }
    destruct (removeDeadEndsLoop_spec budget d5 Hcm) as (d6 & H6 & _); [lia|].
    by exists d6. }
  eexists _, _. unfold build. fold st0.
  repeat (apply bind_Ok; eexists tt, _; split; [eassumption|]).
  apply bind_Ok. eexists _, _. split; [done|].
  apply bind_Ok. eexists tt, _. split; [exact H6|].
  apply bind_Ok. eexists _, _. split; done.
Qed.

End BuildReturns.

(** With the renderings that ECMAScript gives to a plain object and to an
    array, no point is rendered like a cardinal direction. *)
Lemma renderingsAgree_default (streamOf : Seed → nat → Z) :
  renderingsAgree (H := collaborators streamOf Object_toString).
Proof.
  intros p l Hl (a & Heq & Ha%Hl)%list_elem_of_fmap. exfalso. simpl in *.
  unfold cardinalDirections in Ha.
  repeat (apply elem_of_cons in Ha as [->|Ha]; [by vm_compute in Heq|]).
  by apply elem_of_nil in Ha.
Qed.

Lemma build_returns_witness :
  ∃ r d', build (H := example mazeDraws) "slug" 82 stage9 (Dungeon_new pruning)
          = Ok (r, d').
Proof.
  apply (build_returns (H := example mazeDraws) "slug" 82 stage9 pruning).
  - apply renderingsAgree_default.
  - simpl. lia.
  - simpl. lia.
  - simpl. lia.
  - simpl. lia.
  - vm_compute. lia.
Defined.

(** ** The outer ring of the stage *)

Lemma oddRange_inside v hi : v ∈ oddRange hi → Z.odd hi = true → 1 ≤ v ≤ hi - 2.
Proof.
  unfold oddRange. intros (n & -> & Hn%elem_of_seq)%list_elem_of_fmap Hodd.
  pose proof (Zmod_odd hi) as Hmod. rewrite Hodd in Hmod.
  assert (Z.of_nat n < hi `div` 2) by lia. Z.div_mod_to_equations. lia.
Qed.

Section Ring.
Context `{Collaborators}.

Lemma addRooms_rng d u d' : addRooms d = Ok (u, d') → is_Some (rng d) → is_Some (rng d').
Proof.
  apply (addRooms_footprint (λ d d', is_Some (rng d) → is_Some (rng d'))).
  - by intros ?.
  - intros ??? H1 H2 ?. auto.
  - intros c d0 _. by eexists.
  - by intros ???? [-> ->]%startRegion_Ok.
  - by intros ????? (a0 & r & Ha & Hr & -> & ->)%setTile_Ok.
  - done.
Qed.

Lemma addRooms_keepsOutside d u d' st :
  addRooms d = Ok (u, d') → stage d = Some st →
  1 ≤ multiplier (options d) →
  5 * multiplier (options d) ≤ width st →
  5 * multiplier (options d) ≤ height st →
  keepsOutside 1 (width st) (height st) d d'.
Proof.
  intros Hrun Hst Hm Hw Hh.
  pose (R := λ d1 d2 : Dungeon,
    pipelineStep d1 d2 ∧
    (stage d1 = Some st → 1 ≤ multiplier (options d1) →
     5 * multiplier (options d1) ≤ width st →
     5 * multiplier (options d1) ≤ height st →
     keepsOutside 1 (width st) (height st) d1 d2)).
  assert (R d d') as [_ HR]; [|by apply HR].
  revert Hrun. apply (addRooms_rel R).
  - intros d1. split; reflexivity.
  - intros d1 d2 d3 [P12 R12] [P23 R23]. split; [by etrans|].
    destruct P12 as (_ & _ & Ho & Hs). intros ????.
    etrans; [by apply R12|]. apply R23; congruence.
  - intros d1 u1 d2 Hatt. split; [by eapply addRoomAttempt_pipelineStep|].
    intros Hst1 Hm1 Hw1 Hh1.
    apply addRoomAttempt_inv in Hatt as (r0 & d1' & Hc & Hatt).
    pose proof (candidate_within_stage _ _ _ _ Hc Hst1 Hm1 Hw1 Hh1)
      as (Hx & Hy & _ & _ & Hxw & Hyh).
    apply candidate_rng_only in Hc as (_ & _ & _ & _ & Hts & _).
    destruct (existsb _ _).
    + subst d2. intros i j _. by rewrite Hts.
    + apply carveArea_Ok in Hatt as [_ Hout]. intros i j Hz.
      rewrite Hout; [simpl; by rewrite Hts|].
      apply inZone_false in Hz. lia.
Qed.

Hypothesis Hrender : renderingsAgree.
Hypothesis Hregions : regionsOfNeighbours.

(** A tile of the ring with the links that [fill] gave it, in a matrix whose
    ring is made of tiles of region -1, has at most one region around it. *)
Lemma ring_regions w h m i j a :
  isGrid w h m →
  (∀ i' j' b, tileAt m i' j' = Some b → inZone 1 w h i' j' = false →
              Tile.region b = -1) →
  tileAt m i j = Some a → inZone 1 w h i j = false →
  Tile.neighbors a = gridNeighbors w h i j →
  (length (tileRegions m a) ≤ 1)%nat.
Proof.
  intros Hg Hring Ha Hz Hnb.
  destruct (Hregions m a) as [Hnd Hids].
  assert (inGrid w h i j = true) as Hin by (apply Hg; eauto).
  apply inGrid_true in Hin. apply inZone_false in Hz.
  assert (∀ id, id ∈ tileRegions m a →
            ∃ i' j' b, tileAt m i' j' = Some b ∧ Tile.region b = id ∧
                       1 ≤ i' < w - 1 ∧ 1 ≤ j' < h - 1 ∧
                       (i' = i ∧ (j' = j - 1 ∨ j' = j + 1) ∨
                        j' = j ∧ (i' = i - 1 ∨ i' = i + 1))) as Hfrom.
  { intros id (Hne & b & Hb & Hreg)%Hids. unfold cardinal in Hb. rewrite Hnb in Hb.
    apply list_elem_of_omap in Hb as (lnk & Hlnk & Hb).
    assert (∃ i' j', lnk = Some (i', j') ∧
              (i' = i ∧ (j' = j - 1 ∨ j' = j + 1) ∨
               j' = j ∧ (i' = i - 1 ∨ i' = i + 1))) as (i' & j' & -> & Hpos).
    { destruct lnk as [[i' j']|]; [|done]. exists i', j'. split; [done|].
      simpl in Hlnk. unfold gridLink in Hlnk.
      repeat (apply elem_of_cons in Hlnk as [Hlnk|Hlnk];
              [destruct (inGrid _ _ _ _); [injection Hlnk as -> ->; lia|done]|]).
      by apply elem_of_nil in Hlnk. }
    simpl in Hb. exists i', j', b. split; [done|]. split; [done|].
    destruct (inZone 1 w h i' j') eqn:Ez.
    - apply inZone_true in Ez. lia.
    - pose proof (Hring _ _ _ Hb Ez). congruence. }
  destruct (tileRegions m a) as [|id1 [|id2 l]]; [simpl; lia..|]. exfalso.
  apply NoDup_cons in Hnd as [Hnotin _]. apply Hnotin.
  apply elem_of_cons. left.
  destruct (Hfrom id1) as (i1 & j1 & b1 & Hb1 & <- & ? & ? & ?); [left|].
  destruct (Hfrom id2) as (i2 & j2 & b2 & Hb2 & <- & ? & ? & ?); [right; left|].
  assert (i1 = i2 ∧ j1 = j2) as [-> ->] by lia. congruence.
Qed.

(** X26: the stage is enclosed.  When [build] returns on a new instance
    with an odd [multiplier], renderings of the directions that agree and a
    region query that returns regions of cardinal neighbours, every tile of
    the first and the last column and of the first and the last row of the
    matrix is a wall. *)
Theorem build_ring_of_walls (slug : string) (budget : nat) (s : StageInput)
    (o : DungeonOptionsInput) (r : Results) (d' : Dungeon) :
  Z.odd (multiplier (options (Dungeon_new o))) = true →
  build slug budget s (Dungeon_new o) = Ok (r, d') →
  let w := nextOdd (default 5 (in_width s)) * multiplier (options (Dungeon_new o)) in
  let h := nextOdd (default 5 (in_height s)) * multiplier (options (Dungeon_new o)) in
  ∀ i j a, tileAt (res_tiles r) i j = Some a →
    i = 0 ∨ j = 0 ∨ i = w - 1 ∨ j = h - 1 →
    Tile.type a = wall.
Proof.
  intros Hodd Hrun w h.
  pose proof (Dungeon_new_multiplier o) as Hm1.
  assert (tiles (Dungeon_new o) = []) as Ht0 by done.
  unfold w, h. clear w h. revert Hodd Hrun Hm1 Ht0. generalize (Dungeon_new o).
  intros d0 Hodd Hrun Hm1 Ht0.
  set (w := nextOdd (default 5 (in_width s)) * multiplier (options d0)).
  set (h := nextOdd (default 5 (in_height s)) * multiplier (options d0)).
  apply build_stages in Hrun as (d1 & d2 & d3 & d4 & d5 & Hv & Hf & H3 & H4 & H5 & H6 & ->).
  assert (Hc5 : coordsMatch (tiles d5)).
  { eapply (build_canonical_before_removeDeadEnds slug _ d0); [done|].
    unfold beforeRemoveDeadEnds.
    repeat (apply bind_Ok; eexists tt, _; split; [eassumption|]). exact H5. }
  pose proof (validate_seed _ _ _ _ _ Hv) as [_ Hrng1].
  apply validate_Ok in Hv as (Hw & Hh & Hst1 & Ho1 & Ht1 & _).
  cbn [width height stage_seed] in *. fold w h in Hst1. rewrite Ht0 in Ht1.
  assert (Z.odd w = true ∧ Z.odd h = true) as [Hwodd Hhodd].
  { unfold w, h, nextOdd. rewrite !Z.odd_mul, Hodd, !andb_true_r.
    split; destruct (Z.even _) eqn:E; rewrite <- Z.negb_even;
      rewrite ?Z.even_add, ?E; done. }
  pose proof (fill_new_tiles _ _ _ _ Ht1 Hst1 Hf) as [Hlen2 Hgrid2].
  cbn [width height] in Hlen2, Hgrid2.
  assert (stage d2 = stage d1 ∧ options d2 = options d1 ∧ rng d2 = rng d1)
    as (Hst2 & Ho2 & Hrng2).
  { by apply fill_Ok in Hf as (st' & _ & ->). }
  assert (isGrid w h (tiles d2)) as Hg2.
  { intros i j. rewrite Hgrid2. destruct (inGrid w h i j); split; try done; eauto. }
  assert (5 * multiplier (options d2) ≤ w ∧ 5 * multiplier (options d2) ≤ h)
    as [Hw5 Hh5].
  { rewrite Ho2, Ho1. unfold w, h, nextOdd. split; destruct (Z.even _); nia. }
  (* addRooms *)
  pose proof (addRooms_keepsOutside d2 _ d3 (mkStage w h (in_seed s)) H3) as K3.
  cbn [width height] in K3.
  specialize (K3 ltac:(congruence) ltac:(congruence) Hw5 Hh5).
  pose proof (addRooms_pipelineStep _ _ _ H3) as P3.
  assert (carving w h d3) as Hc3.
  { split.
    - eapply addRooms_rng; [done|]. rewrite Hrng2, Hrng1. by eexists.
    - eapply isGrid_matrixRel; [apply P3|done]. }
  (* the mazes *)
  destruct (fillMazes_total w h 1 ltac:(lia) Hrender d3 (mkStage w h (in_seed s)))
    as (d4' & H4' & Hc4 & K4);
    [done|destruct P3 as (_ & _ & _ & ->); congruence|done|done| |].
  { intros x y Hx Hy. apply inZone_true.
    pose proof (oddRange_inside _ _ Hx Hwodd). pose proof (oddRange_inside _ _ Hy Hhodd).
    lia. }
  rewrite H4 in H4'. injection H4' as <-.
  pose proof (fillMazes_pipelineStep _ _ _ H4) as P4.
  assert (pipelineStep d2 d4) as [[_ M24] _] by (by etrans).
  (* the ring when connectRegions starts *)
  assert (∀ i j a, tileAt (tiles d4) i j = Some a → inZone 1 w h i j = false →
            a = gridTile wall w h i j) as Hring4.
  { intros i j a Ha Hz. rewrite (K4 i j Hz), (K3 i j Hz), Hgrid2 in Ha.
    destruct (inGrid w h i j); [by injection Ha|done]. }
  simpl. intros i j a6 Ha6 Hside.
  assert (inZone 1 w h i j = false) as Hz by (apply inZone_false; lia).
  assert (∃ a5, tileAt (tiles d5) i j = Some a5 ∧ (a6 = a5 ∨ a6 = cleared a5))
    as (a5 & Ha5 & Hk6).
  { destruct (removeDeadEndsOpt _); [|subst; eauto].
    pose proof (removeDeadEnds_tilesStep _ _ _ _ H6) as [_ [_ M6]].
    apply removeDeadEndsLoop_prunes in H6 as [_ P6].
    specialize (M6 i j). destruct (tileAt (tiles d5) i j) as [a5|] eqn:E5.
    - exists a5. split; [done|].
      destruct (P6 Hc5 i j a5 E5) as [E|[E _]]; rewrite E in Ha6;
        injection Ha6 as <-; eauto.
    - congruence. }
  assert (∃ a4, tileAt (tiles d4) i j = Some a4) as [a4 Ha4].
  { apply connectRegions_doorStep in H5 as [[_ D5] _]. specialize (D5 i j).
    destruct (tileAt (tiles d4) i j); [eauto|congruence]. }
  pose proof (Hring4 _ _ _ Ha4 Hz) as ->.
  assert (a5 = gridTile wall w h i j) as ->.
  { destruct (connectRegions_tiles _ _ H5 i j _ Ha4) as [E|(_ & _ & _ & Hlen)];
      [congruence|].
    exfalso.
    pose proof (ring_regions w h (tiles d4) i j (gridTile wall w h i j)) as Hle.
    specialize (Hle ltac:(apply Hc4)).
    assert (length (tileRegions (tiles d4) (gridTile wall w h i j)) ≤ 1)%nat; [|lia].
    apply Hle; try done.
    intros i' j' b Hb Hz'. by rewrite (Hring4 _ _ _ Hb Hz'). }
  by destruct Hk6 as [-> | ->].
Qed.

End Ring.

(** The region query as the specification describes it returns regions of
    cardinal neighbours. *)
Lemma regionsOfNeighbours_default (streamOf : Seed → nat → Z)
    (showPoint : Point → string) :
  regionsOfNeighbours (H := collaborators streamOf showPoint).
Proof.
  intros m a. simpl. unfold Query_tileRegions. split; [apply NoDup_remove_dups|].
  intros id [Hne Hid]%elem_of_remove_dups%list_elem_of_filter.
  apply list_elem_of_fmap in Hid as (b & -> & Hb). eauto.
Qed.

Lemma build_ring_of_walls_witness :
  let a := gridTile wall 9 9 0 3 in
  tileAt (tiles usedInstance) 0 3 = Some a ∧ Tile.type a = wall.
Proof.
  intros a. split; [vm_compute; reflexivity|].
  apply (build_ring_of_walls (H := example mazeDraws)
           (renderingsAgree_default _) (regionsOfNeighbours_default _ _)
           "slug" 60 stage9 pruning
           (mkResults (rooms usedInstance) (tiles usedInstance) (seed usedInstance))
           usedInstance
           ltac:(reflexivity) ltac:(vm_compute; reflexivity) 0 3 a).
  - vm_compute. reflexivity.
  - left. reflexivity.
Defined.

(** ** Tile.toString *)

Lemma pretty_N_char_no_comma x : pretty_N_char x ≠ ","%char.
Proof. unfold pretty_N_char. repeat case_match; done. Qed.

Lemma pretty_N_go_no_comma x :
  ∀ s, hasComma s = false → hasComma (pretty_N_go x s) = false.
Proof.
  induction (N.lt_wf_0 x) as [x _ IH]. intros s Hs.
  destruct (decide (0 < x)%N) as [Hx|Hx].
  - rewrite pretty_N_go_step by done. apply IH.
    + apply N.div_lt; [done|]. lia.
    + simpl. rewrite Hs, orb_false_r. apply bool_decide_eq_false.
      apply pretty_N_char_no_comma.
  - assert (x = 0%N) as -> by lia. by rewrite pretty_N_go_0.
Qed.

Lemma pretty_Z_no_comma (z : Z) : hasComma (pretty z) = false.
Proof.
  assert (∀ n : N, hasComma (pretty n) = false) as HN.
  { intros n. unfold pretty, pretty_N. case_decide; [done|].
    by apply pretty_N_go_no_comma. }
  destruct z as [|p|p]; [done|apply (HN (N.pos p))|].
  change (pretty (Z.neg p)) with ("-" +:+ pretty (N.pos p)). simpl.
  apply (HN (N.pos p)).
Qed.

Lemma comma_split s1 :
  ∀ s2 t1 t2, hasComma s1 = false → hasComma s2 = false →
    s1 +:+ "," +:+ t1 = s2 +:+ "," +:+ t2 → s1 = s2 ∧ t1 = t2.
Proof.
  induction s1 as [|c s1 IH]; intros [|c' s2] t1 t2 H1 H2 Heq; simpl in *.
  - by injection Heq.
  - injection Heq as <- _. by rewrite bool_decide_eq_true_2 in H2.
  - injection Heq as -> _. by rewrite bool_decide_eq_true_2 in H1.
  - injection Heq as <- Heq. apply orb_false_iff in H1 as [_ H1], H2 as [_ H2].
    destruct (IH _ _ _ H1 H2 Heq) as [-> ->]. done.
Qed.

(** X27: [toString()] tells a tile's coordinates: two tiles have the same
    string exactly when they have the same [x] and the same [y]. *)
Theorem Tile_toString_inj (a b : Tile.t) :
  Tile_toString a = Tile_toString b ↔ Tile.x a = Tile.x b ∧ Tile.y a = Tile.y b.
Proof.
  unfold Tile_toString. split; [|by intros [-> ->]].
  intros [Hx Hy]%comma_split; [|apply pretty_Z_no_comma..].
  split; by apply (inj pretty).
Qed.

(** ** build on an instance with its regions renumbered *)

Lemma shiftId_no_region k : shiftId k (-1) = -1.
Proof. done. Qed.

Lemma shiftId_0 r : shiftId 0 r = r.
Proof. unfold shiftId. destruct (r <? 0); lia. Qed.

Lemma shiftId_inj k r1 r2 : 0 ≤ k → shiftId k r1 = shiftId k r2 → r1 = r2.
Proof.
  unfold shiftId. intros Hk.
  destruct (Z.ltb_spec r1 0), (Z.ltb_spec r2 0); lia.
Qed.

Lemma shiftId_is_no_region k r : 0 ≤ k → shiftId k r = -1 ↔ r = -1.
Proof. unfold shiftId. intros Hk. destruct (Z.ltb_spec r 0); lia. Qed.

Lemma shiftId_counter k n : 0 ≤ n → shiftId k n = n + k.
Proof. unfold shiftId. intros Hn. destruct (Z.ltb_spec n 0); lia. Qed.

Lemma shiftTile_0 a : shiftTile 0 a = a.
Proof. destruct a. unfold shiftTile, Tile.set_region. simpl. by rewrite shiftId_0. Qed.

Lemma shiftMatrix_0 m : shiftMatrix 0 m = m.
Proof.
  unfold shiftMatrix. rewrite <- (list_fmap_id m) at 2.
  apply list_fmap_ext. intros _ col _. rewrite <- (list_fmap_id col) at 2.
  apply list_fmap_ext. intros _ a _. apply shiftTile_0.
Qed.

Lemma tileAt_shift k m i j :
  tileAt (shiftMatrix k m) i j = shiftTile k <$> tileAt m i j.
Proof.
  unfold tileAt, shiftMatrix. destruct (_ && _); [|done].
  rewrite list_lookup_fmap. destruct (m !! _) as [col|]; [|done]. simpl.
  by rewrite list_lookup_fmap.
Qed.

Lemma updTile_shift k (f g : Tile.t → Tile.t) i j m :
  (∀ a, g (shiftTile k a) = shiftTile k (f a)) →
  updTile g i j (shiftMatrix k m) = shiftMatrix k (updTile f i j m).
Proof.
  intros Hfg. unfold updTile, shiftMatrix. destruct (_ && _); [|done].
  symmetry. apply list_fmap_alter, Forall_forall. intros col _.
  apply list_fmap_alter, Forall_forall. intros a _. by rewrite Hfg.
Qed.

Lemma length_shift k m : length (shiftMatrix k m) = length m.
Proof. unfold shiftMatrix. by rewrite length_fmap. Qed.

Lemma allRefs_shift k m : allRefs (shiftMatrix k m) = allRefs m.
Proof.
  unfold allRefs, shiftMatrix. rewrite imap_fmap. f_equal.
  apply imap_ext. intros i col _. simpl. by rewrite imap_fmap.
Qed.

Lemma deref_shift k m r : deref (shiftMatrix k m) r = shiftTile k <$> deref m r.
Proof. destruct r as [p|]; [|done]. apply tileAt_shift. Qed.

Lemma floorAt_shift k m r : floorAt (shiftMatrix k m) r = floorAt m r.
Proof. unfold floorAt. rewrite deref_shift. by destruct (deref m r). Qed.

Lemma isCorner_shift k m a : isCorner (shiftMatrix k m) (shiftTile k a) = isCorner m a.
Proof. unfold isCorner. simpl. by rewrite !floorAt_shift. Qed.

Lemma cardinal_shift k m a :
  cardinal (shiftMatrix k m) (shiftTile k a) = shiftTile k <$> cardinal m a.
Proof.
  unfold cardinal. change (Tile.neighbors (shiftTile k a)) with (Tile.neighbors a).
  generalize [nb_n (Tile.neighbors a); nb_e (Tile.neighbors a);
              nb_s (Tile.neighbors a); nb_w (Tile.neighbors a)].
  intros l. induction l as [|r l IH]; [done|]. cbn [omap list_omap].
  rewrite deref_shift, IH. by destruct (deref m r).
Qed.

Lemma filter_fmap_iff {A B} (f : A → B) (P : A → Prop) (Q : B → Prop)
    `{∀ x, Decision (P x)} `{∀ y, Decision (Q y)} (l : list A) :
  (∀ x, Q (f x) ↔ P x) →
  filter Q (f <$> l) = f <$> filter P l.
Proof.
  intros HPQ. induction l as [|x l IH]; [done|].
  rewrite fmap_cons, !filter_cons.
  destruct (decide (P x)) as [HP|HP], (decide (Q (f x))) as [HQ|HQ].
  - by rewrite fmap_cons, IH.
  - by apply HPQ in HP.
  - by apply HPQ in HQ.
  - done.
Qed.

Lemma ofType_shift k ty l : ofType ty (shiftTile k <$> l) = shiftTile k <$> ofType ty l.
Proof. unfold ofType. by apply filter_fmap_iff. Qed.

Lemma notType_shift k ty l : notType ty (shiftTile k <$> l) = shiftTile k <$> notType ty l.
Proof. unfold notType. by apply filter_fmap_iff. Qed.

Lemma nearDoors_shift k m a : nearDoors (shiftMatrix k m) (shiftTile k a) = nearDoors m a.
Proof. unfold nearDoors, doors. by rewrite cardinal_shift, ofType_shift, length_fmap. Qed.

Lemma isAtEnd_shift k m a : isAtEnd (shiftMatrix k m) (shiftTile k a) = isAtEnd m a.
Proof. unfold isAtEnd, floors. by rewrite cardinal_shift, ofType_shift, length_fmap. Qed.

Lemma link_shift k m i j : link (shiftMatrix k m) i j = link m i j.
Proof. unfold link. rewrite tileAt_shift. by destruct (tileAt m i j). Qed.

Lemma neighborsAt_shift k m x y : neighborsAt (shiftMatrix k m) x y = neighborsAt m x y.
Proof. unfold neighborsAt. by rewrite !link_shift. Qed.

Lemma earlyOut_shift k m a : earlyOut (shiftMatrix k m) (shiftTile k a) = earlyOut m a.
Proof. done. Qed.

(** The decimal rendering of an integer: digits, after a minus sign for a
    negative number; the minus sign is what [join('-')] puts between ids. *)
Lemma pretty_N_char_no_dash x : pretty_N_char x ≠ "-"%char.
Proof. unfold pretty_N_char. repeat case_match; done. Qed.

Lemma pretty_N_go_no_dash x :
  ∀ s, hasDash s = false → hasDash (pretty_N_go x s) = false.
Proof.
  induction (N.lt_wf_0 x) as [x _ IH]. intros s Hs.
  destruct (decide (0 < x)%N) as [Hx|Hx].
  - rewrite pretty_N_go_step by done. apply IH.
    + apply N.div_lt; [done|]. lia.
    + simpl. rewrite Hs, orb_false_r. apply bool_decide_eq_false.
      apply pretty_N_char_no_dash.
  - assert (x = 0%N) as -> by lia. by rewrite pretty_N_go_0.
Qed.

Lemma pretty_N_go_nonempty x : ∀ s, s ≠ "" → pretty_N_go x s ≠ "".
Proof.
  induction (N.lt_wf_0 x) as [x _ IH]. intros s Hs.
  destruct (decide (0 < x)%N) as [Hx|Hx].
  - rewrite pretty_N_go_step by done. apply IH; [|done].
    apply N.div_lt; [done|]. lia.
  - assert (x = 0%N) as -> by lia. by rewrite pretty_N_go_0.
Qed.

Lemma pretty_N_digits (n : N) : hasDash (pretty n) = false ∧ pretty n ≠ "".
Proof.
  unfold pretty, pretty_N. case_decide; [done|]. split.
  - by apply pretty_N_go_no_dash.
  - rewrite pretty_N_go_step by lia. by apply pretty_N_go_nonempty.
Qed.

(** A numeral: digits, or a minus sign and digits. *)
Lemma pretty_Z_numeral (z : Z) :
  ∃ u, hasDash u = false ∧ u ≠ "" ∧ (pretty z = u ∨ pretty z = "-" +:+ u).
Proof.
  destruct z as [|p|p].
  - exists "0". auto.
  - exists (pretty (N.pos p)). destruct (pretty_N_digits (N.pos p)). auto.
  - exists (pretty (N.pos p)). destruct (pretty_N_digits (N.pos p)). auto.
Qed.

Lemma dash_split s1 :
  ∀ s2 t1 t2, hasDash s1 = false → hasDash s2 = false →
    s1 +:+ "-" +:+ t1 = s2 +:+ "-" +:+ t2 → s1 = s2 ∧ t1 = t2.
Proof.
  induction s1 as [|c s1 IH]; intros [|c' s2] t1 t2 H1 H2 Heq; simpl in *.
  - by injection Heq.
  - injection Heq as <- _. by rewrite bool_decide_eq_true_2 in H2.
  - injection Heq as -> _. by rewrite bool_decide_eq_true_2 in H1.
  - injection Heq as <- Heq. apply orb_false_iff in H1 as [_ H1], H2 as [_ H2].
    destruct (IH _ _ _ H1 H2 Heq) as [-> ->]. done.
Qed.

Lemma dash_inside s : ∀ t, hasDash (s +:+ "-" +:+ t) = true.
Proof.
  induction s as [|c s IH]; intros t; simpl; [done|]. by rewrite IH, orb_true_r.
Qed.

Lemma digits_first u : hasDash u = false → u ≠ "" → ∃ c v, u = String c v ∧ c ≠ "-"%char.
Proof.
  destruct u as [|c v]; [done|]. simpl. intros [Hc _]%orb_false_iff _.
  exists c, v. split; [done|]. by apply bool_decide_eq_false in Hc.
Qed.

Lemma numeral_split (x y : Z) t1 t2 :
  pretty x +:+ "-" +:+ t1 = pretty y +:+ "-" +:+ t2 → x = y ∧ t1 = t2.
Proof.
  destruct (pretty_Z_numeral x) as (u & Hu & Hne & Ex).
  destruct (pretty_Z_numeral y) as (v & Hv & Hnv & Ey).
  intros Heq. cut (pretty x = pretty y ∧ t1 = t2).
  { intros [Hp ->]. split; [|done]. by apply (inj pretty). }
  destruct (digits_first u Hu Hne) as (c & u' & Eu & Hc).
  destruct (digits_first v Hv Hnv) as (c' & v' & Ev & Hc').
  destruct Ex as [Ex|Ex], Ey as [Ey|Ey]; rewrite Ex, Ey in Heq |- *.
  - by apply dash_split.
  - rewrite Eu in Heq. simpl in Heq. injection Heq as -> _. done.
  - rewrite Ev in Heq. simpl in Heq. injection Heq as <- _. done.
  - simpl in Heq. injection Heq as Heq.
    destruct (dash_split _ _ _ _ Hu Hv Heq) as [-> ->]. done.
Qed.

Lemma numeral_whole (x y : Z) t : pretty x ≠ pretty y +:+ "-" +:+ t.
Proof.
  destruct (pretty_Z_numeral x) as (u & Hu & Hne & Ex).
  destruct (pretty_Z_numeral y) as (v & Hv & Hnv & Ey).
  destruct (digits_first u Hu Hne) as (c & u' & Eu & Hc).
  destruct (digits_first v Hv Hnv) as (c' & v' & Ev & Hc').
  intros Heq.
  destruct Ex as [Ex|Ex], Ey as [Ey|Ey]; rewrite Ex, Ey in Heq.
  - rewrite Heq, dash_inside in Hu. done.
  - rewrite Eu in Heq. simpl in Heq. injection Heq as -> _. done.
  - rewrite Ev in Heq. simpl in Heq. injection Heq as <- _. done.
  - simpl in Heq. injection Heq as Heq. change ("" +:+ u) with u in Heq.
    rewrite Heq, dash_inside in Hu. done.
Qed.

Lemma pretty_Z_nonempty (x : Z) : pretty x ≠ "".
Proof.
  destruct (pretty_Z_numeral x) as (u & Hu & Hne & [E|E]); rewrite E; [done|].
  done.
Qed.

(** [join('-')] tells the lists of ids apart. *)
Lemma regionKey_inj l1 : ∀ l2, regionKey l1 = regionKey l2 → l1 = l2.
Proof.
  unfold regionKey.
  induction l1 as [|x l1 IH]; intros [|y l2] Heq.
  - done.
  - exfalso. destruct l2; simpl in Heq.
    + by eapply pretty_Z_nonempty.
    + destruct (pretty y); simpl in Heq; done.
  - exfalso. destruct l1; simpl in Heq.
    + by eapply pretty_Z_nonempty.
    + destruct (pretty x); simpl in Heq; done.
  - destruct l1 as [|x' l1], l2 as [|y' l2].
    + simpl in Heq. f_equal. by apply (inj pretty).
    + exact (False_ind _ (numeral_whole x y _ Heq)).
    + symmetry in Heq. exact (False_ind _ (numeral_whole y x _ Heq)).
    + change (pretty x +:+ "-" +:+ String.concat "-" (pretty <$> x' :: l1)
              = pretty y +:+ "-" +:+ String.concat "-" (pretty <$> y' :: l2)) in Heq.
      apply numeral_split in Heq as [-> Heq]. f_equal. by apply IH.
Qed.

(** Every method run on the renumbered instance gives the renumbered outcome:
    first the rules for the monad and the loops, then the methods in the
    order of the pipeline.  No method reads a region id but to copy it to a
    tile; [connectRegions] compares ids with -1 and, through the keys of its
    buckets, with each other. *)
Section Renumbering.
Context `{Collaborators}.
Variable k : Z.
Hypothesis Hk : 0 ≤ k.

Lemma agrees_ret {A} (f : A → A) (a : A) d : agrees k f (mret a) (mret (f a)) d.
Proof. intros Hn. split; [done|]. by intros ?? [_ <-]%ret_Ok. Qed.

Lemma agrees_bind {A B} (f : A → A) (g : B → B) (c1 c2 : M A)
    (k1 k2 : A → M B) d :
  agrees k f c1 c2 d →
  (∀ a d', c1 d = Ok (a, d') → agrees k g (k1 a) (k2 (f a)) d') →
  agrees k g (c1 ≫= k1) (c2 ≫= k2) d.
Proof.
  intros Hc Hk' Hn. destruct (Hc Hn) as [E Hn']. rewrite !bind_run, E.
  destruct (c1 d) as [[a d']| |] eqn:E1; simpl; [|done..].
  by destruct (Hk' a d' eq_refl (Hn' _ _ eq_refl)).
Qed.

Lemma agrees_get {A} (f : A → A) (g : Dungeon → A) d :
  g (shiftDungeon k d) = f (g d) → agrees k f (get g) (get g) d.
Proof.
  intros Hg Hn. unfold get. rewrite Hg. split; [done|]. by intros ?? [= _ <-].
Qed.

Lemma agrees_getSome {A} (f : A → A) (g : Dungeon → option A) what d :
  g (shiftDungeon k d) = f <$> g d →
  agrees k f (getSome g what) (getSome g what) d.
Proof.
  intros Hg Hn. unfold getSome. rewrite Hg.
  destruct (g d); simpl; [|done]. split; [done|]. by intros ?? [= _ <-].
Qed.

Lemma agrees_modify (h1 h2 : Dungeon → Dungeon) d :
  h2 (shiftDungeon k d) = shiftDungeon k (h1 d) →
  nextRegionId (h1 d) = nextRegionId d →
  agrees k id (modify h1) (modify h2) d.
Proof.
  intros Hh Hn' Hn. unfold modify. rewrite Hh. split; [done|].
  intros ?? [= _ <-]. by rewrite Hn'.
Qed.

Lemma agrees_throw {A} (f : A → A) e d : agrees k f (throw e) (throw e) d.
Proof. by intros Hn. Qed.

Lemma agrees_timeout {A} (f : A → A) d : agrees k f timeout timeout d.
Proof. by intros Hn. Qed.

Lemma agrees_forEach {A} (l : list A) (body1 body2 : A → M unit) :
  (∀ v d, v ∈ l → agrees k id (body1 v) (body2 v) d) →
  ∀ d, agrees k id (forEach l body1) (forEach l body2) d.
Proof.
  induction l as [|v l IH]; intros Hb d; simpl.
  - apply (agrees_ret id).
  - eapply (agrees_bind id); [apply Hb; left|].
    intros [] d' _. apply IH. intros ???. apply Hb. by right.
Qed.

Lemma agrees_foldM {A B} (body1 body2 : B → A → M B) (l : list A) :
  (∀ b v d, agrees k id (body1 b v) (body2 b v) d) →
  ∀ b d, agrees k id (foldM body1 b l) (foldM body2 b l) d.
Proof.
  intros Hb. induction l as [|v l IH]; intros b d; simpl.
  - apply (agrees_ret id).
  - eapply (agrees_bind id); [apply Hb|]. intros b' d' _. apply IH.
Qed.

Lemma agrees_randBetween lo hi d :
  agrees k id (randBetween lo hi) (randBetween lo hi) d.
Proof.
  intros Hn. unfold randBetween.
  change (rng (shiftDungeon k d)) with (rng d).
  destruct (rng d) as [c|]; [|done].
  destruct (Chance_integer lo hi c) as [[v c']| |]; [|done..].
  split; [done|]. by intros ?? [= _ <-].
Qed.

Lemma agrees_oneIn num d : agrees k id (oneIn num) (oneIn num) d.
Proof.
  unfold oneIn. eapply (agrees_bind id); [apply agrees_randBetween|].
  intros v d' _. apply (agrees_ret id).
Qed.

Lemma agrees_getTile x y d : agrees k (shiftTile k) (getTile x y) (getTile x y) d.
Proof.
  intros Hn. unfold getTile.
  change (tiles (shiftDungeon k d)) with (shiftMatrix k (tiles d)).
  rewrite tileAt_shift. destruct (tileAt (tiles d) x y); simpl; [|done].
  split; [done|]. by intros ?? [= _ <-].
Qed.

Lemma agrees_tileOf r d : agrees k (shiftTile k) (tileOf r) (tileOf r) d.
Proof.
  intros Hn. unfold tileOf.
  change (tiles (shiftDungeon k d)) with (shiftMatrix k (tiles d)).
  rewrite tileAt_shift. destruct (tileAt (tiles d) r.1 r.2); simpl; [|done].
  split; [done|]. by intros ?? [= _ <-].
Qed.

Lemma agrees_startRegion ty d :
  agrees k (shiftRegion k) (startRegion ty) (startRegion ty) d.
Proof.
  intros Hn. split.
  - unfold startRegion, Region_new, mbind, M_bind, modify, mret, M_ret. simpl.
    unfold shiftDungeon, shiftRegion, set_region, set_nextRegionId. simpl.
    rewrite shiftId_counter by done. do 3 f_equal. lia.
  - intros r d' [_ ->]%startRegion_Ok. simpl. lia.
Qed.

Lemma shiftTile_assigned r ty a :
  assigned (shiftRegion k r) ty (shiftTile k a) = shiftTile k (assigned r ty a).
Proof. done. Qed.

Lemma shiftTile_cleared a : cleared (shiftTile k a) = shiftTile k (cleared a).
Proof. done. Qed.

Lemma shiftTile_door a :
  Tile.set_type door (shiftTile k a) = shiftTile k (Tile.set_type door a).
Proof. done. Qed.

Lemma agrees_setTile x y ty d :
  agrees k (shiftTile k) (setTile x y ty) (setTile x y ty) d.
Proof.
  unfold setTile. eapply agrees_bind; [apply agrees_getTile|].
  intros a d1 _. eapply (agrees_bind (shiftRegion k)); [by apply agrees_getSome|].
  intros r d2 _. eapply (agrees_bind id).
  - apply agrees_modify; [|done]. unfold shiftDungeon, set_tiles. simpl.
    f_equal. apply updTile_shift, shiftTile_assigned.
  - intros [] d3 _. apply (agrees_ret (shiftTile k)).
Qed.

Lemma agrees_resetTile x y d :
  agrees k (shiftTile k) (resetTile x y) (resetTile x y) d.
Proof.
  unfold resetTile. eapply agrees_bind; [apply agrees_getTile|].
  intros a d1 _. eapply (agrees_bind id).
  - apply agrees_modify; [|done]. unfold shiftDungeon, set_tiles. simpl.
    f_equal. apply updTile_shift, shiftTile_cleared.
  - intros [] d3 _. apply (agrees_ret (shiftTile k)).
Qed.

Lemma agrees_markDoor r d : agrees k id (markDoor r) (markDoor r) d.
Proof.
  unfold markDoor. apply agrees_modify; [|done]. unfold shiftDungeon, set_tiles.
  simpl. f_equal. apply updTile_shift, shiftTile_door.
Qed.

Lemma agrees_carveArea x y w h d :
  agrees k id (carveArea x y w h) (carveArea x y w h) d.
Proof.
  unfold carveArea. apply agrees_forEach. intros i d1 _.
  apply agrees_forEach. intros j d2 _.
  eapply agrees_bind; [apply agrees_setTile|]. intros a d3 _.
  apply (agrees_ret id).
Qed.

Lemma agrees_canCarve cell offset d :
  agrees k id (canCarve cell offset) (canCarve cell offset) d.
Proof.
  unfold canCarve. cbv zeta.
  eapply (agrees_bind (shiftMatrix k)); [by apply agrees_get|].
  intros m d1 _. cbn beta. rewrite tileAt_shift.
  destruct (tileAt m _ _); simpl; [|apply (agrees_ret id)].
  eapply agrees_bind; [apply agrees_getTile|]. intros e d2 _. cbn beta.
  change (Tile.type (shiftTile k e)) with (Tile.type e).
  case_bool_decide; [apply (agrees_ret id)|].
  eapply agrees_bind; [apply agrees_getTile|]. intros dst d3 _.
  apply (agrees_ret id).
Qed.


Lemma foldl_shift {A} (step : TileMatrix → A → TileMatrix) (l : list A) :
  (∀ m v, step (shiftMatrix k m) v = shiftMatrix k (step m v)) →
  ∀ m, foldl step (shiftMatrix k m) l = shiftMatrix k (foldl step m l).
Proof.
  intros Hs. induction l as [|v l IH]; intros m; [done|]. simpl.
  by rewrite Hs, IH.
Qed.

Lemma pushColumn_shift m : pushColumn (shiftMatrix k m) = shiftMatrix k (pushColumn m).
Proof. unfold pushColumn, shiftMatrix. by rewrite fmap_app. Qed.

Lemma pushTile_shift x ty x0 y0 m :
  pushTile x (Tile.new ty x0 y0) (shiftMatrix k m)
  = shiftMatrix k (pushTile x (Tile.new ty x0 y0) m).
Proof.
  unfold pushTile, shiftMatrix. symmetry. apply list_fmap_alter, Forall_forall.
  intros col _. by rewrite fmap_app.
Qed.

Lemma fill_allocate_shift ty w h m :
  fill_allocate ty w h (shiftMatrix k m) = shiftMatrix k (fill_allocate ty w h m).
Proof.
  unfold fill_allocate. apply foldl_shift. intros m1 x.
  rewrite pushColumn_shift. apply foldl_shift. intros m2 y. apply pushTile_shift.
Qed.

Lemma fill_wire_shift w h m :
  fill_wire w h (shiftMatrix k m) = shiftMatrix k (fill_wire w h m).
Proof.
  unfold fill_wire. apply foldl_shift. intros m1 x.
  apply foldl_shift. intros m2 y. rewrite neighborsAt_shift.
  by apply updTile_shift.
Qed.

Lemma agrees_options {B} (g : B → B) (k1 k2 : DungeonOptions → M B) d :
  (∀ d', agrees k g (k1 (options d)) (k2 (options d)) d') →
  agrees k g (get options ≫= k1) (get options ≫= k2) d.
Proof.
  intros Hk'. eapply (agrees_bind id); [by apply agrees_get|].
  intros o d' [-> ->]%get_Ok. apply Hk'.
Qed.

Lemma agrees_stage {B} (g : B → B) what (k1 k2 : StageOptions → M B) d :
  (∀ st d', agrees k g (k1 st) (k2 st) d') →
  agrees k g (getSome stage what ≫= k1) (getSome stage what ≫= k2) d.
Proof.
  intros Hk'. eapply (agrees_bind id).
  - apply agrees_getSome. change (stage (shiftDungeon k d)) with (stage d).
    by destruct (stage d).
  - intros st d' _. apply Hk'.
Qed.

Lemma agrees_fill ty d : agrees k id (fill ty) (fill ty) d.
Proof.
  unfold fill. apply agrees_stage. intros st d1. apply agrees_modify; [|done].
  unfold shiftDungeon, set_tiles. simpl. f_equal.
  by rewrite fill_allocate_shift, fill_wire_shift.
Qed.

Lemma agrees_candidate d : agrees k id candidate candidate d.
Proof.
  unfold candidate. apply agrees_options. intros d0.
  apply agrees_stage. intros st d1. cbv zeta.
  eapply (agrees_bind id); [apply agrees_randBetween|]. intros v1 d2 _.
  eapply (agrees_bind id); [apply agrees_randBetween|]. intros v2 d3 _.
  eapply (agrees_bind id); [apply agrees_oneIn|]. intros b d4 _.
  eapply (agrees_bind id); [apply agrees_randBetween|]. intros v3 d5 _.
  eapply (agrees_bind id); [apply agrees_randBetween|]. intros v4 d6 _.
  apply (agrees_ret id).
Qed.

Lemma agrees_addRoomAttempt d : agrees k id addRoomAttempt addRoomAttempt d.
Proof.
  unfold addRoomAttempt.
  eapply (agrees_bind id); [apply agrees_candidate|]. intros r d1 _.
  eapply (agrees_bind id); [by apply agrees_get|]. intros rs d2 _.
  unfold id. destruct (existsb _ _); [apply (agrees_ret id)|].
  eapply (agrees_bind id); [by apply agrees_modify|]. intros [] d3 _.
  eapply agrees_bind; [apply agrees_startRegion|]. intros rg d4 _.
  apply agrees_carveArea.
Qed.

Lemma agrees_addRooms d : agrees k id addRooms addRooms d.
Proof.
  unfold addRooms. apply agrees_options. intros d0.
  apply agrees_stage. intros st d1.
  apply agrees_forEach. intros _ d2 _. apply agrees_addRoomAttempt.
Qed.

Lemma agrees_unmade cell d : agrees k id (unmade cell) (unmade cell) d.
Proof.
  unfold unmade. apply agrees_foldM. intros acc direction d1.
  eapply (agrees_bind id); [apply agrees_canCarve|]. intros ok d2 _.
  apply (agrees_ret id).
Qed.

Lemma agrees_uniformPick l d : agrees k id (uniformPick l) (uniformPick l) d.
Proof.
  unfold uniformPick.
  eapply (agrees_bind id); [apply agrees_randBetween|]. intros rand d1 _.
  unfold id. destruct (l !! _); [apply (agrees_ret id)|apply agrees_throw].
Qed.

Lemma agrees_chooseDirection l last d :
  agrees k id (chooseDirection l last) (chooseDirection l last) d.
Proof.
  unfold chooseDirection. cbv zeta. apply agrees_options. intros d0.
  eapply (agrees_bind id).
  - destruct last as [ld|]; [|apply (agrees_ret id)].
    case_bool_decide; [|apply (agrees_ret id)].
    eapply (agrees_bind id); [apply agrees_randBetween|]. intros v d1 _.
    apply (agrees_ret id).
  - intros prefer d1 _. unfold id.
    destruct prefer, last; first [apply (agrees_ret id)|apply agrees_uniformPick].
Qed.

Lemma agrees_growStep cells last d :
  agrees k id (growStep cells last) (growStep cells last) d.
Proof.
  unfold growStep. destruct (list.last cells) as [cell|]; [|apply (agrees_ret id)].
  eapply (agrees_bind id); [apply agrees_unmade|]. intros l d1 _. unfold id.
  case_bool_decide; [|apply (agrees_ret id)].
  eapply (agrees_bind id); [apply agrees_chooseDirection|]. intros dir d2 _.
  eapply agrees_bind; [apply agrees_setTile|]. intros a1 d3 _.
  eapply agrees_bind; [apply agrees_setTile|]. intros a2 d4 _.
  apply (agrees_ret id).
Qed.

Lemma agrees_growLoop remaining :
  ∀ cells last d,
    agrees k id (growLoop remaining cells last) (growLoop remaining cells last) d.
Proof.
  induction remaining as [|n IH]; intros cells last d; simpl.
  - apply (agrees_ret id).
  - case_bool_decide; [apply (agrees_ret id)|].
    eapply (agrees_bind id); [apply agrees_growStep|].
    intros [cells' last'] d1 _. apply IH.
Qed.

Lemma agrees_growMaze x y d : agrees k id (growMaze x y) (growMaze x y) d.
Proof.
  unfold growMaze.
  eapply (agrees_bind (shiftMatrix k)); [by apply agrees_get|].
  intros m d1 _. cbn beta. rewrite tileAt_shift.
  destruct (tileAt m x y) as [a|]; cbn [fmap option_fmap option_map];
    [|apply agrees_throw].
  rewrite earlyOut_shift. destruct (earlyOut m a); [apply (agrees_ret id)|].
  eapply agrees_bind; [apply agrees_startRegion|]. intros r d2 _.
  eapply agrees_bind; [apply agrees_setTile|]. intros a1 d3 _.
  apply agrees_growLoop.
Qed.

Lemma agrees_fillMazes d : agrees k id fillMazes fillMazes d.
Proof.
  unfold fillMazes. apply agrees_stage. intros st d1.
  apply agrees_forEach. intros y d2 _.
  apply agrees_forEach. intros x d3 _.
  eapply agrees_bind; [apply agrees_getTile|]. intros a d4 _. cbn beta.
  change (Tile.type (shiftTile k a)) with (Tile.type a).
  case_bool_decide; [apply (agrees_ret id)|apply agrees_growMaze].
Qed.

Lemma agrees_cycleTile done r d :
  agrees k id (cycleTile done r) (cycleTile done r) d.
Proof.
  unfold cycleTile. eapply agrees_bind; [apply agrees_tileOf|].
  intros a d1 _. cbn beta. change (Tile.type (shiftTile k a)) with (Tile.type a).
  case_bool_decide; [apply (agrees_ret id)|].
  eapply (agrees_bind (shiftMatrix k)); [by apply agrees_get|]. intros m d2 _.
  eapply (agrees_bind id); [by apply agrees_get|]. intros rs d3 _. cbn beta.
  rewrite cardinal_shift, notType_shift, length_fmap.
  change (Tile.x (shiftTile k a)) with (Tile.x a).
  change (Tile.y (shiftTile k a)) with (Tile.y a). unfold id.
  destruct (_ && _); [|apply (agrees_ret id)].
  eapply agrees_bind; [apply agrees_resetTile|]. intros a1 d4 _.
  apply (agrees_ret id).
Qed.

Lemma agrees_cycle d : agrees k id cycle cycle d.
Proof.
  unfold cycle. eapply (agrees_bind (shiftMatrix k)); [by apply agrees_get|].
  intros m d1 _. cbn beta. rewrite allRefs_shift.
  apply agrees_foldM. intros. apply agrees_cycleTile.
Qed.

Lemma agrees_removeDeadEnds budget :
  ∀ d, agrees k id (removeDeadEnds budget) (removeDeadEnds budget) d.
Proof.
  unfold removeDeadEnds. induction budget as [|n IH]; intros d; simpl.
  - apply agrees_timeout.
  - eapply (agrees_bind id); [apply agrees_cycle|]. intros done d1 _.
    unfold id. destruct done; [apply (agrees_ret id)|apply IH].
Qed.

Lemma agrees_pick l rand d : agrees k id (pick l rand) (pick l rand) d.
Proof.
  unfold pick. destruct (l !! _); [apply (agrees_ret id)|apply agrees_throw].
Qed.

Lemma agrees_doorLoop budget :
  ∀ connections doorCount added i failed d,
    agrees k id (doorLoop budget connections doorCount added i failed)
                (doorLoop budget connections doorCount added i failed) d.
Proof.
  induction budget as [|n IH]; intros connections doorCount added i failed d;
    simpl; apply agrees_options; intros d0.
  - destruct (_ && _); [apply agrees_timeout|apply (agrees_ret id)].
  - destruct (_ && _); [|apply (agrees_ret id)].
    eapply (agrees_bind id); [apply agrees_randBetween|]. intros rand d1 _.
    eapply (agrees_bind id); [apply agrees_oneIn|]. intros byChance d2 _.
    eapply (agrees_bind id); [apply agrees_pick|]. intros r d3 _.
    eapply (agrees_bind (shiftMatrix k)); [by apply agrees_get|]. intros m d4 _.
    eapply agrees_bind; [apply agrees_tileOf|]. intros a d5 _. cbn beta.
    rewrite isCorner_shift, nearDoors_shift, isAtEnd_shift. unfold id.
    destruct (_ && _); [|apply IH].
    destruct byChance; [|apply IH].
    eapply (agrees_bind id); [apply agrees_markDoor|]. intros [] d6 _. apply IH.
Qed.

Lemma agrees_connectBucket connections d :
  agrees k id (connectBucket connections) (connectBucket connections) d.
Proof.
  unfold connectBucket. apply agrees_options. intros d0. cbv zeta.
  eapply (agrees_bind id); [apply agrees_randBetween|]. intros doorCount d1 _.
  eapply (agrees_bind id); [apply agrees_doorLoop|]. intros [added failed] d2 _.
  cbn beta iota. eapply (agrees_bind id).
  - destruct (_ =? _); [|apply (agrees_ret id)].
    eapply (agrees_bind id); [apply agrees_randBetween|]. intros rand d3 _.
    eapply (agrees_bind id); [apply agrees_pick|]. intros r d4 _.
    eapply agrees_bind; [apply agrees_tileOf|]. intros a d5 _.
    eapply (agrees_bind id); [apply agrees_markDoor|]. intros [] d6 _.
    apply (agrees_ret id).
  - intros added' d3 _. unfold id. eapply (agrees_bind id).
    + destruct (_ =? _); [by apply agrees_modify|apply (agrees_ret id)].
    + intros [] d4 _. apply (agrees_ret id).
Qed.


(** [connectRegions]: the buckets of the renumbered run hold the same tiles
    in the same order. *)
Hypothesis Hquery : queryRenumbers.

Lemma addConnection_sameBuckets regs r acc1 acc2 :
  sameBuckets k acc1 acc2 →
  sameBuckets k (addConnection (regionKey regs) r acc1)
                (addConnection (regionKey (shiftId k <$> regs)) r acc2).
Proof.
  assert (Hinj : Inj (=) (=) (shiftId k)) by (intros ???; by eapply shiftId_inj).
  induction 1 as [|[k1 v1] [k2 v2] acc1 acc2 (Hv & regs0 & E1 & E2) Htl IH]; simpl.
  - constructor; [|constructor]. split; [done|]. by exists regs.
  - simpl in *. subst.
    destruct (String.eqb (regionKey regs0) (regionKey regs)) eqn:E.
    + apply String.eqb_eq, regionKey_inj in E as ->. rewrite String.eqb_refl.
      constructor; [|done]. split; [done|]. by exists regs.
    + destruct (String.eqb (regionKey (shiftId k <$> regs0)) _) eqn:E'.
      * apply String.eqb_eq, regionKey_inj, (inj (fmap (shiftId k))) in E' as ->.
        by rewrite String.eqb_refl in E.
      * constructor; [|done]. split; [done|]. by exists regs0.
Qed.

Lemma regionConnections_shift m :
  snd <$> regionConnections (shiftMatrix k m) = snd <$> regionConnections m.
Proof.
  cut (sameBuckets k (regionConnections m) (regionConnections (shiftMatrix k m))).
  { induction 1 as [|[??] [??] ?? [Hv _] _ IH]; [done|].
    rewrite !fmap_cons. f_equal; [exact Hv|exact IH]. }
  unfold regionConnections. rewrite allRefs_shift.
  assert (Hnil : sameBuckets k [] []) by constructor.
  revert Hnil. generalize (@nil (string * list Ref)) at 1 3.
  generalize (@nil (string * list Ref)).
  induction (allRefs m) as [|r l IH]; intros acc2 acc1 Hacc; [done|].
  simpl. apply IH. rewrite tileAt_shift.
  destruct (tileAt m r.1 r.2) as [a|]; simpl; [|done].
  rewrite (bool_decide_ext (shiftId k (Tile.region a) ≠ -1) (Tile.region a ≠ -1))
    by (by rewrite shiftId_is_no_region).
  destruct (_ || _); [done|].
  change (Tile.set_region (shiftId k (Tile.region a)) a) with (shiftTile k a).
  rewrite Hquery, length_fmap by done.
  destruct (_ <=? _); [done|]. by apply addConnection_sameBuckets.
Qed.

Lemma agrees_connectRegions d : agrees k id connectRegions connectRegions d.
Proof.
  unfold connectRegions.
  eapply (agrees_bind (shiftMatrix k)); [by apply agrees_get|].
  intros m d1 _. cbn beta. rewrite regionConnections_shift.
  apply agrees_forEach. intros connections d2 _.
  eapply (agrees_bind id); [apply agrees_connectBucket|]. intros n d3 _.
  apply (agrees_ret id).
Qed.

(** The stages of [build] after [validate]. *)
Lemma agrees_stages budget d :
  agrees k (shiftResults k)
    (fill wall;; addRooms;; fillMazes;; connectRegions;;
     o ← get options;
     (if removeDeadEndsOpt o then removeDeadEnds budget else mret tt);;
     d ← get id; mret (mkResults (rooms d) (tiles d) (seed d)))
    (fill wall;; addRooms;; fillMazes;; connectRegions;;
     o ← get options;
     (if removeDeadEndsOpt o then removeDeadEnds budget else mret tt);;
     d ← get id; mret (mkResults (rooms d) (tiles d) (seed d)))
    d.
Proof.
  eapply (agrees_bind id); [apply agrees_fill|]. intros [] d1 _.
  eapply (agrees_bind id); [apply agrees_addRooms|]. intros [] d2 _.
  eapply (agrees_bind id); [apply agrees_fillMazes|]. intros [] d3 _.
  eapply (agrees_bind id); [apply agrees_connectRegions|]. intros [] d4 _.
  apply agrees_options. intros d5.
  eapply (agrees_bind id).
  - destruct (removeDeadEndsOpt _); [apply agrees_removeDeadEnds|apply (agrees_ret id)].
  - intros [] d6 _.
    eapply (agrees_bind (shiftDungeon k)); [by apply agrees_get|].
    intros d7 d8 _. apply (agrees_ret (shiftResults k)).
Qed.

(** [validate] overwrites the stage, the generator and the seed, so that the
    two instances are in the same state, up to the renumbering, after it. *)
Lemma validate_renumbered slug1 slug2 st d1 d2 :
  truthy (stage_seed st) = true → renumbered k d1 d2 →
  validate slug2 st d2 = relabelled id k (validate slug1 st d1) ∧
  ∀ u d', validate slug1 st d1 = Ok (u, d') → nextRegionId d' = nextRegionId d1.
Proof.
  intros Ht (Ho & Hr & Hg & Hm & Hn & He). unfold validate. rewrite Ht.
  destruct (_ <? 5); [done|]. destruct (_ <? 5); [done|].
  unfold mbind, M_bind, get, modify. rewrite Ho. split.
  - destruct d1, d2; simpl in *. subst. done.
  - by intros ?? [= _ <-].
Qed.

End Renumbering.

(** The region query of the specification renumbers. *)
Lemma remove_dups_fmap_inj {A B} `{EqDecision A} `{EqDecision B} (f : A → B)
    (l : list A) :
  Inj (=) (=) f → remove_dups (f <$> l) = f <$> remove_dups l.
Proof.
  intros Hf. induction l as [|x l IH]; [done|]. rewrite fmap_cons.
  cbn [remove_dups].
  destruct (decide_rel elem_of x l) as [Hx|Hx],
           (decide_rel elem_of (f x) (f <$> l)) as [Hy|Hy].
  - exact IH.
  - destruct Hy. by apply list_elem_of_fmap_inj.
  - destruct Hx. by eapply list_elem_of_fmap_inj.
  - by rewrite fmap_cons, IH.
Qed.

Lemma Query_tileRegions_renumbers streamOf showPoint :
  queryRenumbers (H := collaborators streamOf showPoint).
Proof.
  intros k m a Hk. simpl. unfold Query_tileRegions.
  assert (Hinj : Inj (=) (=) (shiftId k)) by (intros ???; by eapply shiftId_inj).
  rewrite cardinal_shift, <- list_fmap_compose.
  rewrite (list_fmap_compose Tile.region (shiftId k)).
  rewrite (filter_fmap_iff (shiftId k) (λ r, r ≠ -1) (λ r, r ≠ -1))
    by (intros r; by rewrite shiftId_is_no_region).
  by apply remove_dups_fmap_inj.
Qed.

Lemma shiftDungeon_0 d : shiftDungeon 0 d = d.
Proof.
  destruct d as [o st g rs [[i t]|] m sd n e]; unfold shiftDungeon; simpl;
    rewrite shiftMatrix_0, Z.add_0_r; [|done].
  unfold shiftRegion. simpl. by rewrite shiftId_0.
Qed.

(** Without renumbering the outcome is the same. *)
Lemma relabelled_0 (r : Res (Results * Dungeon)) :
  relabelled (shiftResults 0) 0 r = r.
Proof.
  destruct r as [[[rs m sd] d]| |]; [|done..]. simpl.
  unfold shiftResults. simpl. by rewrite shiftMatrix_0, shiftDungeon_0.
Qed.

(** C5, as the code has it.  Take two instances in the same state but for
    what [validate] overwrites ([stage], [rng], [seed]) and for the numbers
    of the regions, the registry having handed out [k] ids more before the
    second run; two new instances are such, with [k] the number of ids
    handed out in between.  For the same stage with a seed that is truthy,
    whatever slug the ambient generator would have produced, [build] has the
    same outcome on both, up to the numbers of the regions: the same
    exception, or the same room list and seed and a tile matrix with the same
    type, region type, coordinates and links at every place, and with every
    region id of the second run [k] above that of the first ([-1] stays).
    With [k = 0] the outcomes are equal. *)
Theorem build_deterministic `{Collaborators} (slug1 slug2 : string)
    (budget : nat) (s : StageInput) (d1 : Dungeon) :
  queryRenumbers →
  truthy (in_seed s) = true →
  0 ≤ nextRegionId d1 →
  (∀ d2, renumbered 0 d1 d2 →
     build slug2 budget s d2 = build slug1 budget s d1) ∧
  (∀ k d2, 0 ≤ k → renumbered k d1 d2 →
     build slug2 budget s d2
     = relabelled (shiftResults k) k (build slug1 budget s d1)).
Proof.
  intros Hq Ht Hn.
  assert (E : ∀ k d2, 0 ≤ k → renumbered k d1 d2 →
            build slug2 budget s d2
            = relabelled (shiftResults k) k (build slug1 budget s d1)).
  { intros k d2 Hk Hd. unfold build. rewrite !bind_run.
    destruct (validate_renumbered k slug1 slug2
                (mkStage (default 5 (in_width s)) (default 5 (in_height s)) (in_seed s))
                d1 d2 Ht Hd) as [-> Hn'].
    destruct (validate slug1 _ d1) as [[[] d1']| |]; simpl; [|done..].
    apply (agrees_stages k Hk Hq budget d1'). by rewrite (Hn' tt d1'). }
  split; [|exact E]. intros d2 Hd. by rewrite (E 0 d2), relabelled_0.
Qed.

Lemma build_deterministic_witness :
  let env := example mazeDraws in
  build (H := env) "another" 60 stage9 (Dungeon_from 0 pruning)
  = build (H := env) "slug" 60 stage9 (Dungeon_from 0 pruning) ∧
  build (H := env) "another" 60 stage9 (Dungeon_from 7 pruning)
  = relabelled (shiftResults 7) 7
      (build (H := env) "slug" 60 stage9 (Dungeon_from 0 pruning)).
Proof.
  intros env.
  pose proof (build_deterministic (H := env) "slug" "another" 60 stage9
                (Dungeon_from 0 pruning)
                (Query_tileRegions_renumbers _ _) eq_refl
                ltac:(simpl; lia)) as [H0 H7].
  split.
  - apply H0. repeat split; reflexivity.
  - apply H7; [lia|]. repeat split; reflexivity.
Defined.

(** In the run of the witness the first room is region 0, and region 7 in
    the run that starts with seven ids handed out; the rooms are the same. *)
Example build_renumbered_rooms :
  let env := example mazeDraws in
  let r1 := valueOf (build (H := env) "slug" 60 stage9 (Dungeon_from 0 pruning)) in
  let r2 := valueOf (build (H := env) "another" 60 stage9 (Dungeon_from 7 pruning)) in
  res_rooms <$> r1 = res_rooms <$> r2 ∧
  (r ← r1; Tile.region <$> tileAt (res_tiles r) 1 1) = Some 0 ∧
  (r ← r2; Tile.region <$> tileAt (res_tiles r) 1 1) = Some 7.
Proof. vm_compute. done. Qed.
